(** * TokenScope: price resolver and subscription fan-out engine

    A shallow embedding of [lib/priceUtils.ts] (class [PriceService]) and of
    the pricing Durable Object (class [PricingDurableObject]), with the
    properties of the specification stated over the embedded code, and after
    them further properties of the same code: pool discovery and the best
    price, the handlers of a connection and of its messages, what a record
    holds, and the helper functions of the token page.

    Conventions of the embedding
    - a BigInt is a [Z]; BigInt division truncates toward zero ([Z.quot]) and
      throws on a zero divisor, exponentiation throws on a negative exponent;
    - a JavaScript [number] is a rational [Q] (every finite double is one);
      the two conversions between numbers and strings that the code uses,
      [parseFloat] and [Number.prototype.toString], are parameters;
    - a call that can throw, or a contract read that can revert, returns an
      [option]; [None] is the thrown error;
    - a [Map] or a [Set] of the Durable Object is a [gmap] or a [gset]; the
      plain object [dexPrices], whose key order is visible through
      [JSON.stringify], is an association list in insertion order;
    - the network is an explicit argument: a record of contract reads
      ([Chain]), the outcome of the one HTTP request ([FetchOutcome]) and, for
      the Durable Object, the outcome of [getAllAvailablePrices] per token;
    - a message event is what [JSON.parse] makes of its text, an HTTP header
      what [Headers.get] returns, and an instant what [Date.now()] returns
      where the code asks for it. *)

From Stdlib Require Import ZArith QArith Lqa Lia.
From Stdlib Require Import Ascii String DecimalString DecimalZ DecimalPos Sorted.
From stdpp Require Import base strings gmap sets list.

Open Scope Z_scope.

#[local] Set Warnings "-clear-no-such-hyp".

(** ** JavaScript built-ins used by the code *)

Module JS.

(** [BigInt.prototype.toString()] : the canonical decimal numeral. *)
Definition BigInt_toString (z : Z) : string :=
  NilZero.string_of_int (Z.to_int z).

(** [a / b] on BigInts: truncation toward zero, RangeError when [b] is 0. *)
Definition BigInt_div (a b : Z) : option Z :=
  if decide (b = 0) then None else Some (Z.quot a b).

(** [a ** b] on BigInts: RangeError when the exponent is negative. *)
Definition BigInt_pow (a b : Z) : option Z :=
  if decide (b < 0) then None else Some (a ^ b).

(** [String.prototype.toLowerCase] on the ASCII range (addresses, venue
    names). *)
Definition lower_ascii (c : ascii) : ascii :=
  let n := nat_of_ascii c in
  if decide (65 <= n <= 90)%nat then ascii_of_nat (n + 32) else c.

Fixpoint toLowerCase (s : string) : string :=
  match s with
  | EmptyString => EmptyString
  | String c r => String (lower_ascii c) (toLowerCase r)
  end.

(** [String.prototype.includes]. *)
Definition includes (s sub : string) : bool :=
  bool_decide (is_Some (String.index 0 sub s)).

(** [s.replace(/\s+/g, '_')]: each maximal run of white space becomes one
    underscore. *)
Definition is_space (c : ascii) : bool :=
  let n := nat_of_ascii c in
  bool_decide (n = 32 \/ 9 <= n <= 13)%nat.

Fixpoint replace_spaces (in_run : bool) (s : string) : string :=
  match s with
  | EmptyString => EmptyString
  | String c r =>
      if is_space c
      then (if in_run then replace_spaces true r
            else String "_"%char (replace_spaces true r))
      else String c (replace_spaces false r)
  end.

(** [a < b] and [a > b] on numbers. *)
Definition Number_lt (a b : Q) : bool := negb (Qle_bool b a).
Definition Number_gt (a b : Q) : bool := negb (Qle_bool a b).

(** [Array.prototype.find]. *)
Fixpoint find {A} (p : A -> bool) (l : list A) : option A :=
  match l with
  | [] => None
  | x :: r => if p x then Some x else find p r
  end.

(** [acc[acc.indexOf(existing)] = current], where [existing] is the first
    element satisfying [p]. *)
Fixpoint replace_first {A} (p : A -> bool) (y : A) (l : list A) : list A :=
  match l with
  | [] => []
  | x :: r => if p x then y :: r else x :: replace_first p y r
  end.

(** Assignment to a key of a [Map] or of a plain object: an existing key
    keeps its place in the iteration order, a new key goes last.  (Keys that
    look like array indices, which a plain object would list first, do not
    occur: the keys are venue identifiers.) *)
Fixpoint assoc_set {V} (k : string) (v : V) (l : list (string * V))
  : list (string * V) :=
  match l with
  | [] => [(k, v)]
  | (k', v') :: r =>
      if decide (k' = k) then (k, v) :: r else (k', v') :: assoc_set k v r
  end.

Fixpoint assoc_get {V} (k : string) (l : list (string * V)) : option V :=
  match l with
  | [] => None
  | (k', v') :: r => if decide (k' = k) then Some v' else assoc_get k r
  end.

(** [Array.prototype.sort(cmp)]: the sort is stable and orders [a] before
    [b] when [cmp(a, b) <= 0]; with a comparator that is a total preorder
    every stable sort returns the same array, here by insertion. *)
Fixpoint sort_insert {A} (cmp : A -> A -> Q) (x : A) (l : list A) : list A :=
  match l with
  | [] => [x]
  | y :: r =>
      if Qle_bool (cmp x y) 0 then x :: y :: r
      else y :: sort_insert cmp x r
  end.

Definition Array_sort {A} (cmp : A -> A -> Q) (l : list A) : list A :=
  foldr (sort_insert cmp) [] l.

(** [Array.prototype.reduce(f)] without an initial value: the first element
    starts the accumulation, and the empty array is a TypeError. *)
Definition reduce {A} (f : A -> A -> A) (l : list A) : option A :=
  match l with
  | [] => None
  | x :: r => Some (foldl f x r)
  end.

(** [s.split(sep)] for a separator of one character: a string without the
    separator, the empty string included, is one piece. *)
Fixpoint split (sep : ascii) (s : string) : list string :=
  match s with
  | EmptyString => [EmptyString]
  | String c r =>
      if decide (c = sep) then EmptyString :: split sep r
      else
        match split sep r with
        | piece :: pieces => String c piece :: pieces
        | [] => [String c EmptyString]
        end
  end.

(** [String.prototype.trim] on the ASCII range. *)
Fixpoint trimStart (s : string) : string :=
  match s with
  | EmptyString => EmptyString
  | String c r => if is_space c then trimStart r else s
  end.

Fixpoint trimEnd (s : string) : string :=
  match s with
  | EmptyString => EmptyString
  | String c r =>
      let r := trimEnd r in
      if is_space c && bool_decide (r = EmptyString) then EmptyString
      else String c r
  end.

Definition trim (s : string) : string := trimEnd (trimStart s).

End JS.

(** ** lib/priceUtils.ts *)

Module PriceUtils.

Definition UNISWAP_V3_FACTORY : string := "0x1F98431c8aD98523631AE4a59f267346ea31F984".
Definition UNISWAP_V2_FACTORY : string := "0x5C69bEe701ef814a2B6a3EDD4B1652CB9cc5aA6f".
Definition SUSHISWAP_FACTORY : string := "0xC0AEe478e3658e2610c5F7A4A2E1777cE9e4f2Ac".
Definition PANCAKESWAP_V2_FACTORY : string := "0x1097053Fd2ea711dad45caCcc45EfF7548fCB362".
Definition PANCAKESWAP_V3_FACTORY : string := "0x0BFbCF9fa4f9C56B0F40a671Ad40E0805A091865".
Definition WETH_ADDRESS : string := "0xC02aaA39b223FE8D0A0e5C4F27eAD9083C756Cc2".
(** [ethers.ZeroAddress] *)
Definition ZeroAddress : string := "0x0000000000000000000000000000000000000000".

Definition V3_FEE_TIERS : list Z := [100; 500; 3000; 10000].

Record PoolResult := {
  dex : string;
  poolAddress : string;
  liquidity : string;
  priceInWei : string;
  baseToken : string;
  baseTokenSymbol : string;
  fee : option Z
}.

(** The fields of the index's reply that the code reads;
    [pair_token_type] is one of the two literals token0 and token1. *)
Inductive PairTokenType := TOKEN0 | TOKEN1.

Record MoralisPairToken := {
  token_address : string;
  token_symbol : string;
  pair_token_type : PairTokenType
}.

Record MoralisPair := {
  exchange_name : option string;   (* None: null or undefined *)
  pair_address : string;
  liquidity_usd : Q;
  pair : list MoralisPairToken
}.

Record MoralisResponse := { pairs : option (list MoralisPair) }.

(** What [fetch(apiUrl, ...)] followed by [response.json()] does:
    [fetch] throws, or a response arrives with its [ok] flag and a body
    that parses ([Some]) or not ([None]: [response.json()] throws). *)
Inductive FetchOutcome :=
| FetchThrows
| FetchResponse (ok : bool) (body : option MoralisResponse).

(** The read-only contract calls; [None] is a call that throws. *)
Record Chain := {
  pool_token0 : string -> option string;
  pool_token1 : string -> option string;
  erc20_decimals : string -> option Z;
  erc20_symbol : string -> option string;
  pool_slot0_sqrtPriceX96 : string -> option Z;
  pool_liquidity : string -> option Z;
  pool_getReserves : string -> option (Z * Z);
  factory_getPool : string -> string -> string -> Z -> option string;
  factory_getPair : string -> string -> string -> option string
}.

Record PriceFromPool := {
  pfp_priceInWei : string;
  pfp_baseToken : string;
  pfp_baseTokenSymbol : string
}.

Global Instance PairTokenType_eq_dec : EqDecision PairTokenType.
Proof. solve_decision. Defined.

Section Service.

(** [parseFloat] on the liquidity strings the service itself produces,
    which are numerals of finite numbers. *)
Variable parseFloat : string -> Q.
(** [Number.prototype.toString]. *)
Variable Number_toString : Q -> string.
(** [BigInt(Math.sqrt(Number(x)))]: the square root in double precision,
    [None] when the root is not an integer double (RangeError). *)
Variable BigInt_Math_sqrt : Z -> option Z.

Variable chain : Chain.

(** [getPoolLiquidity]: every error is caught and reported as 0. *)
Definition getPoolLiquidity (poolAddress : string) (isV3 : bool) : Z :=
  default 0
    (if isV3 then pool_liquidity chain poolAddress
     else
       '(reserve0, reserve1) ← pool_getReserves chain poolAddress;
       if decide (reserve0 = 0 \/ reserve1 = 0) then Some 0
       else BigInt_Math_sqrt (reserve0 * reserve1)).

(** One iteration of [for (const isV3 of [true, false])] in
    [getTokenPriceFromPool]; [None] is [continue], taken on zero reserves
    and in the [catch]. *)
Definition priceAttempt (tokenAddress poolAddress : string) (isV3 : bool)
  : option PriceFromPool :=
  token0 ← pool_token0 chain poolAddress;
  token1 ← pool_token1 chain poolAddress;
  decimal0 ← erc20_decimals chain token0;
  decimal1 ← erc20_decimals chain token1;
  symbol0 ← erc20_symbol chain token0;
  symbol1 ← erc20_symbol chain token1;
  let isTokenToken0 :=
    bool_decide (JS.toLowerCase token0 = JS.toLowerCase tokenAddress) in
  let otherToken := if isTokenToken0 then token1 else token0 in
  let otherSymbol := if isTokenToken0 then symbol1 else symbol0 in
  priceInWei ←
    (if isV3 then
       sqrtPriceBN ← pool_slot0_sqrtPriceX96 chain poolAddress;
       let Q96 := 2 ^ 96 in
       decimal0BN ← JS.BigInt_pow 10 decimal0;
       decimal1BN ← JS.BigInt_pow 10 decimal1;
       if isTokenToken0 then
         let sqrtPrice := sqrtPriceBN * sqrtPriceBN in
         JS.BigInt_toString <$>
           JS.BigInt_div (sqrtPrice * decimal1BN) (Q96 * Q96 * decimal0BN)
       else
         let sqrtPrice := sqrtPriceBN * sqrtPriceBN in
         JS.BigInt_toString <$>
           JS.BigInt_div (Q96 * Q96 * decimal0BN * decimal1BN)
                         (sqrtPrice * decimal1BN)
     else
       '(reserve0, reserve1) ← pool_getReserves chain poolAddress;
       if decide (reserve0 = 0 \/ reserve1 = 0) then None
       else
         decimal0BN ← JS.BigInt_pow 10 decimal0;
         decimal1BN ← JS.BigInt_pow 10 decimal1;
         if isTokenToken0 then
           JS.BigInt_toString <$>
             JS.BigInt_div (reserve1 * decimal1BN) (reserve0 * decimal0BN)
         else
           JS.BigInt_toString <$>
             JS.BigInt_div (reserve0 * decimal0BN) (reserve1 * decimal1BN));
  Some {| pfp_priceInWei := priceInWei;
          pfp_baseToken := otherToken;
          pfp_baseTokenSymbol := otherSymbol |}.

(** [getTokenPriceFromPool]: concentrated liquidity first, then
    constant product; [None] is [null]. *)
Definition getTokenPriceFromPool (tokenAddress poolAddress : string)
  : option PriceFromPool :=
  match priceAttempt tokenAddress poolAddress true with
  | Some result => Some result
  | None => priceAttempt tokenAddress poolAddress false
  end.

(** [getDexPrices], concentrated-liquidity venue: the body of
    [for (const fee of V3_FEE_TIERS)], whose [catch] skips the tier. *)
Definition probeFeeTier (factoryAddress tokenA tokenB dexName : string)
    (fee : Z) : list PoolResult :=
  match factory_getPool chain factoryAddress tokenA tokenB fee with
  | None => []
  | Some poolAddress =>
      if decide (poolAddress <> ZeroAddress) then
        let liquidity := getPoolLiquidity poolAddress true in
        if decide (liquidity > 0) then
          match getTokenPriceFromPool tokenA poolAddress with
          | Some priceResult =>
              [ {| dex := dexName;
                   poolAddress := poolAddress;
                   liquidity := JS.BigInt_toString liquidity;
                   priceInWei := pfp_priceInWei priceResult;
                   baseToken := pfp_baseToken priceResult;
                   baseTokenSymbol := pfp_baseTokenSymbol priceResult;
                   fee := Some fee |} ]
          | None => []
          end
        else []
      else []
  end.

(** The object literal that maps a constant-product venue to its
    factory. *)
Definition v2FactoryAddress (dexName : string) : option string :=
  if decide (dexName = "uniswap_v2") then Some UNISWAP_V2_FACTORY
  else if decide (dexName = "sushiswap") then Some SUSHISWAP_FACTORY
  else if decide (dexName = "pancakeswap_v2") then Some PANCAKESWAP_V2_FACTORY
  else None.

Definition getDexPrices (tokenA tokenB dexName : string) : list PoolResult :=
  if decide (dexName = "uniswap_v3" \/ dexName = "pancakeswap_v3") then
    let factoryAddress :=
      if decide (dexName = "uniswap_v3") then UNISWAP_V3_FACTORY
      else PANCAKESWAP_V3_FACTORY in
    fee ← V3_FEE_TIERS;
    probeFeeTier factoryAddress tokenA tokenB dexName fee
  else
    match v2FactoryAddress dexName with
    | Some factoryAddress =>
        match factory_getPair chain factoryAddress tokenA tokenB with
        | None => []   (* the outer [catch] *)
        | Some pairAddress =>
            if decide (pairAddress <> ZeroAddress) then
              let liquidity := getPoolLiquidity pairAddress false in
              if decide (liquidity > 0) then
                match getTokenPriceFromPool tokenA pairAddress with
                | Some priceResult =>
                    [ {| dex := dexName;
                         poolAddress := pairAddress;
                         liquidity := JS.BigInt_toString liquidity;
                         priceInWei := pfp_priceInWei priceResult;
                         baseToken := pfp_baseToken priceResult;
                         baseTokenSymbol := pfp_baseTokenSymbol priceResult;
                         fee := None |} ]
                | None => []
                end
              else []
            else []
        end
    | None => []
    end.

(** [mapMoralisDexId] *)
Definition mapMoralisDexId (exchangeName : option string) : string :=
  match exchangeName with
  | None => "unknown"
  | Some exchangeName =>
      if decide (exchangeName = EmptyString) then "unknown" else
      let normalizedName := JS.toLowerCase exchangeName in
      if JS.includes normalizedName "uniswap" && JS.includes normalizedName "v3"
      then "uniswap_v3"
      else if JS.includes normalizedName "uniswap" && JS.includes normalizedName "v2"
      then "uniswap_v2"
      else if JS.includes normalizedName "sushiswap"
      then "sushiswap"
      else if JS.includes normalizedName "pancakeswap" && JS.includes normalizedName "v3"
      then "pancakeswap_v3"
      else if JS.includes normalizedName "pancakeswap" && JS.includes normalizedName "v2"
      then "pancakeswap_v2"
      else JS.replace_spaces false normalizedName
  end.

(** The outcome of the request to the pool index, per token address. *)
Variable fetch : string -> FetchOutcome.

(** The body of [for (const pair of allPairs)] in
    [queryMoralisForPools]; [pairsByDex] is a [Map] in insertion order. *)
Definition keepBestPerDex (pairsByDex : list (string * MoralisPair))
    (pair : MoralisPair) : list (string * MoralisPair) :=
  match exchange_name pair with
  | None => pairsByDex
  | Some name =>
      if decide (name = EmptyString) then pairsByDex else
      let dexName := JS.toLowerCase name in
      let existingPair := JS.assoc_get dexName pairsByDex in
      if JS.Number_lt (liquidity_usd pair) 1000 then pairsByDex else
      match existingPair with
      | None => JS.assoc_set dexName pair pairsByDex
      | Some existingPair =>
          if JS.Number_gt (liquidity_usd pair) (liquidity_usd existingPair)
          then JS.assoc_set dexName pair pairsByDex
          else pairsByDex
      end
  end.

(** [queryMoralisForPools]: a response that is not [ok] and every thrown
    error give the empty array. *)
Definition queryMoralisForPools (tokenAddress : string) : list MoralisPair :=
  match fetch tokenAddress with
  | FetchThrows => []
  | FetchResponse ok body =>
      if negb ok then [] else
      match body with
      | None => []
      | Some data =>
          let allPairs := default [] (pairs data) in
          (foldl keepBestPerDex [] allPairs).*2
      end
  end.

(** [deduplicateAndSort] *)
Definition dedupStep (acc : list PoolResult) (current : PoolResult)
  : list PoolResult :=
  let samePool r := bool_decide (poolAddress r = poolAddress current) in
  match JS.find samePool acc with
  | None => acc ++ [current]
  | Some existing =>
      if JS.Number_gt (parseFloat (liquidity current))
                      (parseFloat (liquidity existing))
      then JS.replace_first samePool current acc
      else acc
  end.

Definition isWETH (r : PoolResult) : bool :=
  bool_decide (baseTokenSymbol r = "WETH").

Definition compareResults (a b : PoolResult) : Q :=
  let aIsWETH := isWETH a in
  let bIsWETH := isWETH b in
  if aIsWETH && negb bIsWETH then (-1)%Q
  else if negb aIsWETH && bIsWETH then 1%Q
  else (parseFloat (liquidity b) - parseFloat (liquidity a))%Q.

Definition deduplicateAndSort (allResults : list PoolResult)
  : list PoolResult :=
  let uniqueResults := foldl dedupStep [] allResults in
  JS.Array_sort compareResults
    (filter (fun r => priceInWei r <> "0") uniqueResults).

(** [getMoralisPools] *)
Definition isSupported (pool : MoralisPair) : bool :=
  match exchange_name pool with
  | None => false
  | Some name =>
      if decide (name = EmptyString) then false else
      let exchangeName := JS.toLowerCase name in
      (JS.includes exchangeName "uniswap" && JS.includes exchangeName "v3")
      || (JS.includes exchangeName "uniswap" && JS.includes exchangeName "v2")
      || JS.includes exchangeName "sushiswap"
      || (JS.includes exchangeName "pancakeswap" && JS.includes exchangeName "v3")
      || (JS.includes exchangeName "pancakeswap" && JS.includes exchangeName "v2")
  end.

(** The body of [for (const pool of supportedPools.slice(0, 10))]; the
    state is [processedPools] and [allResults]. *)
Definition processPool (tokenAddress : string)
    (st : gset string * list PoolResult) (pool : MoralisPair)
  : gset string * list PoolResult :=
  let '(processedPools, allResults) := st in
  let poolKey := pair_address pool in
  if decide (poolKey ∈ processedPools) then st else
  let processedPools := processedPools ∪ {[ poolKey ]} in
  let token0 := JS.find (fun t => bool_decide (pair_token_type t = TOKEN0)) (pair pool) in
  let token1 := JS.find (fun t => bool_decide (pair_token_type t = TOKEN1)) (pair pool) in
  match token0, token1 with
  | Some token0, Some token1 =>
      let isTargetBaseToken :=
        bool_decide (JS.toLowerCase (token_address token0)
                     = JS.toLowerCase tokenAddress) in
      let otherTokenAddress :=
        if isTargetBaseToken then token_address token1
        else token_address token0 in
      let otherTokenSymbol :=
        if isTargetBaseToken then token_symbol token1
        else token_symbol token0 in
      match getTokenPriceFromPool tokenAddress (pair_address pool) with
      | Some priceResult =>
          let liquidityText := Number_toString (liquidity_usd pool) in
          (processedPools,
           allResults ++
           [ {| dex := mapMoralisDexId (exchange_name pool);
                poolAddress := pair_address pool;
                liquidity := if decide (liquidityText = EmptyString) then "0"
                             else liquidityText;
                priceInWei := pfp_priceInWei priceResult;
                baseToken := otherTokenAddress;
                baseTokenSymbol := otherTokenSymbol;
                fee := None |} ])
      | None => (processedPools, allResults)
      end
  | _, _ => (processedPools, allResults)
  end.

Definition getMoralisPools (tokenAddress : string) : list PoolResult :=
  let allPools := queryMoralisForPools tokenAddress in
  if decide (length allPools = 0%nat) then [] else
  let supportedPools := List.filter isSupported allPools in
  let '(_, allResults) :=
    foldl (processPool tokenAddress) (∅, []) (take 10 supportedPools) in
  deduplicateAndSort allResults.

(** [getDirectDexPools] *)
Definition baseTokens : list (string * string) :=
  [ (WETH_ADDRESS, "WETH");
    ("0xA0b86991c6218b36c1d19D4a2e9Eb0cE3606eB48", "USDC");
    ("0x6B175474E89094C44Da98b954EedeAC495271d0F", "DAI");
    ("0xdAC17F958D2ee523a2206206994597C13D831ec7", "USDT") ].

Definition dexesToTry : list string := ["uniswap_v3"; "uniswap_v2"; "sushiswap"].

Definition getDirectDexPools (tokenAddress : string) : list PoolResult :=
  let allResults :=
    dexName ← dexesToTry;
    baseToken ← baseTokens;
    getDexPrices tokenAddress baseToken.1 dexName in
  deduplicateAndSort allResults.

(** [getAllAvailablePrices]: the index first; direct discovery when the
    index gave nothing (an error thrown by [getMoralisPools] leaves
    [allResults] empty as well). *)
Definition getAllAvailablePrices (tokenAddress : string) : list PoolResult :=
  let allResults := getMoralisPools tokenAddress in
  if decide (length allResults = 0%nat) then getDirectDexPools tokenAddress
  else allResults.

(** [getTokenPriceWithBestLiquidity]: the callback of both [reduce] calls,
    then the function. *)
Definition moreLiquid (best current : PoolResult) : PoolResult :=
  if JS.Number_gt (parseFloat (liquidity current)) (parseFloat (liquidity best))
  then current else best.

Definition prioritizedDexes : list string :=
  ["uniswap_v3"; "uniswap_v2"; "sushiswap"].

Definition getTokenPriceWithBestLiquidity (tokenA tokenB : string)
  : option PoolResult :=
  let allPrices :=
    dexName ← prioritizedDexes;
    let prices := getDexPrices tokenA tokenB dexName in
    if decide (0 < length prices)%nat then
      match JS.reduce moreLiquid prices with
      | Some bestFromDex => [bestFromDex]
      | None => []
      end
    else [] in
  if decide (length allPrices = 0%nat) then None
  else JS.reduce moreLiquid allPrices.

(** [getAbsoluteBestPrice] *)
Definition getAbsoluteBestPrice (tokenAddress : string) : option PoolResult :=
  let allPrices := getAllAvailablePrices tokenAddress in
  if decide (0 < length allPrices)%nat then allPrices !! 0%nat else None.

(** [getTokenPriceInETHWei] *)
Definition hasWETH (pool : MoralisPair) : bool :=
  existsb (fun token =>
             bool_decide (JS.toLowerCase (token_address token)
                          = JS.toLowerCase WETH_ADDRESS))
          (pair pool).

Definition moreLiquidPair (best current : MoralisPair) : MoralisPair :=
  if JS.Number_gt (liquidity_usd current) (liquidity_usd best)
  then current else best.

Definition getTokenPriceInETHWei (tokenAddress : string) : option PoolResult :=
  if decide (JS.toLowerCase tokenAddress = JS.toLowerCase WETH_ADDRESS) then
    Some {| dex := "native";
            poolAddress := WETH_ADDRESS;
            liquidity := "0";
            priceInWei := "1000000000000000000";
            baseToken := WETH_ADDRESS;
            baseTokenSymbol := "WETH";
            fee := Some 0 |}
  else
    match getTokenPriceWithBestLiquidity tokenAddress WETH_ADDRESS with
    | Some wethPriceResult => Some wethPriceResult
    | None =>
        let allPools := queryMoralisForPools tokenAddress in
        let wethPools := List.filter hasWETH allPools in
        if decide (length wethPools = 0%nat) then None else
        bestWethPool ← JS.reduce moreLiquidPair wethPools;
        match getTokenPriceFromPool tokenAddress (pair_address bestWethPool) with
        | Some priceResult =>
            if decide (pfp_baseTokenSymbol priceResult = "WETH") then
              Some {| dex := mapMoralisDexId (exchange_name bestWethPool);
                      poolAddress := pair_address bestWethPool;
                      liquidity := Number_toString (liquidity_usd bestWethPool);
                      priceInWei := pfp_priceInWei priceResult;
                      baseToken := WETH_ADDRESS;
                      baseTokenSymbol := "WETH";
                      fee := None |}
            else None
        | None => None
        end
    end.

End Service.

End PriceUtils.

(** ** The pricing Durable Object *)

Module PricingDurableObject.

Module DexPriceInfo.
Record t := mk {
  priceInWei : string;
  poolAddress : string;
  liquidity : string;
  fee : option Z;          (* None: undefined *)
  error : option string;   (* None: the property is absent *)
  lastUpdate : Z
}.
End DexPriceInfo.

Record TokenInfo := {
  symbol : string;
  address : string;
  decimals : Z;
  name : option string;
  dexPrices : list (string * DexPriceInfo.t);
  lastUpdate : Z;
  initialized : bool
}.

Inductive ReadyState := CONNECTING | OPEN | CLOSING | CLOSED.

(** The outbound channel of a session: its state, and whether [send]
    throws on it. *)
Record WebSocket := {
  readyState : ReadyState;
  sendThrows : bool
}.

Record ClientSession := {
  id : string;
  webSocket : WebSocket;
  subscribedTokens : gset string;
  lastActivity : Z
}.

Inductive MessageType := tokens | ping | pong | error | subscribe | unsubscribe.

Record WebSocketMessage := {
  type : MessageType;
  data : list TokenInfo;
  timestamp : Z
}.

(** The mutable fields of the object. *)
Record State := {
  sessions : gmap string ClientSession;
  tokenRegistry : gmap string TokenInfo;
  tokenSubscribers : gmap string (gset string)
}.

(** What awaiting [priceService.getAllAvailablePrices(tokenAddress)] gives. *)
Inductive Settled :=
| Fulfilled (dexPrices : list PriceUtils.PoolResult)
| Rejected (reason : string).

Definition PriceService := string -> Settled.

Global Instance ReadyState_eq_dec : EqDecision ReadyState.
Proof. solve_decision. Defined.

Definition FEATURED_TOKENS : list (string * TokenInfo) :=
  [ ("0xC02aaA39b223FE8D0A0e5C4F27eAD9083C756Cc2",
     {| symbol := "WETH";
        address := "0xC02aaA39b223FE8D0A0e5C4F27eAD9083C756Cc2";
        decimals := 18;
        name := Some "Wrapped Ether";
        dexPrices := [];
        lastUpdate := 0;
        initialized := false |});
    ("0x2260FAC5E5542a773Aa44fBCfeDf7C193bc2C599",
     {| symbol := "WBTC";
        address := "0x2260FAC5E5542a773Aa44fBCfeDf7C193bc2C599";
        decimals := 8;
        name := Some "Wrapped BTC";
        dexPrices := [];
        lastUpdate := 0;
        initialized := false |});
    ("0x1f9840a85d5aF5bf1D1762F925BDADdC4201F984",
     {| symbol := "UNI";
        address := "0x1f9840a85d5aF5bf1D1762F925BDADdC4201F984";
        decimals := 18;
        name := Some "Uniswap";
        dexPrices := [];
        lastUpdate := 0;
        initialized := false |}) ].

(** The field initialisers and [initializeTokenSubscribers], for the first
    instance created from the module: [new Map(FEATURED_TOKENS)] copies the
    map but shares its three records with the module-level constant. *)
Definition initialState : State :=
  {| sessions := ∅;
     tokenRegistry := list_to_map FEATURED_TOKENS;
     tokenSubscribers := list_to_map ((fun kv => (kv.1, ∅)) <$> FEATURED_TOKENS) |}.

(** [JSON.stringify] of a [dexPrices] object, kept as the JSON value it
    prints (two printed texts are equal exactly when the values are): the
    keys in insertion order, each entry with its properties in the order of
    the object literal, a property whose value is [undefined] left out. *)
Inductive JsonValue :=
| JsonString (s : string)
| JsonNumber (n : Z).

Global Instance JsonValue_eq_dec : EqDecision JsonValue.
Proof. solve_decision. Defined.

Definition optionalProperty (key : string) (v : option JsonValue)
  : list (string * JsonValue) :=
  match v with
  | Some v => [(key, v)]
  | None => []
  end.

Definition DexPriceInfo_toJSON (d : DexPriceInfo.t) : list (string * JsonValue) :=
  [ ("priceInWei", JsonString (DexPriceInfo.priceInWei d));
    ("poolAddress", JsonString (DexPriceInfo.poolAddress d));
    ("liquidity", JsonString (DexPriceInfo.liquidity d)) ]
  ++ optionalProperty "fee" (JsonNumber <$> DexPriceInfo.fee d)
  ++ optionalProperty "error" (JsonString <$> DexPriceInfo.error d)
  ++ [ ("lastUpdate", JsonNumber (DexPriceInfo.lastUpdate d)) ].

Definition JSON_stringify (dexPrices : list (string * DexPriceInfo.t))
  : list (string * list (string * JsonValue)) :=
  (fun kv => (kv.1, DexPriceInfo_toJSON kv.2)) <$> dexPrices.

(** The first statements of [handleWebSocket]: a new session under the
    generated identifier. *)
Definition openSession (clientId : string) (webSocket : WebSocket) (now : Z)
    (st : State) : State :=
  {| sessions :=
       <[clientId := {| id := clientId;
                        webSocket := webSocket;
                        subscribedTokens := ∅;
                        lastActivity := now |}]> (sessions st);
     tokenRegistry := tokenRegistry st;
     tokenSubscribers := tokenSubscribers st |}.

Definition subscribeClientToToken (clientId tokenAddress : string)
    (st : State) : State :=
  match sessions st !! clientId with
  | None => st
  | Some session =>
      let session :=
        {| id := id session;
           webSocket := webSocket session;
           subscribedTokens := subscribedTokens session ∪ {[ tokenAddress ]};
           lastActivity := lastActivity session |} in
      let tokenSubscribers1 :=
        match tokenSubscribers st !! tokenAddress with
        | None => <[tokenAddress := ∅]> (tokenSubscribers st)
        | Some _ => tokenSubscribers st
        end in
      let tokenSubscribers2 :=
        <[tokenAddress :=
            default ∅ (tokenSubscribers1 !! tokenAddress) ∪ {[ clientId ]}]>
          tokenSubscribers1 in
      let tokenRegistry :=
        match tokenRegistry st !! tokenAddress with
        | None =>
            <[tokenAddress := {| symbol := "UNKNOWN";
                                 address := tokenAddress;
                                 decimals := 18;
                                 name := Some "Unknown Token";
                                 dexPrices := [];
                                 lastUpdate := 0;
                                 initialized := false |}]> (tokenRegistry st)
        | Some _ => tokenRegistry st
        end in
      {| sessions := <[clientId := session]> (sessions st);
         tokenRegistry := tokenRegistry;
         tokenSubscribers := tokenSubscribers2 |}
  end.

Definition unsubscribeClientFromToken (clientId tokenAddress : string)
    (st : State) : State :=
  match sessions st !! clientId with
  | None => st
  | Some session =>
      let session :=
        {| id := id session;
           webSocket := webSocket session;
           subscribedTokens := subscribedTokens session ∖ {[ tokenAddress ]};
           lastActivity := lastActivity session |} in
      let tokenSubscribers :=
        match tokenSubscribers st !! tokenAddress with
        | Some subscribers =>
            let subscribers := subscribers ∖ {[ clientId ]} in
            if decide (size subscribers = 0%nat)
            then delete tokenAddress (tokenSubscribers st)
            else <[tokenAddress := subscribers]> (tokenSubscribers st)
        | None => tokenSubscribers st
        end in
      {| sessions := <[clientId := session]> (sessions st);
         tokenRegistry := tokenRegistry st;
         tokenSubscribers := tokenSubscribers |}
  end.

(** [removeClient]: the loop runs over the session's own set, from which
    each step deletes the element just visited; every element is visited. *)
Definition removeClient (clientId : string) (st : State) : State :=
  match sessions st !! clientId with
  | None => st
  | Some session =>
      let st :=
        foldl (fun st tokenAddress =>
                 unsubscribeClientFromToken clientId tokenAddress st)
              st (elements (subscribedTokens session)) in
      {| sessions := delete clientId (sessions st);
         tokenRegistry := tokenRegistry st;
         tokenSubscribers := tokenSubscribers st |}
  end.

(** The loop [for (const dexPrice of dexPrices)] of
    [updateSingleTokenPrice], from the cleared object. *)
Definition populatePrices (now : Z) (dexPrices : list PriceUtils.PoolResult)
  : list (string * DexPriceInfo.t) :=
  foldl (fun acc dexPrice =>
           JS.assoc_set (PriceUtils.dex dexPrice)
             {| DexPriceInfo.priceInWei := PriceUtils.priceInWei dexPrice;
                DexPriceInfo.poolAddress := PriceUtils.poolAddress dexPrice;
                DexPriceInfo.liquidity := PriceUtils.liquidity dexPrice;
                DexPriceInfo.fee := PriceUtils.fee dexPrice;
                DexPriceInfo.error := None;
                DexPriceInfo.lastUpdate := now |}
             acc)
        [] dexPrices.

Definition errorPrices (now : Z) (reason : string)
  : list (string * DexPriceInfo.t) :=
  [ ("error",
     {| DexPriceInfo.priceInWei := "0";
        DexPriceInfo.poolAddress := EmptyString;
        DexPriceInfo.liquidity := "0";
        DexPriceInfo.fee := None;
        DexPriceInfo.error := Some ("Failed to fetch prices: " +:+ reason);
        DexPriceInfo.lastUpdate := now |}) ].

Definition setToken (tokenAddress : string) (tokenInfo : TokenInfo)
    (st : State) : State :=
  {| sessions := sessions st;
     tokenRegistry := <[tokenAddress := tokenInfo]> (tokenRegistry st);
     tokenSubscribers := tokenSubscribers st |}.

(** [updateSingleTokenPrice]; [now] is [Date.now()] when the awaited call
    settles.  The result is the new state and the returned boolean. *)
Definition updateSingleTokenPrice (priceService : option PriceService)
    (now : Z) (tokenAddress : string) (st : State) : State * bool :=
  match priceService with
  | None => (st, false)
  | Some priceService =>
      match tokenRegistry st !! tokenAddress with
      | None => (st, false)
      | Some tokenInfo =>
          match priceService tokenAddress with
          | Fulfilled newPrices =>
              let oldPricesJson := JSON_stringify (dexPrices tokenInfo) in
              let wasInitialized := initialized tokenInfo in
              let tokenInfo :=
                {| symbol := symbol tokenInfo;
                   address := address tokenInfo;
                   decimals := decimals tokenInfo;
                   name := name tokenInfo;
                   dexPrices := populatePrices now newPrices;
                   lastUpdate := now;
                   initialized := true |} in
              let st := setToken tokenAddress tokenInfo st in
              if wasInitialized then
                let newPricesJson := JSON_stringify (dexPrices tokenInfo) in
                let pricesChanged :=
                  bool_decide (oldPricesJson <> newPricesJson) in
                if pricesChanged then (st, true) else (st, false)
              else (st, false)
          | Rejected reason =>
              let tokenInfo :=
                {| symbol := symbol tokenInfo;
                   address := address tokenInfo;
                   decimals := decimals tokenInfo;
                   name := name tokenInfo;
                   dexPrices :=
                     if decide (length (dexPrices tokenInfo) = 0%nat)
                     then errorPrices now reason
                     else dexPrices tokenInfo;
                   lastUpdate := now;
                   initialized := true |} in
              (setToken tokenAddress tokenInfo st, false)
          end
      end
  end.

(** [Array.from(this.tokenSubscribers.keys())] *)
Definition activeTokens (st : State) : list string :=
  elements (dom (tokenSubscribers st)).

(** The updates started by [updateAllActivePrices] and joined by
    [Promise.allSettled]: each runs its state change in one piece when its
    request settles, on a record of its own.  [now] gives that instant per
    token.  The result pairs each token with its returned boolean. *)
Definition settleAll (priceService : option PriceService)
    (now : string -> Z) (tokenAddresses : list string) (st : State)
  : State * list (string * bool) :=
  foldl (fun '(st, results) tokenAddress =>
           let '(st, changed) :=
             updateSingleTokenPrice priceService (now tokenAddress)
               tokenAddress st in
           (st, results ++ [(tokenAddress, changed)]))
        (st, []) tokenAddresses.

(** The tokens a session's payload lists:
    [Array.from(session.subscribedTokens).map(...).filter(...)]. *)
Definition subscribedTokenData (st : State) (session : ClientSession)
  : list TokenInfo :=
  omap (fun addr => tokenRegistry st !! addr)
       (elements (subscribedTokens session)).

(** [notifyAllClients]: the state and the messages sent so far, with the
    client each one went to. *)
Definition allClientIds (st : State) : gset string :=
  ⋃ ((map_to_list (tokenSubscribers st)).*2).

Definition notifyClient (now : Z)
    (acc : State * list (string * WebSocketMessage)) (clientId : string)
  : State * list (string * WebSocketMessage) :=
  let '(st, sent) := acc in
  match sessions st !! clientId with
  | Some session =>
      if decide (readyState (webSocket session) = OPEN) then
        let allSubscribedTokens := subscribedTokenData st session in
        let message :=
          {| type := tokens; data := allSubscribedTokens; timestamp := now |} in
        if sendThrows (webSocket session)
        then (removeClient clientId st, sent)
        else (st, sent ++ [(clientId, message)])
      else acc
  | None => acc
  end.

Definition notifyAllClients (now : Z) (st : State)
  : State * list (string * WebSocketMessage) :=
  foldl (notifyClient now) (st, []) (elements (allClientIds st)).

(** [updateAllActivePricesSilent]: the same updates, without notification. *)
Definition updateAllActivePricesSilent (priceService : option PriceService)
    (now : string -> Z) (st : State) : State :=
  (settleAll priceService now (activeTokens st) st).1.

(** [updateAllActivePrices] *)
Definition updateAllActivePrices (priceService : option PriceService)
    (now : string -> Z) (notifyTime : Z) (st : State)
  : State * list (string * bool) * list (string * WebSocketMessage) :=
  let '(st, results) := settleAll priceService now (activeTokens st) st in
  let hasChanges := existsb (fun result => result.2) results in
  if hasChanges then
    let '(st, sent) := notifyAllClients notifyTime st in
    (st, results, sent)
  else (st, results, []).

(** [parseSubscriptionFromHeaders]; [subscriptionHeader] is what
    [headers.get('X-Token-Subscription')] returns, [None] for [null].  The
    keys of the registry come in the order of its model. *)
Definition parseSubscriptionFromHeaders (subscriptionHeader : option string)
    (st : State) : list string :=
  match subscriptionHeader with
  | Some subscriptionHeader =>
      if decide (subscriptionHeader <> EmptyString) then
        if decide (JS.toLowerCase subscriptionHeader = "featured")
        then FEATURED_TOKENS.*1
        else if decide (JS.toLowerCase subscriptionHeader = "all")
        then elements (dom (tokenRegistry st))
        else JS.trim <$> JS.split ","%char subscriptionHeader
      else FEATURED_TOKENS.*1
  | None => FEATURED_TOKENS.*1
  end.

(** An element of a [tokenAddresses] array: a string, or a value of another
    type. *)
Inductive JsonElement :=
| JsonText (s : string)
| JsonOther.

(** The messages the object writes to a socket in [handleWebSocket]. *)
Module Reply.
Record t := mk {
  type : MessageType;
  data : option (list TokenInfo);
  message : option string;
  tokenAddresses : option (list JsonElement);
  timestamp : Z;
  clientId : string;
  isWelcome : bool
}.
End Reply.

(** The [type] property of a parsed message: a string, or another value
    with the text a template literal prints for it. *)
Inductive TypeField :=
| TypeString (s : string)
| TypeOther (printed : string).

Global Instance TypeField_eq_dec : EqDecision TypeField.
Proof. solve_decision. Defined.

(** What [JSON.parse] returns: [null], on which reading a property throws,
    or a value with its [type] property and its [tokenAddresses] property,
    [Some] when that is an array. *)
Inductive ParsedMessage :=
| ParsedNull
| ParsedValue (type : TypeField) (tokenAddresses : option (list JsonElement)).

(** The [data] of a message event: text that [JSON.parse] rejects, or a
    parsed value. *)
Inductive MessageEvent :=
| Unparsable
| Parsed (message : ParsedMessage).

(** [session.lastActivity = Date.now()] on the session object of the
    handler, which is the one in [sessions] as long as the client is
    registered. *)
Definition touch (clientId : string) (now : Z) (st : State) : State :=
  match sessions st !! clientId with
  | Some session =>
      {| sessions :=
           <[clientId := {| id := id session;
                            webSocket := webSocket session;
                            subscribedTokens := subscribedTokens session;
                            lastActivity := now |}]> (sessions st);
         tokenRegistry := tokenRegistry st;
         tokenSubscribers := tokenSubscribers st |}
  | None => st
  end.

(** [Array.from(session.subscribedTokens).map(...).filter(...)] on the
    session object of the handler; [removeClient] has emptied the set of a
    session that is no longer registered. *)
Definition ownTokenData (clientId : string) (st : State) : list TokenInfo :=
  match sessions st !! clientId with
  | Some session => subscribedTokenData st session
  | None => []
  end.

(** [typeof tokenAddress === 'string' && tokenAddress.length > 0] *)
Definition validAddress (tokenAddress : JsonElement) : option string :=
  match tokenAddress with
  | JsonText s => if decide (0 < String.length s)%nat then Some s else None
  | JsonOther => None
  end.

Definition subscribeEach (clientId : string) (tokenAddresses : list JsonElement)
    (st : State) : State :=
  foldl (fun st tokenAddress =>
           match validAddress tokenAddress with
           | Some tokenAddress => subscribeClientToToken clientId tokenAddress st
           | None => st
           end)
        st tokenAddresses.

Definition unsubscribeEach (clientId : string)
    (tokenAddresses : list JsonElement) (st : State) : State :=
  foldl (fun st tokenAddress =>
           match validAddress tokenAddress with
           | Some tokenAddress =>
               unsubscribeClientFromToken clientId tokenAddress st
           | None => st
           end)
        st tokenAddresses.

(** [webSocket.send(JSON.stringify(message))] as the last statement of a
    branch: the state, what has been sent, and whether the branch completed
    without throwing. *)
Definition send (webSocket : WebSocket) (st : State) (sent : list Reply.t)
    (message : Reply.t) : State * list Reply.t * bool :=
  if sendThrows webSocket then (st, sent, false)
  else (st, sent ++ [message], true).

Definition notice (type : MessageType) (message : string) (now : Z)
    (clientId : string) : Reply.t :=
  {| Reply.type := type; Reply.data := None; Reply.message := Some message;
     Reply.tokenAddresses := None; Reply.timestamp := now;
     Reply.clientId := clientId; Reply.isWelcome := false |}.

Definition tokensReply (data : list TokenInfo) (now : Z) (clientId : string)
    (isWelcome : bool) : Reply.t :=
  {| Reply.type := tokens; Reply.data := Some data; Reply.message := None;
     Reply.tokenAddresses := None; Reply.timestamp := now;
     Reply.clientId := clientId; Reply.isWelcome := isWelcome |}.

Definition acknowledgement (type : MessageType) (message : string)
    (tokenAddresses : list JsonElement) (now : Z) (clientId : string)
  : Reply.t :=
  {| Reply.type := type; Reply.data := None; Reply.message := Some message;
     Reply.tokenAddresses := Some tokenAddresses; Reply.timestamp := now;
     Reply.clientId := clientId; Reply.isWelcome := false |}.

(** The text of [${message.tokenAddresses.length}]. *)
Definition lengthText (tokenAddresses : list JsonElement) : string :=
  JS.BigInt_toString (Z.of_nat (length tokenAddresses)).

(** The [try] block of the message listener.  [now] is the instant the
    event is handled at, [later] the instant after the awaited refresh, whose
    own instants [nowFor] gives; the awaited refresh runs in one piece, as
    in [settleAll]. *)
Definition messageListenerBody (priceService : option PriceService)
    (now : Z) (nowFor : string -> Z) (later : Z)
    (clientId : string) (webSocket : WebSocket)
    (event : MessageEvent) (st : State) : State * list Reply.t * bool :=
  match event with
  | Unparsable => (st, [], false)
  | Parsed message =>
      let st := touch clientId now st in
      match message with
      | ParsedNull => (st, [], false)
      | ParsedValue type tokenAddresses =>
          if decide (type = TypeString "ping") then
            send webSocket st []
              {| Reply.type := pong; Reply.data := None;
                 Reply.message := None; Reply.tokenAddresses := None;
                 Reply.timestamp := now; Reply.clientId := clientId;
                 Reply.isWelcome := false |}
          else if decide (type = TypeString "subscribe") then
            match tokenAddresses with
            | Some tokenAddresses =>
                let st := subscribeEach clientId tokenAddresses st in
                if sendThrows webSocket then (st, [], false)
                else
                  let sent :=
                    [ acknowledgement subscribe
                        ("Subscribed to " +:+ lengthText tokenAddresses
                           +:+ " tokens")
                        tokenAddresses now clientId ] in
                  let st := updateAllActivePricesSilent priceService nowFor st in
                  send webSocket st sent
                    (tokensReply (ownTokenData clientId st) later clientId false)
            | None =>
                send webSocket st []
                  (notice error
                     "Invalid subscribe message: tokenAddresses must be a non-empty array"
                     now clientId)
            end
          else if decide (type = TypeString "unsubscribe") then
            match tokenAddresses with
            | Some tokenAddresses =>
                let st := unsubscribeEach clientId tokenAddresses st in
                send webSocket st []
                  (acknowledgement unsubscribe
                     ("Unsubscribed from " +:+ lengthText tokenAddresses
                        +:+ " tokens")
                     tokenAddresses now clientId)
            | None =>
                send webSocket st []
                  (notice error
                     "Invalid unsubscribe message: tokenAddresses must be a non-empty array"
                     now clientId)
            end
          else if decide (type = TypeString "tokens") then
            send webSocket st []
              (tokensReply (ownTokenData clientId st) now clientId false)
          else
            send webSocket st []
              (notice error
                 ("Unknown message type: "
                    +:+ match type with
                        | TypeString s => s
                        | TypeOther printed => printed
                        end)
                 now clientId)
      end
  end.

(** The message listener: the [try] block and its [catch]. *)
Definition messageListener (priceService : option PriceService)
    (now : Z) (nowFor : string -> Z) (later : Z)
    (clientId : string) (webSocket : WebSocket)
    (event : MessageEvent) (st : State) : State * list Reply.t :=
  let '(st, sent, completed) :=
    messageListenerBody priceService now nowFor later clientId webSocket
      event st in
  if completed then (st, sent)
  else if sendThrows webSocket then (removeClient clientId st, sent)
  else (st, sent ++ [notice error "Failed to parse WebSocket message"
                       now clientId]).

(** [handleWebSocket] up to the registration of the listeners: the state,
    what was sent, and whether the listeners were registered, which they are
    not when sending the welcome throws.  [clientId] is the identifier that
    [generateClientId] returned. *)
Definition handleWebSocket (priceService : option PriceService)
    (now : Z) (nowFor : string -> Z) (later : Z)
    (clientId : string) (webSocket : WebSocket)
    (subscriptionHeader : option string) (st : State)
  : State * list Reply.t * bool :=
  let st := openSession clientId webSocket now st in
  let initialTokens := parseSubscriptionFromHeaders subscriptionHeader st in
  let st :=
    foldl (fun st tokenAddress => subscribeClientToToken clientId tokenAddress st)
          st initialTokens in
  let st := updateAllActivePricesSilent priceService nowFor st in
  send webSocket st []
    (tokensReply (ownTokenData clientId st) later clientId true).
End PricingDurableObject.

(** ** Vocabulary for statements about a pool *)

Module PoolState.

Import PriceUtils.

(** The six metadata reads of one attempt of [getTokenPriceFromPool] all
    succeed, with these answers. *)
Definition poolMetadata (chain : Chain) (poolAddress token0 token1 : string)
    (decimal0 decimal1 : Z) (symbol0 symbol1 : string) : Prop :=
  pool_token0 chain poolAddress = Some token0
  /\ pool_token1 chain poolAddress = Some token1
  /\ erc20_decimals chain token0 = Some decimal0
  /\ erc20_decimals chain token1 = Some decimal1
  /\ erc20_symbol chain token0 = Some symbol0
  /\ erc20_symbol chain token1 = Some symbol1.

(** The chain with another answer to [liquidity()]. *)
Definition withLiquidity (f : string -> option Z) (chain : Chain) : Chain :=
  {| pool_token0 := pool_token0 chain;
     pool_token1 := pool_token1 chain;
     erc20_decimals := erc20_decimals chain;
     erc20_symbol := erc20_symbol chain;
     pool_slot0_sqrtPriceX96 := pool_slot0_sqrtPriceX96 chain;
     pool_liquidity := f;
     pool_getReserves := pool_getReserves chain;
     factory_getPool := factory_getPool chain;
     factory_getPair := factory_getPair chain |}.

(** The venue identifiers, which are the keys of a token's [dexPrices]. *)
Definition venueIds : list string :=
  ["uniswap_v3"; "uniswap_v2"; "sushiswap"; "pancakeswap_v3"; "pancakeswap_v2"].

(** The pairs a reply of the pool index carries; none when the request
    failed. *)
Definition responsePairs (outcome : FetchOutcome) : list MoralisPair :=
  match outcome with
  | FetchResponse true (Some data) => default [] (pairs data)
  | _ => []
  end.

(** The venue key under which [queryMoralisForPools] files a pair. *)
Definition venueKey (pool : MoralisPair) : option string :=
  match exchange_name pool with
  | Some name => if decide (name = EmptyString) then None
                 else Some (JS.toLowerCase name)
  | None => None
  end.

(** What [allResults] of [getMoralisPools] holds: one entry at most per pool
    processed, each without fee tier and priced by the resolver on the pool's
    address. *)
Definition indexedEntry (chain : Chain) (tokenAddress : string)
    (pools : list MoralisPair) (r : PoolResult) : Prop :=
  fee r = None
  /\ exists pool priceResult,
      pool ∈ pools
      /\ poolAddress r = pair_address pool
      /\ dex r = mapMoralisDexId (exchange_name pool)
      /\ getTokenPriceFromPool chain tokenAddress (pair_address pool)
         = Some priceResult
      /\ priceInWei r = pfp_priceInWei priceResult.

(** The shape of an entry [getDexPrices] builds for a pool it found. *)
Definition discoveredEntry (BigInt_Math_sqrt : Z -> option Z) (chain : Chain)
    (tokenA dexName : string) (isV3 : bool) (r : PoolResult) : Prop :=
  dex r = dexName
  /\ poolAddress r <> ZeroAddress
  /\ 0 < getPoolLiquidity BigInt_Math_sqrt chain (poolAddress r) isV3
  /\ liquidity r
     = JS.BigInt_toString
         (getPoolLiquidity BigInt_Math_sqrt chain (poolAddress r) isV3)
  /\ exists priceResult,
      getTokenPriceFromPool chain tokenA (poolAddress r) = Some priceResult
      /\ priceInWei r = pfp_priceInWei priceResult
      /\ baseToken r = pfp_baseToken priceResult
      /\ baseTokenSymbol r = pfp_baseTokenSymbol priceResult.

(** The rate a result carries, as an integer. *)
Definition hasRate (result : option PriceFromPool) (rate : Z) : Prop :=
  pfp_priceInWei <$> result = Some (JS.BigInt_toString rate).

End PoolState.

(** ** Vocabulary for statements about the engine *)

Module Registry.

Import PricingDurableObject.

(** The two maps of the registry agree: a token is in a session's set
    exactly when the session is in the token's set of subscribers. *)
Definition consistent (st : State) : Prop :=
  forall clientId tokenAddress : string,
    (exists session, sessions st !! clientId = Some session
                     /\ tokenAddress ∈ subscribedTokens session)
    <-> (exists subscribers, tokenSubscribers st !! tokenAddress = Some subscribers
                             /\ clientId ∈ subscribers).

(** The states the object can be in: the connections it accepts (under an
    identifier that no live session has), the subscription messages it
    handles, the sessions it drops and the refresh passes it runs. *)
Inductive reachable : State -> Prop :=
| reachable_initial :
    reachable initialState
| reachable_open clientId webSocket now st :
    reachable st -> sessions st !! clientId = None ->
    reachable (openSession clientId webSocket now st)
| reachable_subscribe clientId tokenAddress st :
    reachable st -> reachable (subscribeClientToToken clientId tokenAddress st)
| reachable_unsubscribe clientId tokenAddress st :
    reachable st -> reachable (unsubscribeClientFromToken clientId tokenAddress st)
| reachable_remove clientId st :
    reachable st -> reachable (removeClient clientId st)
| reachable_refresh_silent priceService now st :
    reachable st ->
    reachable (updateAllActivePricesSilent priceService now st)
| reachable_refresh priceService now notifyTime st :
    reachable st ->
    reachable (updateAllActivePrices priceService now notifyTime st).1.1.

(** The prices of a per-venue map without the instants they were written
    at: venue, rate, pool address, liquidity and fee. *)
Definition priceSet (dexPrices : list (string * DexPriceInfo.t))
  : list (string * (string * string * string * option Z)) :=
  (fun kv => (kv.1, (DexPriceInfo.priceInWei kv.2,
                     DexPriceInfo.poolAddress kv.2,
                     DexPriceInfo.liquidity kv.2,
                     DexPriceInfo.fee kv.2))) <$> dexPrices.

(** The push [notifyAllClients] builds for a session. *)
Definition pushFor (st : State) (session : ClientSession) (now : Z)
  : WebSocketMessage :=
  {| type := tokens; data := subscribedTokenData st session; timestamp := now |}.


(** Every token that is monitored has a record, and a record is filed
    under its own address. *)
Definition tracked (st : State) : Prop :=
  dom (tokenSubscribers st) ⊆ dom (tokenRegistry st)
  /\ forall tokenAddress tokenInfo,
       tokenRegistry st !! tokenAddress = Some tokenInfo ->
       address tokenInfo = tokenAddress.

(** What the object does in answer to one event: a connection it accepts
    (under an identifier that no live session has), a message on a socket,
    the close or the error of a socket, a refresh pass. *)
Inductive event : State -> State -> Prop :=
| event_connect priceService now nowFor later clientId webSocket
    subscriptionHeader st :
    sessions st !! clientId = None ->
    event st (handleWebSocket priceService now nowFor later clientId webSocket
                subscriptionHeader st).1.1
| event_message priceService now nowFor later clientId webSocket message st :
    event st (messageListener priceService now nowFor later clientId webSocket
                message st).1
| event_close clientId st :
    event st (removeClient clientId st)
| event_refresh priceService now notifyTime st :
    event st (updateAllActivePrices priceService now notifyTime st).1.1.

(** The states the events lead to. *)
Definition served (st : State) : Prop := rtc event initialState st.

(** The part of a record that says which token it is. *)
Definition identity (tokenInfo : TokenInfo)
  : string * string * Z * option string :=
  (symbol tokenInfo, address tokenInfo, decimals tokenInfo, name tokenInfo).

(** The message events that ask for a change of subscriptions: type
    [subscribe] or [unsubscribe] with an array of addresses. *)
Definition changesSubscriptions (message : MessageEvent) : bool :=
  match message with
  | Parsed (ParsedValue (TypeString type) (Some _)) =>
      bool_decide (type = "subscribe" \/ type = "unsubscribe")
  | _ => false
  end.

(** The addresses of an array that a subscription message acts on. *)
Definition validAddresses (tokenAddresses : list JsonElement) : list string :=
  omap validAddress tokenAddresses.
End Registry.

(** ** The rate in the words of the specification *)

Module SpecRate.

(** "The integer count of the smallest unit of the reference token needed
    to equal one whole unit of the target token."  A constant-product pool
    holds [reserveTarget] smallest units of the target token against
    [reserveReference] smallest units of the reference token, and one whole
    unit of the target token is [10 ^ decimalsTarget] of its smallest
    units. *)
Definition constantProduct (reserveTarget reserveReference decimalsTarget : Z)
  : Z :=
  (reserveReference * 10 ^ decimalsTarget) / reserveTarget.

(** In a concentrated-liquidity pool [(sqrtPriceX96 / 2^96)^2] is the number
    of smallest units of token1 per smallest unit of token0. *)
Definition concentratedToken0 (sqrtPriceX96 decimals0 : Z) : Z :=
  (sqrtPriceX96 * sqrtPriceX96 * 10 ^ decimals0) / 2 ^ 192.

Definition concentratedToken1 (sqrtPriceX96 decimals1 : Z) : Z :=
  (2 ^ 192 * 10 ^ decimals1) / (sqrtPriceX96 * sqrtPriceX96).

(** "Multiplying the two rates after aligning decimal scaling recovers
    unity within integer-rounding tolerance": [rateA] counts smallest units
    of B per whole A and [rateB] smallest units of A per whole B, so the
    product is [10 ^ (decimalsA + decimalsB)] up to the two roundings, each
    of less than one unit. *)
Definition reciprocalConsistent (rateA rateB decimalsA decimalsB : Z) : Prop :=
  10 ^ (decimalsA + decimalsB) - rateA - rateB - 1 < rateA * rateB
  /\ rateA * rateB <= 10 ^ (decimalsA + decimalsB).

End SpecRate.

(** ** The token page: helper functions of the client *)

Module TokenPage.

Import PricingDurableObject.

Section Page.

(** [Number(s)] of a price text. *)
Variable Number : string -> Q.

(** The truth value of [priceInfo.error]: a string that is not empty. *)
Definition hasError (priceInfo : DexPriceInfo.t) : bool :=
  match DexPriceInfo.error priceInfo with
  | Some text => negb (bool_decide (text = EmptyString))
  | None => false
  end.

(** [token.dexPrices[dex] && !token.dexPrices[dex].error
       ? token.dexPrices[dex] : null] *)
Definition priceOn (dex : string) (token : TokenInfo) : option DexPriceInfo.t :=
  match JS.assoc_get dex (dexPrices token) with
  | Some priceInfo => if hasError priceInfo then None else Some priceInfo
  | None => None
  end.

Definition getV3Price (token : TokenInfo) : option DexPriceInfo.t :=
  priceOn "uniswap_v3" token.

Definition getV2Price (token : TokenInfo) : option DexPriceInfo.t :=
  priceOn "uniswap_v2" token.

Definition getSushiPrice (token : TokenInfo) : option DexPriceInfo.t :=
  priceOn "sushiswap" token.

Record ValidPrice := {
  vp_dex : string;
  vp_price : string;
  vp_numPrice : Q
}.

Record BestPrice := {
  bp_price : string;
  bp_dex : string
}.

Definition isValid (entry : string * DexPriceInfo.t) : bool :=
  negb (hasError entry.2)
  && negb (bool_decide (DexPriceInfo.priceInWei entry.2 = "0")).

Definition validPrices (token : TokenInfo) : list ValidPrice :=
  (fun entry : string * DexPriceInfo.t =>
     {| vp_dex := entry.1;
        vp_price := DexPriceInfo.priceInWei entry.2;
        vp_numPrice := Number (DexPriceInfo.priceInWei entry.2) |})
    <$> List.filter isValid (dexPrices token).

Definition higher (max current : ValidPrice) : ValidPrice :=
  if JS.Number_gt (vp_numPrice current) (vp_numPrice max) then current else max.

Definition getBestPrice (token : TokenInfo) : option BestPrice :=
  let validPrices := validPrices token in
  if decide (length validPrices = 0%nat) then None
  else
    best ← JS.reduce higher validPrices;
    Some {| bp_price := vp_price best; bp_dex := vp_dex best |}.

End Page.

End TokenPage.

(** ** Concrete pools and engine states used in the examples *)

Module Fixtures.

Import PriceUtils.

(** A numeral reader for the integer liquidity strings of the examples. *)
Definition parseDecimal (s : string) : Q :=
  match NilZero.int_of_string s with
  | Some d => inject_Z (Z.of_int d)
  | None => 0%Q
  end.

Definition printInteger (q : Q) : string :=
  JS.BigInt_toString (Qnum q / Z.pos (Qden q)).

Definition noSquareRoot (x : Z) : option Z := None.

(** A chain on which one constant-product pair lives at [0xpool], between
    token [0xAAA] (symbol AAA) and token [0xBBB] (symbol WETH). *)
Definition pairChain (decimal0 decimal1 reserve0 reserve1 : Z) : Chain :=
  {| pool_token0 := fun p => if decide (p = "0xpool") then Some "0xAAA" else None;
     pool_token1 := fun p => if decide (p = "0xpool") then Some "0xBBB" else None;
     erc20_decimals := fun t =>
       if decide (t = "0xAAA") then Some decimal0
       else if decide (t = "0xBBB") then Some decimal1 else None;
     erc20_symbol := fun t =>
       if decide (t = "0xAAA") then Some "AAA"
       else if decide (t = "0xBBB") then Some "WETH" else None;
     pool_slot0_sqrtPriceX96 := fun _ => None;
     pool_liquidity := fun _ => None;
     pool_getReserves := fun p =>
       if decide (p = "0xpool") then Some (reserve0, reserve1) else None;
     factory_getPool := fun _ _ _ _ => None;
     factory_getPair := fun _ _ _ => None |}.

(** The same two tokens in a concentrated-liquidity pool. *)
Definition poolChain (decimal0 decimal1 sqrtPriceX96 liquidity : Z) : Chain :=
  {| pool_token0 := fun p => if decide (p = "0xpool") then Some "0xAAA" else None;
     pool_token1 := fun p => if decide (p = "0xpool") then Some "0xBBB" else None;
     erc20_decimals := fun t =>
       if decide (t = "0xAAA") then Some decimal0
       else if decide (t = "0xBBB") then Some decimal1 else None;
     erc20_symbol := fun t =>
       if decide (t = "0xAAA") then Some "AAA"
       else if decide (t = "0xBBB") then Some "WETH" else None;
     pool_slot0_sqrtPriceX96 := fun p =>
       if decide (p = "0xpool") then Some sqrtPriceX96 else None;
     pool_liquidity := fun p =>
       if decide (p = "0xpool") then Some liquidity else None;
     pool_getReserves := fun _ => None;
     factory_getPool := fun _ _ _ _ => None;
     factory_getPair := fun _ _ _ => None |}.

(** The pool of the repository's own test ("Known WETH/USDC pool on Uniswap
    V3"): token0 is USDC with 6 decimals, token1 is WETH with 18, and the
    square-root price is the one of 3000 USDC per WETH. *)
Definition USDC : string := "0xA0b86991c6218b36c1d19D4a2e9Eb0cE3606eB48".
Definition WETH_USDC_POOL : string := "0x8ad599c3A0ff1De082011EFDDc58f1908eb6e6D8".
Definition sqrtPrice3000 : Z := 1446501728000000000000000000000000.

Definition testPoolChain : Chain :=
  {| pool_token0 := fun p => if decide (p = WETH_USDC_POOL) then Some USDC else None;
     pool_token1 := fun p => if decide (p = WETH_USDC_POOL) then Some WETH_ADDRESS else None;
     erc20_decimals := fun t =>
       if decide (t = USDC) then Some 6
       else if decide (t = WETH_ADDRESS) then Some 18 else None;
     erc20_symbol := fun t =>
       if decide (t = USDC) then Some "USDC"
       else if decide (t = WETH_ADDRESS) then Some "WETH" else None;
     pool_slot0_sqrtPriceX96 := fun p =>
       if decide (p = WETH_USDC_POOL) then Some sqrtPrice3000 else None;
     pool_liquidity := fun p =>
       if decide (p = WETH_USDC_POOL) then Some (10 ^ 18) else None;
     pool_getReserves := fun _ => None;
     factory_getPool := fun _ _ _ _ => None;
     factory_getPair := fun _ _ _ => None |}.

(** A chain for direct discovery of token [0xT] (18 decimals): the Uniswap
    V3 factory knows a WETH pool at fee 500 (liquidity 900), a WETH pool at
    fee 3000 (liquidity 500) and a USDC pool at fee 3000 (liquidity 5000);
    token [0xT] is token0 of each. *)
Definition discoveryChain : Chain :=
  {| pool_token0 := fun p =>
       if decide (p = "0xp1" \/ p = "0xp2" \/ p = "0xp3") then Some "0xT" else None;
     pool_token1 := fun p =>
       if decide (p = "0xp1" \/ p = "0xp2") then Some WETH_ADDRESS
       else if decide (p = "0xp3") then Some USDC else None;
     erc20_decimals := fun t =>
       if decide (t = "0xT" \/ t = WETH_ADDRESS) then Some 18
       else if decide (t = USDC) then Some 6 else None;
     erc20_symbol := fun t =>
       if decide (t = "0xT") then Some "TKN"
       else if decide (t = WETH_ADDRESS) then Some "WETH"
       else if decide (t = USDC) then Some "USDC" else None;
     pool_slot0_sqrtPriceX96 := fun p =>
       if decide (p = "0xp1") then Some (2 ^ 96)
       else if decide (p = "0xp2") then Some (2 ^ 97)
       else if decide (p = "0xp3") then Some (2 ^ 96 * 10 ^ 6) else None;
     pool_liquidity := fun p =>
       if decide (p = "0xp1") then Some 500
       else if decide (p = "0xp2") then Some 900
       else if decide (p = "0xp3") then Some 5000 else None;
     pool_getReserves := fun _ => None;
     factory_getPool := fun factory a b fee =>
       if decide (factory = UNISWAP_V3_FACTORY /\ a = "0xT") then
         if decide (b = WETH_ADDRESS /\ fee = 3000) then Some "0xp1"
         else if decide (b = WETH_ADDRESS /\ fee = 500) then Some "0xp2"
         else if decide (b = USDC /\ fee = 3000) then Some "0xp3"
         else Some ZeroAddress
       else None;
     factory_getPair := fun _ _ _ => Some ZeroAddress |}.

Definition indexDown (tokenAddress : string) : FetchOutcome := FetchThrows.

(** Two sessions with disjoint interests: [s1] follows token [0xX] and [s2]
    follows token [0xY]. *)
Import PricingDurableObject.

Definition openSocket : WebSocket := {| readyState := OPEN; sendThrows := false |}.

Definition twoSessions : State :=
  subscribeClientToToken "s2" "0xY"
    (subscribeClientToToken "s1" "0xX"
       (openSession "s2" openSocket 0
          (openSession "s1" openSocket 0 initialState))).

Definition quote (rate : string) : PoolResult :=
  {| dex := "uniswap_v3";
     PriceUtils.poolAddress := "0xpool";
     PriceUtils.liquidity := "5000";
     PriceUtils.priceInWei := rate;
     baseToken := WETH_ADDRESS;
     baseTokenSymbol := "WETH";
     PriceUtils.fee := Some 3000 |}.

(** A price service that finds one pool for [0xX], at the given rate, and
    none for any other token. *)
Definition quotes (rate : string) : PriceService :=
  fun tokenAddress =>
    if decide (tokenAddress = "0xX") then Fulfilled [quote rate]
    else Fulfilled [].

Definition outage : PriceService := fun _ => Rejected "timeout".

(** The state after a first refresh pass at instant 1000. *)
Definition baseline : State :=
  (updateAllActivePrices (Some (quotes "100")) (fun _ => 1000) 1001
     twoSessions).1.1.


(** A reply of the pool index for token [0xT]: two Uniswap V3 pairs, of
    which the second is the more liquid, a SushiSwap pair below the
    liquidity floor, a pair on a venue that is not supported and a pair
    without a venue name. *)
Definition indexedPair (name : option string) (address : string)
    (usd : Q) (other : string) (otherSymbol : string) : MoralisPair :=
  {| exchange_name := name;
     pair_address := address;
     liquidity_usd := usd;
     pair := [ {| token_address := "0xT"; token_symbol := "TKN";
                  pair_token_type := TOKEN0 |};
               {| token_address := other; token_symbol := otherSymbol;
                  pair_token_type := TOKEN1 |} ] |}.

Definition indexReply (tokenAddress : string) : FetchOutcome :=
  FetchResponse true
    (Some {| pairs :=
               Some [ indexedPair (Some "Uniswap v3") "0xp1" 5000 WETH_ADDRESS "WETH";
                      indexedPair (Some "uniswap V3") "0xp2" 9000 WETH_ADDRESS "WETH";
                      indexedPair (Some "SushiSwap v2") "0xp4" 500 USDC "USDC";
                      indexedPair (Some "Curve") "0xp3" 7000 USDC "USDC";
                      indexedPair None "0xp5" 8000 USDC "USDC" ] |}).

(** A token that is not the WETH contract and calls itself WETH. *)
Definition namedWETH : string := "0x2956356cD2a2bf3202F771F50D3D14A367b48070".

(** A chain with two pools of token [0xT] (token0 of each, 18 decimals, at
    the price one to one): the concentrated-liquidity pool [0xreal] against
    the WETH contract and the constant-product pair [0xfake] against
    [namedWETH], whose symbol is the text WETH too. *)
Definition spoofChain : Chain :=
  {| pool_token0 := fun p =>
       if decide (p = "0xfake" \/ p = "0xreal") then Some "0xT" else None;
     pool_token1 := fun p =>
       if decide (p = "0xfake") then Some namedWETH
       else if decide (p = "0xreal") then Some WETH_ADDRESS else None;
     erc20_decimals := fun t =>
       if decide (t = "0xT" \/ t = WETH_ADDRESS \/ t = namedWETH) then Some 18
       else None;
     erc20_symbol := fun t =>
       if decide (t = "0xT") then Some "TKN"
       else if decide (t = WETH_ADDRESS \/ t = namedWETH) then Some "WETH"
       else None;
     pool_slot0_sqrtPriceX96 := fun p =>
       if decide (p = "0xreal") then Some (2 ^ 96) else None;
     pool_liquidity := fun p =>
       if decide (p = "0xreal") then Some 1000 else None;
     pool_getReserves := fun p =>
       if decide (p = "0xfake") then Some (10 ^ 21, 10 ^ 21) else None;
     factory_getPool := fun _ _ _ _ => Some ZeroAddress;
     factory_getPair := fun _ _ _ => Some ZeroAddress |}.

(** The reply of the index for token [0xT] on that chain: the pool against
    [namedWETH] on Uniswap V2 with liquidity 9000, the pool against the WETH
    contract on Uniswap V3 with liquidity 5000. *)
Definition spoofReply (tokenAddress : string) : FetchOutcome :=
  FetchResponse true
    (Some {| pairs :=
               Some [ indexedPair (Some "Uniswap v2") "0xfake" 9000
                        namedWETH "WETH";
                      indexedPair (Some "Uniswap v3") "0xreal" 5000
                        WETH_ADDRESS "WETH" ] |}).

(** The state after a first client has connected with the subscription
    header [0xX, 0xY]. *)
Definition welcomed : State :=
  (handleWebSocket (Some (quotes "100")) 0 (fun _ => 1000) 1001 "s1"
     openSocket (Some "0xX, 0xY") initialState).1.1.

(** A socket on which [send] throws. *)
Definition brokenSocket : WebSocket :=
  {| readyState := OPEN; sendThrows := true |}.
End Fixtures.

(** * Properties *)

(** ** The price resolver *)

Module PriceResolver.

Import PriceUtils.

Import PoolState.

Lemma BigInt_toString_inj (a b : Z) :
  JS.BigInt_toString a = JS.BigInt_toString b -> a = b.
Proof.
  unfold JS.BigInt_toString. intros H.
  apply DecimalZ.to_int_inj.
  assert (Hn : forall z, Z.to_int z <> Decimal.Pos Decimal.Nil
                         /\ Z.to_int z <> Decimal.Neg Decimal.Nil).
  { intros [|p|p]; simpl; split; try discriminate;
      intros E; injection E; apply DecimalPos.Unsigned.to_uint_nonnil. }
  destruct (Hn a) as [Ha1 Ha2], (Hn b) as [Hb1 Hb2].
  pose proof (NilZero.isi _ Ha1 Ha2) as Ea.
  pose proof (NilZero.isi _ Hb1 Hb2) as Eb.
  rewrite H in Ea. congruence.
Qed.

Lemma BigInt_toString_zero (z : Z) : JS.BigInt_toString z = "0" <-> z = 0.
Proof.
  split.
  - intros H. apply BigInt_toString_inj. exact H.
  - intros ->. reflexivity.
Qed.

Lemma pow10_pos (d : Z) : 0 <= d -> 0 < 10 ^ d.
Proof. intros. apply Z.pow_pos_nonneg; lia. Qed.

Section Attempts.

Variable chain : Chain.
Variables tokenAddress poolAddress token0 token1 symbol0 symbol1 : string.
Variables decimal0 decimal1 : Z.
Hypothesis metadata :
  poolMetadata chain poolAddress token0 token1 decimal0 decimal1 symbol0 symbol1.
Hypothesis decimal0_nonneg : 0 <= decimal0.
Hypothesis decimal1_nonneg : 0 <= decimal1.

Let isTokenToken0 : bool :=
  bool_decide (JS.toLowerCase token0 = JS.toLowerCase tokenAddress).

Lemma priceAttempt_concentrated (sqrtPriceX96 : Z) :
  pool_slot0_sqrtPriceX96 chain poolAddress = Some sqrtPriceX96 ->
  priceAttempt chain tokenAddress poolAddress true =
    if isTokenToken0 then
      Some {| pfp_priceInWei :=
                JS.BigInt_toString
                  (Z.quot (sqrtPriceX96 * sqrtPriceX96 * 10 ^ decimal1)
                          (2 ^ 96 * 2 ^ 96 * 10 ^ decimal0));
              pfp_baseToken := token1;
              pfp_baseTokenSymbol := symbol1 |}
    else if decide (sqrtPriceX96 = 0) then None
    else
      Some {| pfp_priceInWei :=
                JS.BigInt_toString
                  (Z.quot (2 ^ 96 * 2 ^ 96 * 10 ^ decimal0 * 10 ^ decimal1)
                          (sqrtPriceX96 * sqrtPriceX96 * 10 ^ decimal1));
              pfp_baseToken := token0;
              pfp_baseTokenSymbol := symbol0 |}.
Proof.
  intros Hslot.
  destruct metadata as (H0 & H1 & Hd0 & Hd1 & Hs0 & Hs1).
  pose proof (pow10_pos _ decimal0_nonneg) as P0.
  pose proof (pow10_pos _ decimal1_nonneg) as P1.
  unfold priceAttempt.
  rewrite H0, H1; cbn [mbind option_bind]. rewrite Hd0, Hd1, Hs0, Hs1.
  cbn [mbind option_bind]. rewrite Hslot. cbn [mbind option_bind].
  unfold JS.BigInt_pow.
  rewrite !decide_False by lia. cbn [mbind option_bind].
  fold isTokenToken0. unfold JS.BigInt_div.
  destruct isTokenToken0.
  - rewrite decide_False by (assert (0 < 2 ^ 96) by (apply Z.pow_pos_nonneg; lia); nia).
    reflexivity.
  - destruct (decide (sqrtPriceX96 = 0)) as [->|Hs].
    + rewrite decide_True by lia. reflexivity.
    + rewrite decide_False by nia. reflexivity.
Qed.

Lemma priceAttempt_constantProduct (reserve0 reserve1 : Z) :
  pool_getReserves chain poolAddress = Some (reserve0, reserve1) ->
  priceAttempt chain tokenAddress poolAddress false =
    if decide (reserve0 = 0 \/ reserve1 = 0) then None
    else if isTokenToken0 then
      Some {| pfp_priceInWei :=
                JS.BigInt_toString
                  (Z.quot (reserve1 * 10 ^ decimal1) (reserve0 * 10 ^ decimal0));
              pfp_baseToken := token1;
              pfp_baseTokenSymbol := symbol1 |}
    else
      Some {| pfp_priceInWei :=
                JS.BigInt_toString
                  (Z.quot (reserve0 * 10 ^ decimal0) (reserve1 * 10 ^ decimal1));
              pfp_baseToken := token0;
              pfp_baseTokenSymbol := symbol0 |}.
Proof.
  intros Hres.
  destruct metadata as (H0 & H1 & Hd0 & Hd1 & Hs0 & Hs1).
  pose proof (pow10_pos _ decimal0_nonneg) as P0.
  pose proof (pow10_pos _ decimal1_nonneg) as P1.
  unfold priceAttempt.
  rewrite H0, H1; cbn [mbind option_bind]. rewrite Hd0, Hd1, Hs0, Hs1.
  cbn [mbind option_bind]. rewrite Hres. cbn [mbind option_bind].
  destruct (decide (reserve0 = 0 \/ reserve1 = 0)) as [Hz|Hz]; [reflexivity|].
  unfold JS.BigInt_pow.
  rewrite !decide_False by lia. cbn [mbind option_bind].
  fold isTokenToken0. unfold JS.BigInt_div.
  destruct isTokenToken0; rewrite decide_False by nia; reflexivity.
Qed.

End Attempts.

Lemma priceAttempt_no_slot0 (chain : Chain) (tokenAddress poolAddress : string) :
  pool_slot0_sqrtPriceX96 chain poolAddress = None ->
  priceAttempt chain tokenAddress poolAddress true = None.
Proof.
  intros Hslot. unfold priceAttempt. rewrite Hslot.
  repeat (match goal with
          | |- context [mbind _ (?read chain ?a)] =>
              destruct (read chain a); cbn [mbind option_bind]
          end; try reflexivity).
Qed.

Lemma priceAttempt_zero_reserve (chain : Chain)
    (tokenAddress poolAddress : string) (reserve0 reserve1 : Z) :
  pool_getReserves chain poolAddress = Some (reserve0, reserve1) ->
  reserve0 = 0 \/ reserve1 = 0 ->
  priceAttempt chain tokenAddress poolAddress false = None.
Proof.
  intros Hres Hz. unfold priceAttempt. rewrite Hres.
  repeat (match goal with
          | |- context [mbind _ (?read chain ?a)] =>
              destruct (read chain a); cbn [mbind option_bind]
          end; try reflexivity).
  rewrite decide_True by exact Hz. reflexivity.
Qed.

(** Sorting and filtering keep no entry that was not there. *)
Lemma elem_of_sort_insert {A} (cmp : A -> A -> Q) (x y : A) (l : list A) :
  y ∈ JS.sort_insert cmp x l <-> y = x \/ y ∈ l.
Proof.
  induction l as [|z l IH]; simpl.
  - set_solver.
  - destruct (Qle_bool (cmp x z) 0); set_solver.
Qed.

Lemma elem_of_Array_sort {A} (cmp : A -> A -> Q) (y : A) (l : list A) :
  y ∈ JS.Array_sort cmp l <-> y ∈ l.
Proof.
  unfold JS.Array_sort. induction l as [|x l IH]; simpl.
  - reflexivity.
  - rewrite elem_of_sort_insert, IH. set_solver.
Qed.

Lemma deduplicateAndSort_no_zero (parseFloat : string -> Q)
    (allResults : list PoolResult) (r : PoolResult) :
  r ∈ deduplicateAndSort parseFloat allResults -> priceInWei r <> "0".
Proof.
  unfold deduplicateAndSort. rewrite elem_of_Array_sort.
  rewrite list_elem_of_filter. tauto.
Qed.

(** The rates of the specification are reciprocal-consistent, whatever the
    reserves. *)
Lemma specified_rates_reciprocal (reserveA reserveB decimalsA decimalsB : Z) :
  0 < reserveA -> 0 < reserveB -> 0 <= decimalsA -> 0 <= decimalsB ->
  SpecRate.reciprocalConsistent
    (SpecRate.constantProduct reserveA reserveB decimalsA)
    (SpecRate.constantProduct reserveB reserveA decimalsB)
    decimalsA decimalsB.
Proof.
  intros HA HB HdA HdB. unfold SpecRate.reciprocalConsistent, SpecRate.constantProduct.
  rewrite Z.pow_add_r by lia.
  pose proof (pow10_pos _ HdA) as PA. pose proof (pow10_pos _ HdB) as PB.
  set (DA := 10 ^ decimalsA) in *. set (DB := 10 ^ decimalsB) in *.
  set (a := reserveB * DA / reserveA). set (b := reserveA * DB / reserveB).
  assert (Ha : a * reserveA <= reserveB * DA < (a + 1) * reserveA).
  { pose proof (Z.div_mod (reserveB * DA) reserveA ltac:(lia)).
    pose proof (Z.mod_pos_bound (reserveB * DA) reserveA HA). subst a. nia. }
  assert (Hb : b * reserveB <= reserveA * DB < (b + 1) * reserveB).
  { pose proof (Z.div_mod (reserveA * DB) reserveB ltac:(lia)).
    pose proof (Z.mod_pos_bound (reserveA * DB) reserveB HB). subst b. nia. }
  assert (0 <= a) by (subst a; apply Z.div_pos; nia).
  assert (0 <= b) by (subst b; apply Z.div_pos; nia).
  split.
  - assert (reserveA * reserveB * (DA * DB)
            < reserveA * reserveB * ((a + 1) * (b + 1))) by nia.
    assert (DA * DB < (a + 1) * (b + 1)) by nia. nia.
  - assert (reserveA * reserveB * (a * b)
            <= reserveA * reserveB * (DA * DB)) by nia.
    nia.
Qed.

(** With equal decimals the code returns the plain ratio of the reserves:
    a target token that is cheaper than the reference token is priced 0,
    although one whole unit of it is worth at least one smallest unit of the
    reference token. *)
Lemma cheaper_token_priced_zero (chain : Chain)
    (tokenAddress poolAddress token0 token1 symbol0 symbol1 : string)
    (decimals reserve0 reserve1 : Z) :
  poolMetadata chain poolAddress token0 token1 decimals decimals symbol0 symbol1 ->
  JS.toLowerCase token0 = JS.toLowerCase tokenAddress ->
  pool_slot0_sqrtPriceX96 chain poolAddress = None ->
  pool_getReserves chain poolAddress = Some (reserve0, reserve1) ->
  0 <= decimals -> 0 < reserve1 -> reserve1 < reserve0 ->
  reserve0 <= reserve1 * 10 ^ decimals ->
  hasRate (getTokenPriceFromPool chain tokenAddress poolAddress) 0
  /\ 1 <= SpecRate.constantProduct reserve0 reserve1 decimals.
Proof.
  intros Hmeta Htarget Hslot Hres Hd Hr1 Hlt Hle.
  pose proof (pow10_pos _ Hd) as P. split.
  - unfold getTokenPriceFromPool, hasRate.
    rewrite priceAttempt_no_slot0 by exact Hslot.
    rewrite (priceAttempt_constantProduct _ _ _ _ _ _ _ _ _ Hmeta Hd Hd _ _ Hres).
    rewrite decide_False by lia.
    rewrite bool_decide_true by exact Htarget. simpl. do 2 f_equal.
    apply Z.quot_small. nia.
  - unfold SpecRate.constantProduct.
    apply Z.div_le_lower_bound; lia.
Qed.

(** C2. The rate [getTokenPriceFromPool] returns is not the count of the
    reference token's smallest units worth one whole target token.  In a
    constant-product pool of 1000 AAA against 3 WETH, both with 18
    decimals, one AAA is worth [3 * 10^15] smallest units of WETH and the
    code returns 0; in the WETH/USDC pool of the repository's test, at 3000
    USDC per WETH, one WETH is worth 2999999994 smallest units of USDC and
    the code returns 0. *)
Theorem resolved_rate_misses_specified_rate :
  hasRate (getTokenPriceFromPool
             (Fixtures.pairChain 18 18 (1000 * 10 ^ 18) (3 * 10 ^ 18))
             "0xAAA" "0xpool") 0
  /\ SpecRate.constantProduct (1000 * 10 ^ 18) (3 * 10 ^ 18) 18 = 3 * 10 ^ 15
  /\ hasRate (getTokenPriceFromPool Fixtures.testPoolChain
                WETH_ADDRESS Fixtures.WETH_USDC_POOL) 0
  /\ SpecRate.concentratedToken1 Fixtures.sqrtPrice3000 18 = 2999999994.
Proof. repeat split; vm_compute; reflexivity. Qed.

(** C7. The two rates of one pool do not multiply back to unity: in the
    pool of 1000 AAA against 3 WETH the code returns 0 for AAA and 333 for
    WETH, whose product is 0, while the rates of the specification,
    [3 * 10^15] and [333333333333333333333], are reciprocal-consistent. *)
Theorem reciprocal_rates_multiply_to_zero :
  let chain := Fixtures.pairChain 18 18 (1000 * 10 ^ 18) (3 * 10 ^ 18) in
  hasRate (getTokenPriceFromPool chain "0xAAA" "0xpool") 0
  /\ hasRate (getTokenPriceFromPool chain "0xBBB" "0xpool") 333
  /\ ~ SpecRate.reciprocalConsistent 0 333 18 18
  /\ SpecRate.reciprocalConsistent
       (SpecRate.constantProduct (1000 * 10 ^ 18) (3 * 10 ^ 18) 18)
       (SpecRate.constantProduct (3 * 10 ^ 18) (1000 * 10 ^ 18) 18)
       18 18.
Proof.
  cbv zeta. split; [vm_compute; reflexivity|].
  split; [vm_compute; reflexivity|]. split.
  - unfold SpecRate.reciprocalConsistent. intros [H _]. vm_compute in H.
    discriminate H.
  - apply specified_rates_reciprocal; lia.
Qed.

(** C4, as the claim states it, fails: with both reserves positive (2 whole
    AAA against one smallest unit of WETH) the rate returned is zero, and a
    concentrated-liquidity pool whose liquidity is zero is still priced. *)
Lemma resolve_returns_zero_on_positive_reserves :
  (exists reserve0 reserve1,
      pool_getReserves (Fixtures.pairChain 18 18 (2 * 10 ^ 18) 1) "0xpool"
        = Some (reserve0, reserve1)
      /\ 0 < reserve0 /\ 0 < reserve1
      /\ hasRate (getTokenPriceFromPool
                    (Fixtures.pairChain 18 18 (2 * 10 ^ 18) 1)
                    "0xAAA" "0xpool") 0)
  /\ pool_liquidity (Fixtures.poolChain 18 18 (2 ^ 96) 0) "0xpool" = Some 0
  /\ hasRate (getTokenPriceFromPool (Fixtures.poolChain 18 18 (2 ^ 96) 0)
                "0xAAA" "0xpool") 1.
Proof.
  split.
  - exists (2 * 10 ^ 18), 1. repeat split; vm_compute; reflexivity.
  - split; vm_compute; reflexivity.
Qed.

(** C4, amended.  A constant-product pool with a zero reserve is not
    found; with both reserves positive, or with a positive square-root
    price in a concentrated-liquidity pool, a rate is returned and it is
    non-negative (zero when the division truncates); the liquidity of the
    pool is never read; and [deduplicateAndSort] keeps no entry whose rate
    is the literal zero. *)
Theorem resolve_rate_by_pool_state (chain : Chain)
    (tokenAddress poolAddress : string) :
  (forall reserve0 reserve1,
      pool_slot0_sqrtPriceX96 chain poolAddress = None ->
      pool_getReserves chain poolAddress = Some (reserve0, reserve1) ->
      reserve0 = 0 \/ reserve1 = 0 ->
      getTokenPriceFromPool chain tokenAddress poolAddress = None)
  /\ (forall token0 token1 decimal0 decimal1 symbol0 symbol1 reserve0 reserve1,
        poolMetadata chain poolAddress token0 token1 decimal0 decimal1
          symbol0 symbol1 ->
        0 <= decimal0 -> 0 <= decimal1 ->
        pool_slot0_sqrtPriceX96 chain poolAddress = None ->
        pool_getReserves chain poolAddress = Some (reserve0, reserve1) ->
        0 < reserve0 -> 0 < reserve1 ->
        exists rate,
          0 <= rate
          /\ hasRate (getTokenPriceFromPool chain tokenAddress poolAddress) rate)
  /\ (forall token0 token1 decimal0 decimal1 symbol0 symbol1 sqrtPriceX96,
        poolMetadata chain poolAddress token0 token1 decimal0 decimal1
          symbol0 symbol1 ->
        0 <= decimal0 -> 0 <= decimal1 ->
        pool_slot0_sqrtPriceX96 chain poolAddress = Some sqrtPriceX96 ->
        0 < sqrtPriceX96 ->
        exists rate,
          0 <= rate
          /\ hasRate (getTokenPriceFromPool chain tokenAddress poolAddress) rate)
  /\ (forall f,
        getTokenPriceFromPool (withLiquidity f chain) tokenAddress poolAddress
        = getTokenPriceFromPool chain tokenAddress poolAddress)
  /\ (forall parseFloat allResults r rate,
        r ∈ deduplicateAndSort parseFloat allResults ->
        priceInWei r = JS.BigInt_toString rate -> rate <> 0).
Proof.
  repeat apply conj.
  - intros reserve0 reserve1 Hslot Hres Hz. unfold getTokenPriceFromPool.
    rewrite priceAttempt_no_slot0 by exact Hslot.
    eapply priceAttempt_zero_reserve; eauto.
  - intros token0 token1 decimal0 decimal1 symbol0 symbol1 reserve0 reserve1
      Hmeta Hd0 Hd1 Hslot Hres Hr0 Hr1.
    pose proof (pow10_pos _ Hd0). pose proof (pow10_pos _ Hd1).
    unfold getTokenPriceFromPool, hasRate.
    rewrite priceAttempt_no_slot0 by exact Hslot.
    rewrite (priceAttempt_constantProduct _ _ _ _ _ _ _ _ _ Hmeta Hd0 Hd1 _ _ Hres).
    rewrite decide_False by lia.
    destruct (bool_decide _); eexists; (split; [|reflexivity]);
      apply Z.quot_pos; nia.
  - intros token0 token1 decimal0 decimal1 symbol0 symbol1 sqrtPriceX96
      Hmeta Hd0 Hd1 Hslot Hs.
    pose proof (pow10_pos _ Hd0). pose proof (pow10_pos _ Hd1).
    assert (0 < 2 ^ 96) by (apply Z.pow_pos_nonneg; lia).
    unfold getTokenPriceFromPool, hasRate.
    rewrite (priceAttempt_concentrated _ _ _ _ _ _ _ _ _ Hmeta Hd0 Hd1 _ Hslot).
    destruct (bool_decide _).
    + eexists; split; [|reflexivity]. apply Z.quot_pos; nia.
    + rewrite decide_False by lia.
      eexists; split; [|reflexivity]. apply Z.quot_pos; nia.
  - intros f. reflexivity.
  - intros parseFloat allResults r rate Hr Hrate ->.
    apply (deduplicateAndSort_no_zero _ _ _ Hr). rewrite Hrate. reflexivity.
Qed.

(** C4, amended, at concrete pools: a pair with an empty reserve is not
    found, a pair of 2 whole AAA against one smallest unit of WETH and a
    concentrated-liquidity pool at price one are priced. *)
Lemma resolve_rate_by_pool_state_witness :
  getTokenPriceFromPool (Fixtures.pairChain 18 18 0 5) "0xAAA" "0xpool" = None
  /\ (exists rate,
        0 <= rate
        /\ hasRate (getTokenPriceFromPool
                      (Fixtures.pairChain 18 18 (2 * 10 ^ 18) 1)
                      "0xAAA" "0xpool") rate)
  /\ (exists rate,
        0 <= rate
        /\ hasRate (getTokenPriceFromPool
                      (Fixtures.poolChain 18 18 (2 ^ 96) 0)
                      "0xAAA" "0xpool") rate).
Proof.
  split; [|split].
  - apply (proj1 (resolve_rate_by_pool_state
                    (Fixtures.pairChain 18 18 0 5) "0xAAA" "0xpool") 0 5).
    + reflexivity.
    + reflexivity.
    + left. reflexivity.
  - apply (proj1 (proj2 (resolve_rate_by_pool_state
                           (Fixtures.pairChain 18 18 (2 * 10 ^ 18) 1)
                           "0xAAA" "0xpool"))
             "0xAAA" "0xBBB" 18 18 "AAA" "WETH" (2 * 10 ^ 18) 1).
    + repeat split; reflexivity.
    + lia.
    + lia.
    + reflexivity.
    + reflexivity.
    + lia.
    + lia.
  - apply (proj1 (proj2 (proj2 (resolve_rate_by_pool_state
                                  (Fixtures.poolChain 18 18 (2 ^ 96) 0)
                                  "0xAAA" "0xpool")))
             "0xAAA" "0xBBB" 18 18 "AAA" "WETH" (2 ^ 96)).
    + repeat split; reflexivity.
    + lia.
    + lia.
    + reflexivity.
    + lia.
Defined.

End PriceResolver.

(** ** Aggregation: ranking and fallback *)

Module PriceAggregator.

Import PriceUtils.

Section Sorting.

Context {A : Type} (cmp : A -> A -> Q).

Let before (a b : A) : Prop := Qle_bool (cmp a b) 0 = true.

Hypothesis cmp_total : forall a b, before a b \/ before b a.
Hypothesis cmp_trans : forall a b c, before a b -> before b c -> before a c.

Lemma sort_insert_Forall (P : A -> Prop) (x : A) (l : list A) :
  P x -> Forall P l -> Forall P (JS.sort_insert cmp x l).
Proof.
  intros Hx Hl. induction Hl as [|y l Hy Hl IH]; simpl.
  - repeat constructor; exact Hx.
  - destruct (Qle_bool (cmp x y) 0); repeat constructor; assumption.
Qed.

Lemma sort_insert_sorted (x : A) (l : list A) :
  StronglySorted before l -> StronglySorted before (JS.sort_insert cmp x l).
Proof.
  intros Hl. induction Hl as [|y l Hl IH Hy]; simpl.
  - repeat constructor.
  - destruct (Qle_bool (cmp x y) 0) eqn:E.
    + constructor; [constructor; assumption|].
      constructor; [exact E|].
      eapply Forall_impl; [exact Hy|].
      intros z Hz. eapply cmp_trans; [exact E|exact Hz].
    + constructor; [exact IH|].
      apply sort_insert_Forall; [|exact Hy].
      destruct (cmp_total x y) as [H|H]; [|exact H].
      unfold before in H. congruence.
Qed.

Lemma Array_sort_sorted (l : list A) : StronglySorted before (JS.Array_sort cmp l).
Proof.
  unfold JS.Array_sort. induction l as [|x l IH]; simpl.
  - constructor.
  - apply sort_insert_sorted, IH.
Qed.

End Sorting.

Lemma StronglySorted_lookup {A} (R : A -> A -> Prop) (l : list A) :
  StronglySorted R l ->
  forall i j a b, l !! i = Some a -> l !! j = Some b -> (i < j)%nat -> R a b.
Proof.
  induction 1 as [|x l Hl IH Hx]; intros i j a b Hi Hj Hlt.
  - rewrite lookup_nil in Hi. discriminate.
  - destruct j as [|j]; [lia|]. simpl in Hj.
    destruct i as [|i]; simpl in Hi.
    + injection Hi as <-. rewrite Forall_forall in Hx. apply Hx.
      eapply list_elem_of_lookup_2. exact Hj.
    + eapply IH; eauto. lia.
Qed.

Section Ranking.

Variable parseFloat : string -> Q.

Lemma before_spec (a b : PoolResult) :
  Qle_bool (compareResults parseFloat a b) 0 = true <->
  (isWETH a = true /\ isWETH b = false)
  \/ (isWETH a = isWETH b
      /\ (parseFloat (liquidity b) <= parseFloat (liquidity a))%Q).
Proof.
  rewrite Qle_bool_iff. unfold compareResults.
  destruct (isWETH a), (isWETH b); simpl;
    (split;
     [ intros H;
       first [ left; split; reflexivity
             | right; split; [reflexivity|lra]
             | lra ]
     | intros [[? ?]|[? ?]]; try discriminate; lra ]).
Qed.

Lemma before_total (a b : PoolResult) :
  Qle_bool (compareResults parseFloat a b) 0 = true
  \/ Qle_bool (compareResults parseFloat b a) 0 = true.
Proof.
  rewrite !before_spec.
  destruct (isWETH a), (isWETH b); try tauto;
    destruct (Qlt_le_dec (parseFloat (liquidity a)) (parseFloat (liquidity b)));
    (left; right; split; [reflexivity|]; lra)
    || (right; right; split; [reflexivity|]; lra).
Qed.

Lemma before_trans (a b c : PoolResult) :
  Qle_bool (compareResults parseFloat a b) 0 = true ->
  Qle_bool (compareResults parseFloat b c) 0 = true ->
  Qle_bool (compareResults parseFloat a c) 0 = true.
Proof.
  rewrite !before_spec.
  destruct (isWETH a), (isWETH b), (isWETH c);
    intros [[? ?]|[? ?]] [[? ?]|[? ?]]; try discriminate;
    (left; split; reflexivity) || (right; split; [reflexivity|lra]).
Qed.

Lemma deduplicateAndSort_sorted (allResults : list PoolResult) :
  StronglySorted
    (fun a b => Qle_bool (compareResults parseFloat a b) 0 = true)
    (deduplicateAndSort parseFloat allResults).
Proof.
  unfold deduplicateAndSort.
  apply Array_sort_sorted; [apply before_total|apply before_trans].
Qed.

Variable Number_toString : Q -> string.
Variable BigInt_Math_sqrt : Z -> option Z.
Variable chain : Chain.
Variable fetch : string -> FetchOutcome.

Lemma getAllAvailablePrices_sorted (tokenAddress : string) :
  StronglySorted
    (fun a b => Qle_bool (compareResults parseFloat a b) 0 = true)
    (getAllAvailablePrices parseFloat Number_toString BigInt_Math_sqrt
       chain fetch tokenAddress).
Proof.
  unfold getAllAvailablePrices. case_decide.
  - apply deduplicateAndSort_sorted.
  - unfold getMoralisPools. case_decide; [constructor|].
    destruct (foldl _ _ _) as [processed allResults].
    apply deduplicateAndSort_sorted.
Qed.

(** The order of the list [getAllAvailablePrices] returns, in the terms of
    the comparator: an entry whose reference symbol is the text WETH is never
    behind an entry whose reference symbol is another, and of two entries
    that agree on that the later one has no more liquidity than the earlier
    one. *)
Theorem getAllAvailablePrices_order (tokenAddress : string)
    (i j : nat) (a b : PoolResult) :
  let prices :=
    getAllAvailablePrices parseFloat Number_toString BigInt_Math_sqrt
      chain fetch tokenAddress in
  prices !! i = Some a -> prices !! j = Some b -> (i < j)%nat ->
  (isWETH b = true -> isWETH a = true)
  /\ (isWETH a = isWETH b ->
      (parseFloat (liquidity b) <= parseFloat (liquidity a))%Q).
Proof.
  intros prices Hi Hj Hlt.
  pose proof (StronglySorted_lookup _ _
                (getAllAvailablePrices_sorted tokenAddress)
                i j a b Hi Hj Hlt) as H.
  apply before_spec in H.
  destruct H as [[Ha Hb]|[Hab Hle]]; split; intros; congruence.
Qed.

(** C9. When the request to the pool index throws, or is answered with a
    status that is not a success, or with a body that does not parse or
    carries no list of pairs, or when the index yields no priced pool,
    [getAllAvailablePrices] returns exactly what direct discovery over
    the fixed reference tokens and venues returns. *)
Theorem index_failure_falls_back (tokenAddress : string) :
  fetch tokenAddress = FetchThrows
  \/ (exists body, fetch tokenAddress = FetchResponse false body)
  \/ fetch tokenAddress = FetchResponse true None
  \/ fetch tokenAddress = FetchResponse true (Some {| pairs := None |})
  \/ getMoralisPools parseFloat Number_toString chain fetch tokenAddress = [] ->
  getAllAvailablePrices parseFloat Number_toString BigInt_Math_sqrt
    chain fetch tokenAddress
  = getDirectDexPools parseFloat BigInt_Math_sqrt chain tokenAddress
  /\ getDirectDexPools parseFloat BigInt_Math_sqrt chain tokenAddress
     = deduplicateAndSort parseFloat
         (dexName ← dexesToTry;
          baseToken ← baseTokens;
          getDexPrices BigInt_Math_sqrt chain tokenAddress baseToken.1 dexName).
Proof.
  intros H. split; [|reflexivity].
  assert (Hempty :
            getMoralisPools parseFloat Number_toString chain fetch tokenAddress = []).
  { destruct H as [H|[[body H]|[H|[H|H]]]]; try exact H;
      unfold getMoralisPools, queryMoralisForPools; rewrite H; reflexivity. }
  unfold getAllAvailablePrices. rewrite Hempty. reflexivity.
Qed.

End Ranking.

(** Deduplication adds no entry. *)
Lemma elem_of_replace_first {A} (p : A -> bool) (y x : A) (l : list A) :
  x ∈ JS.replace_first p y l -> x = y \/ x ∈ l.
Proof.
  induction l as [|z l IH]; simpl.
  - intros H. apply elem_of_nil in H. destruct H.
  - destruct (p z); rewrite !elem_of_cons; [tauto|].
    intros [->|H]; [tauto|]. destruct (IH H); tauto.
Qed.

Lemma find_elem_of {A} (p : A -> bool) (l : list A) (x : A) :
  JS.find p l = Some x -> x ∈ l.
Proof.
  induction l as [|z l IH]; simpl; [discriminate|].
  destruct (p z).
  - intros [= ->]. apply list_elem_of_here.
  - intros H. apply list_elem_of_further, IH, H.
Qed.

Lemma deduplicateAndSort_subset (parseFloat : string -> Q)
    (allResults : list PoolResult) (r : PoolResult) :
  r ∈ deduplicateAndSort parseFloat allResults -> r ∈ allResults.
Proof.
  unfold deduplicateAndSort.
  rewrite PriceResolver.elem_of_Array_sort, list_elem_of_filter.
  intros [_ H].
  assert (Hfold : forall l acc,
             r ∈ foldl (dedupStep parseFloat) acc l -> r ∈ acc \/ r ∈ l).
  { induction l as [|x l IH]; intros acc; simpl; [tauto|].
    intros Hin. destruct (IH _ Hin) as [Hacc|Hl].
    - unfold dedupStep in Hacc. rewrite elem_of_cons.
      destruct (JS.find _ acc).
      + destruct (JS.Number_gt _ _); [|tauto].
        apply elem_of_replace_first in Hacc. tauto.
      + rewrite elem_of_app, list_elem_of_singleton in Hacc. tauto.
    - right. apply list_elem_of_further, Hl. }
  destruct (Hfold _ _ H) as [Hnil|Hin]; [|exact Hin].
  apply elem_of_nil in Hnil. destruct Hnil.
Qed.

Lemma mapMoralisDexId_supported (pool : MoralisPair) :
  isSupported pool = true ->
  mapMoralisDexId (exchange_name pool) ∈ PoolState.venueIds.
Proof.
  unfold isSupported, mapMoralisDexId, PoolState.venueIds.
  destruct (exchange_name pool) as [exchangeName|]; [|discriminate].
  case_decide; [discriminate|].
  destruct (JS.includes _ "uniswap"), (JS.includes _ "v3"),
    (JS.includes _ "v2"), (JS.includes _ "sushiswap"),
    (JS.includes _ "pancakeswap"); simpl; try discriminate; intros _;
    repeat first [apply list_elem_of_here | apply list_elem_of_further].
Qed.

Lemma getDexPrices_dex (BigInt_Math_sqrt : Z -> option Z) (chain : Chain)
    (tokenA tokenB dexName : string) (r : PoolResult) :
  r ∈ getDexPrices BigInt_Math_sqrt chain tokenA tokenB dexName ->
  dex r = dexName.
Proof.
  unfold getDexPrices. case_decide.
  - rewrite list_elem_of_bind. intros (tier & Hr & _). revert Hr.
    unfold probeFeeTier.
    repeat (match goal with
            | |- context [match ?o with Some _ => _ | None => _ end] =>
                destruct o
            | |- context [if decide ?P then _ else _] => destruct (decide P)
            end;
            try (intros Hr; apply elem_of_nil in Hr; destruct Hr)).
    rewrite list_elem_of_singleton. intros ->. reflexivity.
  - repeat (match goal with
            | |- context [match ?o with Some _ => _ | None => _ end] =>
                destruct o
            | |- context [if decide ?P then _ else _] => destruct (decide P)
            end;
            try (intros Hr; apply elem_of_nil in Hr; destruct Hr)).
    rewrite list_elem_of_singleton. intros ->. reflexivity.
Qed.

(** The venue of every entry [getAllAvailablePrices] returns is one of the
    five venue identifiers, so the keys that [updateSingleTokenPrice] writes
    into [dexPrices] are never index-like. *)
Lemma getAllAvailablePrices_venues (parseFloat : string -> Q)
    (Number_toString : Q -> string) (BigInt_Math_sqrt : Z -> option Z)
    (chain : Chain) (fetch : string -> FetchOutcome)
    (tokenAddress : string) (r : PoolResult) :
  r ∈ getAllAvailablePrices parseFloat Number_toString BigInt_Math_sqrt
        chain fetch tokenAddress ->
  dex r ∈ PoolState.venueIds.
Proof.
  unfold getAllAvailablePrices. case_decide.
  - unfold getDirectDexPools. intros Hr.
    apply deduplicateAndSort_subset in Hr.
    apply list_elem_of_bind in Hr. destruct Hr as (dexName & Hr & Hdex).
    apply list_elem_of_bind in Hr. destruct Hr as (baseToken & Hr & _).
    apply getDexPrices_dex in Hr. rewrite Hr.
    unfold dexesToTry in Hdex. unfold PoolState.venueIds.
    rewrite !elem_of_cons, elem_of_nil in Hdex.
    destruct Hdex as [->|[->|[->|[]]]];
      repeat first [apply list_elem_of_here | apply list_elem_of_further].
  - unfold getMoralisPools. case_decide.
    + intros Hr. apply elem_of_nil in Hr. destruct Hr.
    + set (pools := take 10 _).
      assert (Hpools : Forall (fun pool => isSupported pool = true) pools).
      { subst pools. apply Forall_forall. intros pool Hpool.
        apply elem_of_take in Hpool. destruct Hpool as (i & Hi & _).
        apply list_elem_of_lookup_2, list_elem_of_In, filter_In in Hi.
        apply Hi. }
      assert (Hfold : forall st,
                 Forall (fun r => dex r ∈ PoolState.venueIds) st.2 ->
                 Forall (fun r => dex r ∈ PoolState.venueIds)
                   (foldl (processPool Number_toString chain tokenAddress)
                      st pools).2).
      { induction Hpools as [|pool pools Hpool Hpools IH]; intros st Hst;
          [exact Hst|].
        cbn [foldl]. apply IH. unfold processPool.
        destruct st as [processed results]. simpl in Hst.
        case_decide; [exact Hst|].
        destruct (JS.find _ (pair pool)); [|exact Hst].
        destruct (JS.find _ (pair pool)); [|exact Hst].
        destruct (getTokenPriceFromPool _ _ _); [|exact Hst].
        cbn [snd]. apply Forall_app. split; [exact Hst|].
        apply Forall_singleton. simpl.
        apply mapMoralisDexId_supported, Hpool. }
      specialize (Hfold (∅, []) (Forall_nil_2 _)).
      destruct (foldl _ _ pools) as [processed results]. simpl in Hfold.
      intros Hr. apply deduplicateAndSort_subset in Hr.
      rewrite Forall_forall in Hfold. apply Hfold, Hr.
Qed.

(** C8.  The comparator of [deduplicateAndSort] takes an entry for a WETH
    pair by its reference symbol, the text WETH, and not by its reference
    token.  When the index lists a pool of the target token against a token
    that is not the WETH contract and is named WETH, more liquid than the
    pool against the WETH contract, [getAllAvailablePrices] returns the entry
    that is not priced against WETH before the entry that is. *)
Theorem token_named_WETH_ranks_before_WETH :
  let prices :=
    getAllAvailablePrices Fixtures.parseDecimal Fixtures.printInteger
      Fixtures.noSquareRoot Fixtures.spoofChain Fixtures.spoofReply "0xT" in
  exists first second,
    prices = [first; second]
    /\ poolAddress first = "0xfake" /\ poolAddress second = "0xreal"
    /\ baseToken first = Fixtures.namedWETH
    /\ JS.toLowerCase (baseToken first) <> JS.toLowerCase WETH_ADDRESS
    /\ baseToken second = WETH_ADDRESS
    /\ baseTokenSymbol first = "WETH" /\ baseTokenSymbol second = "WETH"
    /\ liquidity first = "9000" /\ liquidity second = "5000"
    /\ priceInWei first = "1" /\ priceInWei second = "1".
Proof.
  intros prices. subst prices. eexists _, _.
  split; [vm_compute; reflexivity|].
  cbn [poolAddress baseToken baseTokenSymbol liquidity priceInWei].
  repeat split. vm_compute. discriminate.
Qed.

(** C9 with the index down: the three pools of direct discovery are
    returned. *)
Lemma index_failure_falls_back_witness :
  Fixtures.indexDown "0xT" = FetchThrows
  /\ length (getAllAvailablePrices Fixtures.parseDecimal Fixtures.printInteger
               Fixtures.noSquareRoot Fixtures.discoveryChain Fixtures.indexDown
               "0xT") = 3%nat
  /\ getAllAvailablePrices Fixtures.parseDecimal Fixtures.printInteger
       Fixtures.noSquareRoot Fixtures.discoveryChain Fixtures.indexDown "0xT"
     = getDirectDexPools Fixtures.parseDecimal Fixtures.noSquareRoot
         Fixtures.discoveryChain "0xT".
Proof.
  split; [reflexivity|]. split; [vm_compute; reflexivity|].
  apply (index_failure_falls_back Fixtures.parseDecimal Fixtures.printInteger
           Fixtures.noSquareRoot Fixtures.discoveryChain Fixtures.indexDown "0xT").
  left. reflexivity.
Defined.

End PriceAggregator.

(** ** The subscription registry *)

Module SubscriptionRegistry.

Import PricingDurableObject Registry.

Lemma initialState_consistent : consistent initialState.
Proof.
  intros clientId tokenAddress. split.
  - intros (session & Hs & _). simpl in Hs. rewrite lookup_empty in Hs.
    discriminate.
  - intros (subscribers & Hs & Hin). simpl in Hs.
    repeat (rewrite lookup_insert in Hs; destruct (decide _);
            [injection Hs as <-; apply not_elem_of_empty in Hin; destruct Hin|]).
    rewrite lookup_empty in Hs. discriminate.
Qed.

Lemma openSession_consistent clientId webSocket now st :
  sessions st !! clientId = None ->
  consistent st -> consistent (openSession clientId webSocket now st).
Proof.
  intros Hfresh Hst c t. unfold openSession; simpl.
  destruct (decide (c = clientId)) as [->|Hne].
  - rewrite lookup_insert_eq. rewrite <- (Hst clientId t), Hfresh. split.
    + intros (session & [= <-] & Hin). simpl in Hin.
      apply not_elem_of_empty in Hin. destruct Hin.
    + intros (session & Hs & _). discriminate.
  - rewrite lookup_insert_ne by congruence. apply Hst.
Qed.

Lemma subscribe_consistent clientId tokenAddress st :
  consistent st -> consistent (subscribeClientToToken clientId tokenAddress st).
Proof.
  intros Hst c t. unfold subscribeClientToToken.
  destruct (sessions st !! clientId) as [session|] eqn:Hsession; [|apply Hst].
  simpl.
  set (subs1 := match tokenSubscribers st !! tokenAddress with
                | None => <[tokenAddress := ∅]> (tokenSubscribers st)
                | Some _ => tokenSubscribers st
                end).
  assert (Hsubs1 : forall t' c', (exists S, subs1 !! t' = Some S /\ c' ∈ S)
                                 <-> (exists S, tokenSubscribers st !! t' = Some S /\ c' ∈ S)).
  { intros t' c'. subst subs1.
    destruct (tokenSubscribers st !! tokenAddress) eqn:E; [reflexivity|].
    destruct (decide (t' = tokenAddress)) as [->|Hne].
    - rewrite lookup_insert_eq, E. split.
      + intros (S & [= <-] & Hin). apply not_elem_of_empty in Hin. destruct Hin.
      + intros (S & HS & _). discriminate.
    - rewrite lookup_insert_ne by congruence. reflexivity. }
  destruct (decide (t = tokenAddress)) as [->|Ht].
  - rewrite lookup_insert_eq.
    destruct (decide (c = clientId)) as [->|Hc].
    + rewrite lookup_insert_eq. split.
      * intros _. eexists; split; [reflexivity|]. set_solver.
      * intros _. eexists; split; [reflexivity|]. simpl. set_solver.
    + rewrite lookup_insert_ne by congruence.
      rewrite (Hst c tokenAddress), <- (Hsubs1 tokenAddress c). split.
      * intros (S & HS & Hin). eexists; split; [reflexivity|].
        rewrite HS. simpl. set_solver.
      * intros (S & [= <-] & Hin).
        destruct (subs1 !! tokenAddress) as [S0|] eqn:E0; simpl in Hin.
        -- exists S0. split; [reflexivity|]. set_solver.
        -- set_solver.
  - rewrite (lookup_insert_ne _ tokenAddress t) by congruence.
    rewrite Hsubs1, <- (Hst c t).
    destruct (decide (c = clientId)) as [->|Hc].
    + rewrite lookup_insert_eq, Hsession. split.
      * intros (s & [= <-] & Hin). simpl in Hin.
        exists session. split; [reflexivity|]. set_solver.
      * intros (s & [= <-] & Hin). eexists; split; [reflexivity|].
        simpl. set_solver.
    + rewrite lookup_insert_ne by congruence. reflexivity.
Qed.

Lemma unsubscribe_consistent clientId tokenAddress st :
  consistent st -> consistent (unsubscribeClientFromToken clientId tokenAddress st).
Proof.
  intros Hst c t. unfold unsubscribeClientFromToken.
  destruct (sessions st !! clientId) as [session|] eqn:Hsession; [|apply Hst].
  simpl.
  destruct (decide (t = tokenAddress)) as [->|Ht].
  - (* the token unsubscribed from *)
    destruct (decide (c = clientId)) as [->|Hc].
    + rewrite lookup_insert_eq. split.
      * intros (s & [= <-] & Hin). simpl in Hin. set_solver.
      * intros (S & HS & Hin). exfalso.
        destruct (tokenSubscribers st !! tokenAddress) as [S0|] eqn:E0.
        -- case_decide.
           ++ rewrite lookup_delete_eq in HS. discriminate.
           ++ rewrite lookup_insert_eq in HS. injection HS as <-. set_solver.
        -- rewrite E0 in HS. discriminate.
    + rewrite lookup_insert_ne by congruence.
      rewrite (Hst c tokenAddress).
      destruct (tokenSubscribers st !! tokenAddress) as [S0|] eqn:E0.
      * case_decide as Hsize.
        -- rewrite lookup_delete_eq. apply size_empty_inv in Hsize.
           split.
           ++ intros (S & [= <-] & Hin). exfalso. set_solver.
           ++ intros (S & HS & _). discriminate.
        -- rewrite lookup_insert_eq. split.
           ++ intros (S & [= <-] & Hin). eexists; split; [reflexivity|].
              set_solver.
           ++ intros (S & [= <-] & Hin). eexists; split; [reflexivity|].
              set_solver.
      * rewrite E0. reflexivity.
  - (* any other token *)
    assert (Hsubs : (match tokenSubscribers st !! tokenAddress with
                     | Some subscribers =>
                         if decide (size (subscribers ∖ {[clientId]}) = 0%nat)
                         then delete tokenAddress (tokenSubscribers st)
                         else <[tokenAddress := subscribers ∖ {[clientId]}]>
                                (tokenSubscribers st)
                     | None => tokenSubscribers st
                     end) !! t = tokenSubscribers st !! t).
    { destruct (tokenSubscribers st !! tokenAddress); [|reflexivity].
      case_decide.
      - rewrite lookup_delete_ne by congruence. reflexivity.
      - rewrite lookup_insert_ne by congruence. reflexivity. }
    rewrite Hsubs, <- (Hst c t).
    destruct (decide (c = clientId)) as [->|Hc].
    + rewrite lookup_insert_eq, Hsession. split.
      * intros (s & [= <-] & Hin). simpl in Hin.
        exists session. split; [reflexivity|]. set_solver.
      * intros (s & [= <-] & Hin). eexists; split; [reflexivity|].
        simpl. set_solver.
    + rewrite lookup_insert_ne by congruence. reflexivity.
Qed.

(** The loop of [removeClient]. *)
Lemma unsubscribe_all clientId (tokenAddresses : list string) :
  forall st session,
    sessions st !! clientId = Some session ->
    let st' := foldl (fun st tokenAddress =>
                        unsubscribeClientFromToken clientId tokenAddress st)
                     st tokenAddresses in
    (exists session',
        sessions st' !! clientId = Some session'
        /\ subscribedTokens session'
           = subscribedTokens session ∖ list_to_set tokenAddresses)
    /\ (forall c, c <> clientId -> sessions st' !! c = sessions st !! c)
    /\ tokenRegistry st' = tokenRegistry st
    /\ (consistent st -> consistent st').
Proof.
  induction tokenAddresses as [|t rest IH]; intros st session Hsession; simpl.
  - split; [|tauto]. exists session. split; [exact Hsession|]. set_solver.
  - set (st1 := unsubscribeClientFromToken clientId t st).
    assert (Hs1 : sessions st1 !! clientId
                  = Some {| id := id session;
                            webSocket := webSocket session;
                            subscribedTokens := subscribedTokens session ∖ {[ t ]};
                            lastActivity := lastActivity session |}).
    { subst st1. unfold unsubscribeClientFromToken. rewrite Hsession. simpl.
      apply lookup_insert_eq. }
    assert (Ho1 : forall c, c <> clientId -> sessions st1 !! c = sessions st !! c).
    { intros c Hc. subst st1. unfold unsubscribeClientFromToken.
      rewrite Hsession. simpl. apply lookup_insert_ne. congruence. }
    assert (Hr1 : tokenRegistry st1 = tokenRegistry st).
    { subst st1. unfold unsubscribeClientFromToken. rewrite Hsession.
      reflexivity. }
    destruct (IH st1 _ Hs1) as ((session' & Hs' & Hsub') & Ho' & Hr' & Hc').
    split; [|split; [|split]].
    + exists session'. split; [exact Hs'|]. rewrite Hsub'. simpl. set_solver.
    + intros c Hc. rewrite Ho' by exact Hc. apply Ho1, Hc.
    + congruence.
    + intros Hst. apply Hc'. apply unsubscribe_consistent, Hst.
Qed.

Lemma removeClient_sessions clientId st c :
  c <> clientId -> sessions (removeClient clientId st) !! c = sessions st !! c.
Proof.
  intros Hc. unfold removeClient.
  destruct (sessions st !! clientId) as [session|] eqn:Hsession; [|reflexivity].
  simpl. rewrite lookup_delete_ne by congruence.
  apply (unsubscribe_all clientId _ st session Hsession), Hc.
Qed.

Lemma removeClient_tokenRegistry clientId st :
  tokenRegistry (removeClient clientId st) = tokenRegistry st.
Proof.
  unfold removeClient.
  destruct (sessions st !! clientId) as [session|] eqn:Hsession; [|reflexivity].
  simpl. apply (unsubscribe_all clientId _ st session Hsession).
Qed.

Lemma removeClient_consistent clientId st :
  consistent st -> consistent (removeClient clientId st).
Proof.
  intros Hst. unfold removeClient.
  destruct (sessions st !! clientId) as [session|] eqn:Hsession; [|exact Hst].
  destruct (unsubscribe_all clientId (elements (subscribedTokens session))
              st session Hsession)
    as ((session' & Hs' & Hsub') & Ho' & Hr' & Hc').
  set (st' := foldl _ st _) in *. specialize (Hc' Hst).
  intros c t. simpl. rewrite <- (Hc' c t).
  destruct (decide (c = clientId)) as [->|Hc].
  - rewrite lookup_delete_eq, Hs'. split.
    + intros (s & Hs & _). discriminate.
    + intros (s & [= <-] & Hin). exfalso. rewrite Hsub' in Hin.
      rewrite elem_of_difference, elem_of_list_to_set, elem_of_elements in Hin.
      tauto.
  - rewrite lookup_delete_ne by congruence. reflexivity.
Qed.

End SubscriptionRegistry.

(** ** Refresh and fan-out *)

Module UpdateScheduler.

Import PricingDurableObject Registry SubscriptionRegistry.

(** *** One token *)

Lemma updateSingleTokenPrice_sessions priceService now tokenAddress st :
  sessions (updateSingleTokenPrice priceService now tokenAddress st).1
  = sessions st.
Proof.
  unfold updateSingleTokenPrice.
  destruct priceService as [service|]; [|reflexivity].
  destruct (tokenRegistry st !! tokenAddress); [|reflexivity].
  destruct (service tokenAddress); [|reflexivity].
  destruct (initialized _); [|reflexivity].
  destruct (bool_decide _); reflexivity.
Qed.

Lemma updateSingleTokenPrice_tokenSubscribers priceService now tokenAddress st :
  tokenSubscribers (updateSingleTokenPrice priceService now tokenAddress st).1
  = tokenSubscribers st.
Proof.
  unfold updateSingleTokenPrice.
  destruct priceService as [service|]; [|reflexivity].
  destruct (tokenRegistry st !! tokenAddress); [|reflexivity].
  destruct (service tokenAddress); [|reflexivity].
  destruct (initialized _); [|reflexivity].
  destruct (bool_decide _); reflexivity.
Qed.

Lemma updateSingleTokenPrice_other priceService now tokenAddress st other :
  other <> tokenAddress ->
  tokenRegistry (updateSingleTokenPrice priceService now tokenAddress st).1
    !! other
  = tokenRegistry st !! other.
Proof.
  intros Hne. unfold updateSingleTokenPrice.
  destruct priceService as [service|]; [|reflexivity].
  destruct (tokenRegistry st !! tokenAddress); [|reflexivity].
  destruct (service tokenAddress).
  - destruct (initialized _); [destruct (bool_decide _)|]; simpl;
      apply lookup_insert_ne; congruence.
  - simpl. apply lookup_insert_ne. congruence.
Qed.

(** The outcome for a token depends on the state through the token's own
    record only. *)
Lemma updateSingleTokenPrice_local priceService now tokenAddress st1 st2 :
  tokenRegistry st1 !! tokenAddress = tokenRegistry st2 !! tokenAddress ->
  (updateSingleTokenPrice priceService now tokenAddress st1).2
  = (updateSingleTokenPrice priceService now tokenAddress st2).2
  /\ tokenRegistry (updateSingleTokenPrice priceService now tokenAddress st1).1
       !! tokenAddress
     = tokenRegistry (updateSingleTokenPrice priceService now tokenAddress st2).1
         !! tokenAddress.
Proof.
  intros Hsame. unfold updateSingleTokenPrice.
  destruct priceService as [service|]; [|split; [reflexivity|exact Hsame]].
  rewrite Hsame.
  destruct (tokenRegistry st2 !! tokenAddress) as [tokenInfo|] eqn:E;
    [|split; [reflexivity|simpl; congruence]].
  destruct (service tokenAddress).
  - destruct (initialized tokenInfo); [destruct (bool_decide _)|]; simpl;
      rewrite !lookup_insert_eq; split; reflexivity.
  - simpl. rewrite !lookup_insert_eq. split; reflexivity.
Qed.

Lemma updateSingleTokenPrice_uninitialized priceService now tokenAddress st
    tokenInfo :
  tokenRegistry st !! tokenAddress = Some tokenInfo ->
  initialized tokenInfo = false ->
  (updateSingleTokenPrice priceService now tokenAddress st).2 = false.
Proof.
  intros Hinfo Hinit. unfold updateSingleTokenPrice.
  destruct priceService as [service|]; [|reflexivity].
  rewrite Hinfo. destruct (service tokenAddress); [|reflexivity].
  rewrite Hinit. reflexivity.
Qed.

Lemma updateSingleTokenPrice_changed priceService now tokenAddress st :
  (updateSingleTokenPrice priceService now tokenAddress st).2 = true ->
  exists tokenInfo,
    tokenRegistry st !! tokenAddress = Some tokenInfo
    /\ initialized tokenInfo = true.
Proof.
  unfold updateSingleTokenPrice.
  destruct priceService as [service|]; [|discriminate].
  destruct (tokenRegistry st !! tokenAddress) as [tokenInfo|]; [|discriminate].
  destruct (service tokenAddress); [|discriminate].
  destruct (initialized tokenInfo) eqn:E; [|discriminate].
  intros _. exists tokenInfo. split; [reflexivity|exact E].
Qed.

(** *** The printed form of a price map determines the map *)

Lemma DexPriceInfo_toJSON_inj (d1 d2 : DexPriceInfo.t) :
  DexPriceInfo_toJSON d1 = DexPriceInfo_toJSON d2 -> d1 = d2.
Proof.
  destruct d1 as [p1 a1 l1 [f1|] [e1|] u1], d2 as [p2 a2 l2 [f2|] [e2|] u2];
    unfold DexPriceInfo_toJSON; simpl; intros H; injection H; intros;
    try discriminate; subst; reflexivity.
Qed.

Lemma JSON_stringify_inj (m1 m2 : list (string * DexPriceInfo.t)) :
  JSON_stringify m1 = JSON_stringify m2 -> m1 = m2.
Proof.
  unfold JSON_stringify.
  assert (Hinj : Inj (=) (=)
                   (fun kv : string * DexPriceInfo.t =>
                      (kv.1, DexPriceInfo_toJSON kv.2))).
  { intros [k1 d1] [k2 d2] H. apply pair_equal_spec in H.
    cbn [fst snd] in H. destruct H as [-> H].
    f_equal. apply DexPriceInfo_toJSON_inj, H. }
  intros H. eapply (inj (fmap _)). exact H.
Qed.

(** *** A pass over the active tokens *)

Lemma settleAll_spec priceService now (tokenAddresses : list string) :
  NoDup tokenAddresses ->
  forall st results,
    let outcome :=
      foldl (fun '(st, results) tokenAddress =>
               let '(st, changed) :=
                 updateSingleTokenPrice priceService (now tokenAddress)
                   tokenAddress st in
               (st, results ++ [(tokenAddress, changed)]))
            (st, results) tokenAddresses in
    outcome.2
    = results
      ++ ((fun tokenAddress =>
             (tokenAddress,
              (updateSingleTokenPrice priceService (now tokenAddress)
                 tokenAddress st).2)) <$> tokenAddresses)
    /\ sessions outcome.1 = sessions st
    /\ tokenSubscribers outcome.1 = tokenSubscribers st
    /\ (forall other, other ∉ tokenAddresses ->
                      tokenRegistry outcome.1 !! other = tokenRegistry st !! other).
Proof.
  induction 1 as [|t rest Hnotin Hnodup IH]; intros st results; simpl.
  - rewrite app_nil_r. tauto.
  - destruct (updateSingleTokenPrice priceService (now t) t st)
      as [st1 changed] eqn:E1.
    specialize (IH st1 (results ++ [(t, changed)])). simpl in IH.
    destruct IH as (Hres & Hsess & Hsubs & Hreg).
    assert (Est1 : st1 = (updateSingleTokenPrice priceService (now t) t st).1)
      by (rewrite E1; reflexivity).
    split; [|split; [|split]].
    + rewrite Hres, <- app_assoc. f_equal. simpl. f_equal.
      apply list_fmap_ext. intros i other Hother. f_equal.
      apply updateSingleTokenPrice_local. rewrite Est1.
      apply updateSingleTokenPrice_other.
      intros ->. apply Hnotin. eapply list_elem_of_lookup_2, Hother.
    + rewrite Hsess, Est1. apply updateSingleTokenPrice_sessions.
    + rewrite Hsubs, Est1. apply updateSingleTokenPrice_tokenSubscribers.
    + intros other Hother. rewrite not_elem_of_cons in Hother.
      rewrite Hreg by tauto. rewrite Est1.
      apply updateSingleTokenPrice_other. tauto.
Qed.

Lemma settleAll_results priceService now st :
  (settleAll priceService now (activeTokens st) st).2
  = (fun tokenAddress =>
       (tokenAddress,
        (updateSingleTokenPrice priceService (now tokenAddress)
           tokenAddress st).2)) <$> activeTokens st.
Proof.
  unfold settleAll.
  apply (settleAll_spec priceService now (activeTokens st)
           (NoDup_elements _) st []).
Qed.

Lemma settleAll_sessions priceService now st :
  sessions (settleAll priceService now (activeTokens st) st).1 = sessions st.
Proof.
  unfold settleAll.
  apply (settleAll_spec priceService now (activeTokens st)
           (NoDup_elements _) st []).
Qed.

Lemma settleAll_tokenSubscribers priceService now st :
  tokenSubscribers (settleAll priceService now (activeTokens st) st).1
  = tokenSubscribers st.
Proof.
  unfold settleAll.
  apply (settleAll_spec priceService now (activeTokens st)
           (NoDup_elements _) st []).
Qed.

Lemma settleAll_consistent priceService now st :
  consistent st ->
  consistent (settleAll priceService now (activeTokens st) st).1.
Proof.
  intros Hst c t.
  rewrite settleAll_sessions, settleAll_tokenSubscribers. apply Hst.
Qed.

(** *** The fan-out *)

Lemma elem_of_allClientIds st clientId :
  clientId ∈ allClientIds st <->
  exists tokenAddress subscribers,
    tokenSubscribers st !! tokenAddress = Some subscribers
    /\ clientId ∈ subscribers.
Proof.
  unfold allClientIds. rewrite elem_of_union_list. split.
  - intros (S & HS & Hin). apply list_elem_of_fmap in HS.
    destruct HS as ([t S'] & -> & HS). apply elem_of_map_to_list in HS.
    exists t, S'. split; assumption.
  - intros (t & S & HS & Hin). exists S. split; [|exact Hin].
    apply list_elem_of_fmap. exists (t, S). split; [reflexivity|].
    apply elem_of_map_to_list, HS.
Qed.

Lemma subscribedTokenData_registry st1 st2 session :
  tokenRegistry st1 = tokenRegistry st2 ->
  subscribedTokenData st1 session = subscribedTokenData st2 session.
Proof. unfold subscribedTokenData. intros ->. reflexivity. Qed.

Lemma notify_fold now (clientIds : list string) :
  NoDup clientIds ->
  forall st sent,
    let outcome := foldl (notifyClient now) (st, sent) clientIds in
    tokenRegistry outcome.1 = tokenRegistry st
    /\ (forall c, c ∉ clientIds -> sessions outcome.1 !! c = sessions st !! c)
    /\ (consistent st -> consistent outcome.1)
    /\ (forall c message,
           (c, message) ∈ outcome.2 <->
           (c, message) ∈ sent
           \/ (c ∈ clientIds
               /\ exists session,
                   sessions st !! c = Some session
                   /\ readyState (webSocket session) = OPEN
                   /\ sendThrows (webSocket session) = false
                   /\ message = pushFor st session now)).
Proof.
  induction 1 as [|c0 rest Hnotin Hnodup IH]; intros st sent; cbn [foldl].
  - split; [reflexivity|]. split; [reflexivity|]. split; [tauto|].
    intros c message. split; [tauto|].
    intros [H|[H _]]; [exact H|]. apply elem_of_nil in H. destruct H.
  - set (step := notifyClient now (st, sent) c0).
    assert (Hstep :
              tokenRegistry step.1 = tokenRegistry st
              /\ (forall c, c <> c0 -> sessions step.1 !! c = sessions st !! c)
              /\ (consistent st -> consistent step.1)
              /\ (forall c message,
                     (c, message) ∈ step.2 <->
                     (c, message) ∈ sent
                     \/ (c = c0
                         /\ exists session,
                             sessions st !! c = Some session
                             /\ readyState (webSocket session) = OPEN
                             /\ sendThrows (webSocket session) = false
                             /\ message = pushFor st session now))).
    { subst step. unfold notifyClient.
      destruct (sessions st !! c0) as [session|] eqn:Hsession.
      - destruct (decide (readyState (webSocket session) = OPEN)) as [Hopen|Hopen].
        + destruct (sendThrows (webSocket session)) eqn:Hthrows; simpl.
          * split; [apply removeClient_tokenRegistry|].
            split; [intros c Hc; apply removeClient_sessions, Hc|].
            split; [apply removeClient_consistent|].
            intros c message. split; [tauto|].
            intros [H|(-> & s & Hs & _ & Hs2 & _)]; [exact H|]. congruence.
          * split; [reflexivity|]. split; [reflexivity|]. split; [tauto|].
            intros c message. rewrite elem_of_app, list_elem_of_singleton.
            split.
            -- intros [H|[= -> ->]]; [tauto|]. right. split; [reflexivity|].
               exists session. repeat split; assumption.
            -- intros [H|(-> & s & Hs & _ & _ & ->)]; [tauto|]. right.
               assert (s = session) as -> by congruence. reflexivity.
        + simpl. split; [reflexivity|]. split; [reflexivity|]. split; [tauto|].
          intros c message. split; [tauto|].
          intros [H|(-> & s & Hs & Ho & _)]; [exact H|]. congruence.
      - simpl. split; [reflexivity|]. split; [reflexivity|]. split; [tauto|].
        intros c message. split; [tauto|].
        intros [H|(-> & s & Hs & _)]; [exact H|]. congruence. }
    destruct Hstep as (Hreg1 & Hsess1 & Hcons1 & Hsent1).
    clearbody step. destruct step as [st1 sent1]. simpl in *.
    destruct (IH st1 sent1) as (Hreg & Hsess & Hcons & Hsent).
    split; [congruence|]. split; [|split; [tauto|]].
    + intros c Hc. rewrite not_elem_of_cons in Hc.
      rewrite Hsess by tauto. apply Hsess1. tauto.
    + intros c message. rewrite Hsent, Hsent1, elem_of_cons. split.
      * intros [[H|(-> & H)]|(Hin & s & Hs & Ho & Ht & ->)].
        -- tauto.
        -- right. split; [left; reflexivity|exact H].
        -- right. split; [right; exact Hin|].
           assert (c <> c0) by (intros ->; contradiction).
           exists s. rewrite <- Hsess1 by assumption.
           repeat split; try assumption.
           unfold pushFor. f_equal.
           apply subscribedTokenData_registry, Hreg1.
      * intros [H|([->|Hin] & s & Hs & Ho & Ht & ->)].
        -- tauto.
        -- left. right. split; [reflexivity|]. exists s.
           repeat split; assumption.
        -- right. split; [exact Hin|].
           assert (c <> c0) by (intros ->; contradiction).
           exists s. rewrite Hsess1 by assumption.
           repeat split; try assumption.
           unfold pushFor. f_equal. symmetry.
           apply subscribedTokenData_registry, Hreg1.
Qed.

Lemma notifyAllClients_sent now st clientId message :
  (clientId, message) ∈ (notifyAllClients now st).2 <->
  clientId ∈ allClientIds st
  /\ exists session,
      sessions st !! clientId = Some session
      /\ readyState (webSocket session) = OPEN
      /\ sendThrows (webSocket session) = false
      /\ message = pushFor st session now.
Proof.
  unfold notifyAllClients.
  destruct (notify_fold now (elements (allClientIds st)) (NoDup_elements _) st [])
    as (_ & _ & _ & Hsent).
  rewrite Hsent, elem_of_elements. split; [|tauto].
  intros [H|H]; [|exact H]. apply elem_of_nil in H. destruct H.
Qed.

Lemma notifyAllClients_consistent now st :
  consistent st -> consistent (notifyAllClients now st).1.
Proof.
  unfold notifyAllClients.
  apply (notify_fold now (elements (allClientIds st)) (NoDup_elements _) st []).
Qed.

Lemma updateAllActivePrices_consistent priceService now notifyTime st :
  consistent st ->
  consistent (updateAllActivePrices priceService now notifyTime st).1.1.
Proof.
  intros Hst. unfold updateAllActivePrices.
  pose proof (settleAll_consistent priceService now st Hst) as H1.
  destruct (settleAll priceService now (activeTokens st) st) as [st1 results].
  simpl in H1. destruct (existsb _ results); [|exact H1].
  pose proof (notifyAllClients_consistent notifyTime st1 H1) as H2.
  destruct (notifyAllClients notifyTime st1) as [st2 sent]. exact H2.
Qed.

Lemma updateAllActivePrices_results priceService now notifyTime st :
  (updateAllActivePrices priceService now notifyTime st).1.2
  = (settleAll priceService now (activeTokens st) st).2.
Proof.
  unfold updateAllActivePrices.
  destruct (settleAll priceService now (activeTokens st) st) as [st1 results].
  destruct (existsb _ results); [|reflexivity].
  destruct (notifyAllClients notifyTime st1). reflexivity.
Qed.

Lemma updateAllActivePrices_sent priceService now notifyTime st :
  (updateAllActivePrices priceService now notifyTime st).2
  = if existsb (fun result => result.2)
         (settleAll priceService now (activeTokens st) st).2
    then (notifyAllClients notifyTime
            (settleAll priceService now (activeTokens st) st).1).2
    else [].
Proof.
  unfold updateAllActivePrices.
  destruct (settleAll priceService now (activeTokens st) st) as [st1 results].
  simpl. destruct (existsb _ results); [|reflexivity].
  destruct (notifyAllClients notifyTime st1). reflexivity.
Qed.

Lemma hasChanges_spec (results : list (string * bool)) :
  existsb (fun result => result.2) results = true <->
  exists tokenAddress, (tokenAddress, true) ∈ results.
Proof.
  rewrite existsb_exists. split.
  - intros ([t b] & Hin & Hb). simpl in Hb. subst b. exists t.
    apply list_elem_of_In, Hin.
  - intros (t & Hin). exists (t, true). split; [|reflexivity].
    apply list_elem_of_In, Hin.
Qed.

(** C1, as the claim states it, fails.  After the baseline pass the rate of
    [0xX] moves from 100 to 200 and no other token changes; session [s2]
    follows [0xY] only, and a push is sent to it all the same. *)
Lemma fanout_reaches_disjoint_session :
  let outcome :=
    updateAllActivePrices (Some (Fixtures.quotes "200")) (fun _ => 2000) 2001
      Fixtures.baseline in
  (forall tokenAddress,
      (tokenAddress, true) ∈ outcome.1.2 <-> tokenAddress = "0xX")
  /\ (exists session,
         sessions Fixtures.baseline !! "s2" = Some session
         /\ elements (subscribedTokens session) = ["0xY"])
  /\ outcome.2.*1 = ["s1"; "s2"].
Proof.
  intros outcome. split; [|split].
  - intros tokenAddress.
    assert (Hresults :
              outcome.1.2
              = [ ("0xC02aaA39b223FE8D0A0e5C4F27eAD9083C756Cc2", false);
                  ("0xY", false);
                  ("0x1f9840a85d5aF5bf1D1762F925BDADdC4201F984", false);
                  ("0x2260FAC5E5542a773Aa44fBCfeDf7C193bc2C599", false);
                  ("0xX", true) ])
      by (vm_compute; reflexivity).
    rewrite Hresults. rewrite !elem_of_cons, elem_of_nil. split.
    + intros [H|[H|[H|[H|[H|[]]]]]]; congruence.
    + intros ->. do 4 right. left. reflexivity.
  - eexists. split; vm_compute; reflexivity.
  - vm_compute. reflexivity.
Qed.

(** C1, amended.  When some token changed in a refresh pass, a push goes to
    every session that subscribes to at least one token, changed or not,
    and whose channel is open and accepts it, and to no one else; the push
    lists the refreshed records of the tokens of that session's own
    subscription set, and of no other token.  When no token changed
    nothing is sent. *)
Theorem fanout_recipients priceService now notifyTime st :
  let outcome := updateAllActivePrices priceService now notifyTime st in
  let refreshed := (settleAll priceService now (activeTokens st) st).1 in
  (forall clientId message,
      (clientId, message) ∈ outcome.2 <->
      (exists tokenAddress, (tokenAddress, true) ∈ outcome.1.2)
      /\ (exists tokenAddress subscribers,
             tokenSubscribers st !! tokenAddress = Some subscribers
             /\ clientId ∈ subscribers)
      /\ exists session,
          sessions st !! clientId = Some session
          /\ readyState (webSocket session) = OPEN
          /\ sendThrows (webSocket session) = false
          /\ message = pushFor refreshed session notifyTime)
  /\ (forall session tokenInfo,
         tokenInfo ∈ data (pushFor refreshed session notifyTime) <->
         exists tokenAddress,
           tokenAddress ∈ subscribedTokens session
           /\ tokenRegistry refreshed !! tokenAddress = Some tokenInfo).
Proof.
  intros outcome refreshed. split.
  - intros clientId message. subst outcome.
    rewrite updateAllActivePrices_results, updateAllActivePrices_sent.
    rewrite <- hasChanges_spec. fold refreshed.
    destruct (existsb _ _).
    + rewrite notifyAllClients_sent, elem_of_allClientIds.
      subst refreshed.
      rewrite settleAll_tokenSubscribers, settleAll_sessions. tauto.
    + split; [intros H; apply elem_of_nil in H; destruct H|].
      intros (H & _). discriminate.
  - intros session tokenInfo. unfold pushFor, subscribedTokenData. simpl.
    rewrite list_elem_of_omap. split.
    + intros (a & Ha & Hreg). exists a. split; [|exact Hreg].
      apply elem_of_elements, Ha.
    + intros (a & Ha & Hreg). exists a. split; [|exact Hreg].
      apply elem_of_elements, Ha.
Qed.

(** C1, amended, at the pass in which only [0xX] changes: session [s2]
    receives a push, which lists [0xY] alone. *)
Lemma fanout_recipients_witness :
  let outcome :=
    updateAllActivePrices (Some (Fixtures.quotes "200")) (fun _ => 2000) 2001
      Fixtures.baseline in
  exists message,
    ("s2", message) ∈ outcome.2 /\ address <$> data message = ["0xY"].
Proof.
  intros outcome.
  exists (pushFor
            (settleAll (Some (Fixtures.quotes "200")) (fun _ => 2000)
               (activeTokens Fixtures.baseline) Fixtures.baseline).1
            {| id := "s2"; webSocket := Fixtures.openSocket;
               subscribedTokens := {[ "0xY" ]}; lastActivity := 0 |}
            2001).
  split; [|vm_compute; reflexivity].
  apply (proj1 (fanout_recipients (Some (Fixtures.quotes "200"))
                  (fun _ => 2000) 2001 Fixtures.baseline)).
  split; [|split].
  - exists "0xX". vm_compute.
    repeat first [apply list_elem_of_here | apply list_elem_of_further].
  - exists "0xY", {[ "s2" ]}. split; [vm_compute; reflexivity|].
    apply elem_of_singleton. reflexivity.
  - eexists. split; [vm_compute; reflexivity|].
    split; [reflexivity|]. split; reflexivity.
Defined.

(** Every entry of a freshly written price map carries the instant of the
    refresh, so the same prices written at two different instants print
    differently. *)
Lemma assoc_set_Forall {V} (P : string * V -> Prop) (k : string) (v : V)
    (l : list (string * V)) :
  P (k, v) -> Forall P l -> Forall P (JS.assoc_set k v l).
Proof.
  intros Hkv Hl. induction Hl as [|[k' v'] l Hx Hl IH]; simpl.
  - repeat constructor. exact Hkv.
  - case_decide; constructor; assumption.
Qed.

Lemma assoc_set_nonempty {V} (k : string) (v : V) (l : list (string * V)) :
  JS.assoc_set k v l <> [].
Proof. destruct l as [|[k' v'] l]; simpl; [|case_decide]; discriminate. Qed.

Lemma foldl_assoc_set_Forall {A V} (P : string * V -> Prop)
    (key : A -> string) (val : A -> V) (l : list A) :
  (forall x, P (key x, val x)) ->
  forall acc, Forall P acc ->
              Forall P (foldl (fun acc x => JS.assoc_set (key x) (val x) acc) acc l).
Proof.
  intros Hkv. induction l as [|x l IH]; intros acc Hacc; [exact Hacc|].
  cbn [foldl]. apply IH, assoc_set_Forall; [apply Hkv|exact Hacc].
Qed.

Lemma foldl_assoc_set_nonempty {A V} (key : A -> string) (val : A -> V)
    (l : list A) :
  forall acc, acc <> [] \/ l <> [] ->
              foldl (fun acc x => JS.assoc_set (key x) (val x) acc) acc l <> [].
Proof.
  induction l as [|x l IH]; intros acc Hne; cbn [foldl].
  - destruct Hne as [Hne|Hne]; [exact Hne|congruence].
  - apply IH. left. apply assoc_set_nonempty.
Qed.

Lemma populatePrices_stamp (now : Z) (prices : list PriceUtils.PoolResult) :
  Forall (fun kv => DexPriceInfo.lastUpdate kv.2 = now)
    (populatePrices now prices).
Proof.
  unfold populatePrices.
  apply (foldl_assoc_set_Forall
           (fun kv : string * DexPriceInfo.t => DexPriceInfo.lastUpdate kv.2 = now)
           PriceUtils.dex).
  - intros x. reflexivity.
  - constructor.
Qed.

Lemma populatePrices_nonempty (now : Z) (prices : list PriceUtils.PoolResult) :
  prices <> [] -> populatePrices now prices <> [].
Proof.
  intros Hne. unfold populatePrices.
  apply (foldl_assoc_set_nonempty PriceUtils.dex). right. exact Hne.
Qed.

Lemma same_prices_later_instant_is_change (service : PriceService)
    (now1 now2 : Z) (tokenAddress : string) (st : State)
    (tokenInfo : TokenInfo) (prices : list PriceUtils.PoolResult) :
  tokenRegistry st !! tokenAddress = Some tokenInfo ->
  initialized tokenInfo = true ->
  dexPrices tokenInfo = populatePrices now1 prices ->
  service tokenAddress = Fulfilled prices ->
  prices <> [] -> now1 <> now2 ->
  (updateSingleTokenPrice (Some service) now2 tokenAddress st).2 = true.
Proof.
  intros Hinfo Hinit Hold Hservice Hne Hclock.
  unfold updateSingleTokenPrice. rewrite Hinfo, Hservice, Hinit. simpl.
  rewrite bool_decide_true; [reflexivity|].
  intros Heq. apply JSON_stringify_inj in Heq. rewrite Hold in Heq.
  pose proof (populatePrices_stamp now1 prices) as H1.
  pose proof (populatePrices_stamp now2 prices) as H2.
  pose proof (populatePrices_nonempty now1 prices Hne) as Hne1.
  rewrite <- Heq in H2.
  destruct (populatePrices now1 prices) as [|kv rest]; [congruence|].
  apply Forall_cons_1 in H1, H2. destruct H1 as [H1 _], H2 as [H2 _].
  congruence.
Qed.

(** C3.  A refresh that computes the very prices already stored is reported
    as a change once the clock has moved: token [0xX] was priced at instant
    1000, the same pool at the same rate is found at instant 2000, the
    refresh returns true and the pass notifies the sessions. *)
Theorem unchanged_prices_reported_as_change :
  let service := Fixtures.quotes "100" in
  (exists tokenInfo,
      tokenRegistry Fixtures.baseline !! "0xX" = Some tokenInfo
      /\ initialized tokenInfo = true
      /\ priceSet (dexPrices tokenInfo)
         = priceSet (populatePrices 2000 [Fixtures.quote "100"]))
  /\ (updateSingleTokenPrice (Some service) 2000 "0xX" Fixtures.baseline).2
     = true
  /\ (updateAllActivePrices (Some service) (fun _ => 2000) 2001
        Fixtures.baseline).2.*1
     = ["s1"; "s2"].
Proof.
  intros service. split; [|split].
  - eexists. split; [vm_compute; reflexivity|].
    split; vm_compute; reflexivity.
  - vm_compute. reflexivity.
  - vm_compute. reflexivity.
Qed.

(** C5.  A refresh of a token whose record is not yet initialized never
    returns true, so that in a pass only tokens that were initialized
    before it can be reported as changed, and a pass that reports no change
    sends nothing; once a token has been loaded, a refresh that computes
    another price set for it returns true. *)
Theorem first_refresh_is_baseline :
  (forall priceService now tokenAddress st tokenInfo,
      tokenRegistry st !! tokenAddress = Some tokenInfo ->
      initialized tokenInfo = false ->
      (updateSingleTokenPrice priceService now tokenAddress st).2 = false)
  /\ (forall priceService now notifyTime st tokenAddress,
         (tokenAddress, true)
           ∈ (updateAllActivePrices priceService now notifyTime st).1.2 ->
         exists tokenInfo,
           tokenRegistry st !! tokenAddress = Some tokenInfo
           /\ initialized tokenInfo = true)
  /\ (forall priceService now notifyTime st,
         (forall tokenAddress,
             (tokenAddress, true)
               ∉ (updateAllActivePrices priceService now notifyTime st).1.2) ->
         (updateAllActivePrices priceService now notifyTime st).2 = [])
  /\ (forall service1 service2 now1 now2 tokenAddress st tokenInfo
             prices1 prices2,
         tokenRegistry st !! tokenAddress = Some tokenInfo ->
         initialized tokenInfo = false ->
         service1 tokenAddress = Fulfilled prices1 ->
         service2 tokenAddress = Fulfilled prices2 ->
         priceSet (populatePrices now1 prices1)
         <> priceSet (populatePrices now2 prices2) ->
         let st1 :=
           (updateSingleTokenPrice (Some service1) now1 tokenAddress st).1 in
         (updateSingleTokenPrice (Some service2) now2 tokenAddress st1).2
         = true).
Proof.
  split; [|split; [|split]].
  - intros. eapply updateSingleTokenPrice_uninitialized; eauto.
  - intros priceService now notifyTime st tokenAddress.
    rewrite updateAllActivePrices_results, settleAll_results.
    rewrite list_elem_of_fmap. intros (t & [= -> Hchanged] & _).
    eapply updateSingleTokenPrice_changed. symmetry. exact Hchanged.
  - intros priceService now notifyTime st Hnone.
    rewrite updateAllActivePrices_results in Hnone.
    rewrite updateAllActivePrices_sent.
    destruct (existsb _ _) eqn:E; [|reflexivity].
    apply hasChanges_spec in E. destruct E as (t & Hin).
    destruct (Hnone t Hin).
  - intros service1 service2 now1 now2 tokenAddress st tokenInfo
      prices1 prices2 Hinfo Hinit H1 H2 Hdiff st1.
    subst st1. unfold updateSingleTokenPrice at 2.
    unfold updateSingleTokenPrice. rewrite Hinfo, H1, Hinit. simpl.
    rewrite lookup_insert_eq, H2. simpl.
    rewrite bool_decide_true; [reflexivity|].
    intros Heq. apply JSON_stringify_inj in Heq. apply Hdiff.
    rewrite Heq. reflexivity.
Qed.

(** C5 on token [0xX]: the first load at rate 100 returns false, the next
    one at rate 200 returns true. *)
Lemma first_refresh_is_baseline_witness :
  (updateSingleTokenPrice (Some (Fixtures.quotes "100")) 1000 "0xX"
     Fixtures.twoSessions).2 = false
  /\ (updateSingleTokenPrice (Some (Fixtures.quotes "200")) 2000 "0xX"
        (updateSingleTokenPrice (Some (Fixtures.quotes "100")) 1000 "0xX"
           Fixtures.twoSessions).1).2 = true.
Proof.
  destruct first_refresh_is_baseline as (Hfirst & _ & _ & Hsecond).
  split.
  - eapply (Hfirst (Some (Fixtures.quotes "100")) 1000 "0xX"
              Fixtures.twoSessions).
    + vm_compute. reflexivity.
    + reflexivity.
  - eapply (Hsecond (Fixtures.quotes "100") (Fixtures.quotes "200") 1000 2000
              "0xX" Fixtures.twoSessions).
    + vm_compute. reflexivity.
    + reflexivity.
    + reflexivity.
    + reflexivity.
    + vm_compute. discriminate.
Defined.

(** C10.  When the request for a token's prices fails, the refresh returns
    false, stamps the record with the current instant and marks it
    initialized; a record without prices receives the single entry
    [error], which carries the failure, and a record with prices keeps
    them as they were. *)
Theorem failed_refresh_keeps_or_marks (service : PriceService) (now : Z)
    (tokenAddress : string) (st : State) (tokenInfo : TokenInfo)
    (reason : string) :
  tokenRegistry st !! tokenAddress = Some tokenInfo ->
  service tokenAddress = Rejected reason ->
  let outcome := updateSingleTokenPrice (Some service) now tokenAddress st in
  outcome.2 = false
  /\ exists tokenInfo',
      tokenRegistry outcome.1 !! tokenAddress = Some tokenInfo'
      /\ lastUpdate tokenInfo' = now
      /\ initialized tokenInfo' = true
      /\ (dexPrices tokenInfo = [] ->
          exists entry,
            dexPrices tokenInfo' = [("error", entry)]
            /\ DexPriceInfo.error entry
               = Some ("Failed to fetch prices: " +:+ reason)
            /\ DexPriceInfo.priceInWei entry = "0")
      /\ (dexPrices tokenInfo <> [] ->
          dexPrices tokenInfo' = dexPrices tokenInfo).
Proof.
  intros Hinfo Hrejected outcome. subst outcome.
  unfold updateSingleTokenPrice. rewrite Hinfo, Hrejected. simpl.
  split; [reflexivity|]. rewrite lookup_insert_eq.
  eexists. split; [reflexivity|]. simpl.
  split; [reflexivity|]. split; [reflexivity|]. split.
  - intros ->. simpl. eexists. split; [reflexivity|]. split; reflexivity.
  - intros Hne. destruct (dexPrices tokenInfo); [congruence|]. reflexivity.
Qed.

(** C10 on token [0xY], which has no price yet, during an outage. *)
Lemma failed_refresh_keeps_or_marks_witness :
  let outcome :=
    updateSingleTokenPrice (Some Fixtures.outage) 3000 "0xY"
      Fixtures.twoSessions in
  outcome.2 = false
  /\ exists tokenInfo',
      tokenRegistry outcome.1 !! "0xY" = Some tokenInfo'
      /\ lastUpdate tokenInfo' = 3000
      /\ initialized tokenInfo' = true
      /\ length (dexPrices tokenInfo') = 1%nat.
Proof.
  intros outcome.
  destruct (failed_refresh_keeps_or_marks Fixtures.outage 3000 "0xY"
              Fixtures.twoSessions
              {| symbol := "UNKNOWN"; address := "0xY"; decimals := 18;
                 name := Some "Unknown Token"; dexPrices := [];
                 lastUpdate := 0; initialized := false |}
              "timeout")
    as (Hfalse & tokenInfo' & Hreg & Hstamp & Hinit & Hempty & _).
  - vm_compute. reflexivity.
  - reflexivity.
  - split; [exact Hfalse|]. exists tokenInfo'.
    split; [exact Hreg|]. split; [exact Hstamp|]. split; [exact Hinit|].
    destruct (Hempty eq_refl) as (entry & -> & _). reflexivity.
Defined.

(** C6.  In every state the object can reach, a token is in a session's
    subscription set exactly when that session is in the token's set of
    subscribers. *)
Theorem reachable_consistent (st : State) : reachable st -> consistent st.
Proof.
  induction 1.
  - apply initialState_consistent.
  - apply openSession_consistent; assumption.
  - apply subscribe_consistent; assumption.
  - apply unsubscribe_consistent; assumption.
  - apply removeClient_consistent; assumption.
  - apply settleAll_consistent; assumption.
  - apply updateAllActivePrices_consistent; assumption.
Qed.

(** C6 after two connections, two subscriptions and one disconnection. *)
Lemma reachable_consistent_witness :
  reachable (removeClient "s1" Fixtures.twoSessions)
  /\ consistent (removeClient "s1" Fixtures.twoSessions).
Proof.
  assert (H : reachable (removeClient "s1" Fixtures.twoSessions)).
  { apply reachable_remove. unfold Fixtures.twoSessions.
    apply reachable_subscribe, reachable_subscribe.
    apply reachable_open.
    - apply reachable_open; [apply reachable_initial|reflexivity].
    - vm_compute. reflexivity. }
  split; [exact H|]. apply reachable_consistent, H.
Defined.

End UpdateScheduler.

(** * Further properties of the price service *)

Module Discovery.

Import PriceUtils PoolState.

(** ** Numbers and lists *)

Lemma Number_gt_spec (a b : Q) : JS.Number_gt a b = true <-> (b < a)%Q.
Proof.
  unfold JS.Number_gt. rewrite negb_true_iff. split.
  - intros H. apply Qnot_le_lt. intros Hle. apply Qle_bool_iff in Hle. congruence.
  - intros H. destruct (Qle_bool a b) eqn:E; [|reflexivity].
    apply Qle_bool_iff in E. exfalso. revert E. apply Qlt_not_le, H.
Qed.

Lemma Number_gt_false (a b : Q) : JS.Number_gt a b = false <-> (a <= b)%Q.
Proof.
  unfold JS.Number_gt. rewrite negb_false_iff. apply Qle_bool_iff.
Qed.

Lemma Number_lt_false (a b : Q) : JS.Number_lt a b = false <-> (b <= a)%Q.
Proof.
  unfold JS.Number_lt. rewrite negb_false_iff. apply Qle_bool_iff.
Qed.

Lemma sort_insert_Permutation {A} (cmp : A -> A -> Q) (x : A) (l : list A) :
  JS.sort_insert cmp x l ≡ₚ x :: l.
Proof.
  induction l as [|y l IH]; simpl; [reflexivity|].
  destruct (Qle_bool (cmp x y) 0); [reflexivity|].
  rewrite IH. apply Permutation_swap.
Qed.

Lemma Array_sort_Permutation {A} (cmp : A -> A -> Q) (l : list A) :
  JS.Array_sort cmp l ≡ₚ l.
Proof.
  unfold JS.Array_sort. induction l as [|x l IH]; simpl; [reflexivity|].
  rewrite sort_insert_Permutation, IH. reflexivity.
Qed.

Lemma find_Some {A} (p : A -> bool) (l : list A) (x : A) :
  JS.find p l = Some x -> x ∈ l /\ p x = true.
Proof.
  induction l as [|z l IH]; simpl; [discriminate|].
  destruct (p z) eqn:E.
  - intros [= <-]. split; [apply list_elem_of_here|exact E].
  - intros H. destruct (IH H). split; [apply list_elem_of_further|]; assumption.
Qed.

Lemma find_None {A} (p : A -> bool) (l : list A) :
  JS.find p l = None -> forall x, x ∈ l -> p x = false.
Proof.
  induction l as [|z l IH]; simpl; intros H x Hx.
  - apply elem_of_nil in Hx. destruct Hx.
  - destruct (p z) eqn:E; [discriminate|].
    apply elem_of_cons in Hx. destruct Hx as [->|Hx]; [exact E|].
    apply IH; assumption.
Qed.

Lemma replace_first_fmap {A B} (f : A -> B) (p : A -> bool) (y : A) (l : list A) :
  (forall x, p x = true -> f x = f y) ->
  f <$> JS.replace_first p y l = f <$> l.
Proof.
  intros Hp. induction l as [|z l IH]; [reflexivity|].
  cbn [JS.replace_first]. destruct (p z) eqn:E; rewrite !fmap_cons.
  - rewrite (Hp z E). reflexivity.
  - rewrite IH. reflexivity.
Qed.

Lemma elem_of_replace_first_2 {A} (p : A -> bool) (y : A) (l : list A) :
  (exists x, x ∈ l /\ p x = true) -> y ∈ JS.replace_first p y l.
Proof.
  induction l as [|z l IH]; simpl.
  - intros (x & Hx & _). apply elem_of_nil in Hx. destruct Hx.
  - intros (x & Hx & Hpx). destruct (p z) eqn:E; [apply list_elem_of_here|].
    apply list_elem_of_further, IH. apply elem_of_cons in Hx.
    destruct Hx as [->|Hx]; [congruence|]. exists x. tauto.
Qed.

Lemma elem_of_replace_first_3 {A} (p : A -> bool) (y x : A) (l : list A) :
  x ∈ l -> p x = false -> x ∈ JS.replace_first p y l.
Proof.
  induction l as [|z l IH]; simpl; intros Hx Hpx.
  - exact Hx.
  - apply elem_of_cons in Hx. destruct (p z) eqn:E.
    + destruct Hx as [->|Hx]; [congruence|]. apply list_elem_of_further, Hx.
    + destruct Hx as [->|Hx]; [apply list_elem_of_here|].
      apply list_elem_of_further, IH; assumption.
Qed.

Lemma NoDup_fmap_eq {A B} (f : A -> B) (l : list A) (x y : A) :
  NoDup (f <$> l) -> x ∈ l -> y ∈ l -> f x = f y -> x = y.
Proof.
  induction l as [|z l IH]; simpl; intros Hnd Hx Hy Hf.
  - apply elem_of_nil in Hx. destruct Hx.
  - apply NoDup_cons in Hnd. destruct Hnd as [Hz Hnd].
    apply elem_of_cons in Hx. apply elem_of_cons in Hy.
    destruct Hx as [->|Hx], Hy as [->|Hy].
    + reflexivity.
    + exfalso. apply Hz. rewrite Hf. apply list_elem_of_fmap_2, Hy.
    + exfalso. apply Hz. rewrite <- Hf. apply list_elem_of_fmap_2, Hx.
    + apply IH; assumption.
Qed.

(** ** Deduplication *)

Section Dedup.

Variable parseFloat : string -> Q.

Let weight (r : PoolResult) : Q := parseFloat (liquidity r).

(** What the accumulator of [deduplicateAndSort] holds after the results
    [seen]: one entry per pool address, each one of [seen], and for every
    result seen an entry of its pool that is at least as liquid. *)
Lemma dedup_invariant (seen : list PoolResult) :
  let acc := foldl (dedupStep parseFloat) [] seen in
  NoDup (poolAddress <$> acc)
  /\ (forall e, e ∈ acc -> e ∈ seen)
  /\ (forall r, r ∈ seen ->
                exists e, e ∈ acc /\ poolAddress e = poolAddress r
                          /\ (weight r <= weight e)%Q).
Proof.
  induction seen as [|current seen IH] using rev_ind.
  - simpl. split; [constructor|]. split; [tauto|].
    intros r Hr. apply elem_of_nil in Hr. destruct Hr.
  - rewrite foldl_app. cbn [foldl]. cbv zeta in IH.
    set (acc := foldl (dedupStep parseFloat) [] seen) in *.
    destruct IH as (Hnd & Hsub & Hmax).
    unfold dedupStep.
    set (samePool := fun r => bool_decide (poolAddress r = poolAddress current)).
    destruct (JS.find samePool acc) as [existing|] eqn:Efind.
    + apply find_Some in Efind. destruct Efind as [Hex Hsame].
      unfold samePool in Hsame. apply bool_decide_eq_true in Hsame.
      destruct (JS.Number_gt _ _) eqn:Egt.
      * apply Number_gt_spec in Egt.
        assert (Hp : forall x, samePool x = true ->
                               poolAddress x = poolAddress current).
        { intros x Hx. apply bool_decide_eq_true in Hx. exact Hx. }
        split; [|split].
        -- rewrite (replace_first_fmap poolAddress samePool current acc Hp).
           exact Hnd.
        -- intros e He.
           apply PriceAggregator.elem_of_replace_first in He.
           rewrite elem_of_app, list_elem_of_singleton.
           destruct He as [->|He]; [tauto|]. left. apply Hsub, He.
        -- intros r Hr. rewrite elem_of_app, list_elem_of_singleton in Hr.
           destruct Hr as [Hr| ->].
           ++ destruct (Hmax r Hr) as (e & He & Haddr & Hle).
              destruct (decide (poolAddress e = poolAddress current)) as [Hc|Hc].
              ** assert (e = existing) as ->.
                 { eapply (NoDup_fmap_eq poolAddress acc); eauto. congruence. }
                 exists current. split.
                 { apply elem_of_replace_first_2. exists existing.
                   split; [exact Hex|]. apply bool_decide_eq_true. exact Hsame. }
                 split; [congruence|].
                 unfold weight in *. apply Qlt_le_weak in Egt.
                 eapply Qle_trans; eassumption.
              ** exists e. split; [|tauto].
                 apply elem_of_replace_first_3; [exact He|].
                 apply bool_decide_eq_false. exact Hc.
           ++ exists current. split; [|split; [reflexivity|apply Qle_refl]].
              apply elem_of_replace_first_2. exists existing.
              split; [exact Hex|]. apply bool_decide_eq_true. exact Hsame.
      * apply Number_gt_false in Egt.
        split; [exact Hnd|]. split.
        -- intros e He. rewrite elem_of_app. left. apply Hsub, He.
        -- intros r Hr. rewrite elem_of_app, list_elem_of_singleton in Hr.
           destruct Hr as [Hr| ->]; [apply Hmax, Hr|].
           exists existing. split; [exact Hex|]. split; [exact Hsame|exact Egt].
    + pose proof (find_None _ _ Efind) as Hnone.
      split; [|split].
      * rewrite fmap_app. simpl. apply NoDup_app. split; [exact Hnd|].
        split; [|apply NoDup_singleton].
        intros a Ha Hin. apply list_elem_of_singleton in Hin. subst a.
        apply list_elem_of_fmap in Ha. destruct Ha as (e & He1 & He2).
        specialize (Hnone e He2). unfold samePool in Hnone.
        apply bool_decide_eq_false in Hnone. congruence.
      * intros e He. rewrite elem_of_app in He. rewrite elem_of_app.
        destruct He as [He|He]; [left; apply Hsub, He|right; exact He].
      * intros r Hr. rewrite elem_of_app, list_elem_of_singleton in Hr.
        destruct Hr as [Hr| ->].
        -- destruct (Hmax r Hr) as (e & He & Hrest). exists e.
           split; [|exact Hrest]. rewrite elem_of_app. left. exact He.
        -- exists current. split; [|split; [reflexivity|apply Qle_refl]].
           rewrite elem_of_app, list_elem_of_singleton. right. reflexivity.
Qed.

Lemma deduplicateAndSort_elem (allResults : list PoolResult) (e : PoolResult) :
  e ∈ deduplicateAndSort parseFloat allResults <->
  e ∈ foldl (dedupStep parseFloat) [] allResults /\ priceInWei e <> "0".
Proof.
  unfold deduplicateAndSort.
  rewrite PriceResolver.elem_of_Array_sort, list_elem_of_filter. tauto.
Qed.

Lemma deduplicateAndSort_NoDup (allResults : list PoolResult) :
  NoDup (poolAddress <$> deduplicateAndSort parseFloat allResults).
Proof.
  unfold deduplicateAndSort. rewrite Array_sort_Permutation.
  eapply sublist_NoDup; [apply (dedup_invariant allResults)|].
  apply fmap_sublist, sublist_filter.
Qed.

(** X2.  Of several results for one pool address [deduplicateAndSort] keeps
    one that is at least as liquid as each of them, and a pool disappears
    from the output only when a result of that pool, at least as liquid as
    the one considered, carries the rate zero. *)
Theorem deduplicateAndSort_keeps_most_liquid (allResults : list PoolResult)
    (r : PoolResult) :
  r ∈ allResults ->
  (forall e, e ∈ deduplicateAndSort parseFloat allResults ->
             poolAddress e = poolAddress r ->
             (parseFloat (liquidity r) <= parseFloat (liquidity e))%Q)
  /\ ((exists e, e ∈ deduplicateAndSort parseFloat allResults
                 /\ poolAddress e = poolAddress r)
      \/ (exists z, z ∈ allResults /\ poolAddress z = poolAddress r
                    /\ priceInWei z = "0"
                    /\ (parseFloat (liquidity r) <= parseFloat (liquidity z))%Q)).
Proof.
  intros Hr. destruct (dedup_invariant allResults) as (Hnd & Hsub & Hmax).
  destruct (Hmax r Hr) as (e0 & He0 & Haddr0 & Hle0). split.
  - intros e He Haddr. apply deduplicateAndSort_elem in He.
    destruct He as [He _].
    assert (e = e0) as ->; [|exact Hle0].
    eapply (NoDup_fmap_eq poolAddress); eauto. congruence.
  - destruct (decide (priceInWei e0 = "0")) as [Hz|Hz].
    + right. exists e0. repeat split; try assumption. apply Hsub, He0.
    + left. exists e0. split; [|exact Haddr0].
      apply deduplicateAndSort_elem. split; assumption.
Qed.

End Dedup.

(** X2 on two results for the pool [0xp]: the one with liquidity 900 is
    kept. *)
Lemma deduplicateAndSort_keeps_most_liquid_witness :
  let lesser := {| dex := "uniswap_v2"; poolAddress := "0xp"; liquidity := "500";
                   priceInWei := "7"; baseToken := WETH_ADDRESS;
                   baseTokenSymbol := "WETH"; fee := None |} in
  let greater := {| dex := "uniswap_v2"; poolAddress := "0xp"; liquidity := "900";
                    priceInWei := "8"; baseToken := WETH_ADDRESS;
                    baseTokenSymbol := "WETH"; fee := None |} in
  deduplicateAndSort Fixtures.parseDecimal [lesser; greater] = [greater]
  /\ (Fixtures.parseDecimal (liquidity lesser)
      <= Fixtures.parseDecimal (liquidity greater))%Q.
Proof.
  intros lesser greater. split; [vm_compute; reflexivity|].
  apply (proj1 (deduplicateAndSort_keeps_most_liquid Fixtures.parseDecimal
                  [lesser; greater] lesser (list_elem_of_here _ _))).
  - vm_compute. apply list_elem_of_here.
  - reflexivity.
Defined.

(** X1.  No two entries of the list [getAllAvailablePrices] returns share a
    pool address. *)
Theorem getAllAvailablePrices_distinct_pools (parseFloat : string -> Q)
    (Number_toString : Q -> string) (BigInt_Math_sqrt : Z -> option Z)
    (chain : Chain) (fetch : string -> FetchOutcome) (tokenAddress : string) :
  NoDup (poolAddress <$>
           getAllAvailablePrices parseFloat Number_toString BigInt_Math_sqrt
             chain fetch tokenAddress).
Proof.
  unfold getAllAvailablePrices. case_decide.
  - apply deduplicateAndSort_NoDup.
  - unfold getMoralisPools. case_decide; [constructor|].
    destruct (foldl _ _ _) as [processed allResults].
    apply deduplicateAndSort_NoDup.
Qed.


(** ** The pool index *)

Lemma assoc_get_Some {V} (k : string) (v : V) (l : list (string * V)) :
  JS.assoc_get k l = Some v -> (k, v) ∈ l.
Proof.
  induction l as [|[k' v'] l IH]; simpl; [discriminate|].
  case_decide.
  - intros [= <-]. subst. apply list_elem_of_here.
  - intros H'. apply list_elem_of_further, IH, H'.
Qed.

Lemma assoc_get_None {V} (k : string) (l : list (string * V)) :
  JS.assoc_get k l = None -> k ∉ l.*1.
Proof.
  induction l as [|[k' v'] l IH]; simpl.
  - intros _ H. apply elem_of_nil in H. destruct H.
  - case_decide; [discriminate|]. intros H' Hin.
    apply elem_of_cons in Hin. destruct Hin as [->|Hin]; [congruence|].
    apply IH; assumption.
Qed.

Lemma assoc_set_keys {V} (k : string) (v : V) (l : list (string * V)) :
  (JS.assoc_set k v l).*1 = if decide (k ∈ l.*1) then l.*1 else l.*1 ++ [k].
Proof.
  induction l as [|[k' v'] l IH]; cbn [JS.assoc_set].
  - rewrite decide_False; [reflexivity|]. intros H. apply elem_of_nil in H.
    destruct H.
  - destruct (decide (k' = k)) as [->|Hne].
    + rewrite !fmap_cons. cbn [fst].
      rewrite decide_True by apply list_elem_of_here. reflexivity.
    + rewrite !fmap_cons, IH. cbn [fst].
      destruct (decide (k ∈ l.*1)) as [Hin|Hnin].
      * rewrite decide_True by (apply list_elem_of_further, Hin). reflexivity.
      * rewrite decide_False; [reflexivity|].
        intros Hin. apply elem_of_cons in Hin. destruct Hin; congruence.
Qed.

Lemma assoc_set_NoDup {V} (k : string) (v : V) (l : list (string * V)) :
  NoDup l.*1 -> NoDup (JS.assoc_set k v l).*1.
Proof.
  intros Hnd. rewrite assoc_set_keys. case_decide; [exact Hnd|].
  apply NoDup_app. split; [exact Hnd|]. split; [|apply NoDup_singleton].
  intros x Hx Hin. apply list_elem_of_singleton in Hin. congruence.
Qed.

Lemma elem_of_assoc_set {V} (k : string) (v : V) (l : list (string * V))
    (k' : string) (v' : V) :
  NoDup l.*1 ->
  (k', v') ∈ JS.assoc_set k v l <->
  (k' = k /\ v' = v) \/ (k' <> k /\ (k', v') ∈ l).
Proof.
  induction l as [|[k0 v0] l IH]; cbn [JS.assoc_set]; intros Hnd.
  - rewrite list_elem_of_singleton. split.
    + intros [= -> ->]. tauto.
    + intros [[-> ->]|[_ H]]; [reflexivity|]. apply elem_of_nil in H. destruct H.
  - rewrite fmap_cons in Hnd. apply NoDup_cons in Hnd. destruct Hnd as [Hk0 Hnd].
    cbn [fst] in Hk0.
    destruct (decide (k0 = k)) as [->|Hne]; rewrite !elem_of_cons.
    + split.
      * intros [[= -> ->]|Hin]; [tauto|].
        right. split; [|tauto]. intros ->. apply Hk0.
        apply (list_elem_of_fmap_2 fst) in Hin. exact Hin.
      * intros [[-> ->]|[Hk [[= -> ->]|Hin]]]; [tauto|congruence|tauto].
    + rewrite (IH Hnd). split.
      * intros [[= -> ->]|[[-> ->]|[Hk Hin]]]; [|tauto|tauto].
        right. split; [congruence|tauto].
      * intros [[-> ->]|[Hk [[= -> ->]|Hin]]]; tauto.
Qed.

Lemma NoDup_keys_value {V} (l : list (string * V)) (k : string) (a b : V) :
  NoDup l.*1 -> (k, a) ∈ l -> (k, b) ∈ l -> a = b.
Proof.
  induction l as [|[k0 v0] l IH]; intros Hnd Ha Hb.
  - apply elem_of_nil in Ha. destruct Ha.
  - rewrite fmap_cons in Hnd. apply NoDup_cons in Hnd. destruct Hnd as [Hk0 Hnd].
    cbn [fst] in Hk0. apply elem_of_cons in Ha. apply elem_of_cons in Hb.
    destruct Ha as [[= -> ->]|Ha], Hb as [[= ->]|Hb].
    + reflexivity.
    + exfalso. apply Hk0. apply (list_elem_of_fmap_2 fst) in Hb. exact Hb.
    + subst. exfalso. apply Hk0. apply (list_elem_of_fmap_2 fst) in Ha. exact Ha.
    + apply IH; assumption.
Qed.

(** What [pairsByDex] holds after the pairs [seen]. *)
Lemma keepBestPerDex_invariant (seen : list MoralisPair) :
  let acc := foldl keepBestPerDex [] seen in
  NoDup acc.*1
  /\ (forall k p, (k, p) ∈ acc ->
                  p ∈ seen /\ venueKey p = Some k /\ (1000 <= liquidity_usd p)%Q)
  /\ (forall q k, q ∈ seen -> venueKey q = Some k ->
                  (1000 <= liquidity_usd q)%Q ->
                  exists p, (k, p) ∈ acc /\ (liquidity_usd q <= liquidity_usd p)%Q).
Proof.
  induction seen as [|current seen IH] using rev_ind.
  - simpl. split; [constructor|]. split.
    + intros k p H. apply elem_of_nil in H. destruct H.
    + intros q k H. apply elem_of_nil in H. destruct H.
  - rewrite foldl_app. cbn [foldl]. cbv zeta in IH.
    set (acc := foldl keepBestPerDex [] seen) in *.
    destruct IH as (Hnd & Hacc & Hmax).
    assert (Hkeep :
              (forall k, venueKey current = Some k ->
                         (1000 <= liquidity_usd current)%Q -> False) ->
              NoDup acc.*1
              /\ (forall k p, (k, p) ∈ acc ->
                              p ∈ seen ++ [current] /\ venueKey p = Some k
                              /\ (1000 <= liquidity_usd p)%Q)
              /\ (forall q k, q ∈ seen ++ [current] -> venueKey q = Some k ->
                              (1000 <= liquidity_usd q)%Q ->
                              exists p, (k, p) ∈ acc
                                        /\ (liquidity_usd q <= liquidity_usd p)%Q)).
    { intros Hskip. split; [exact Hnd|]. split.
      - intros k p Hin. destruct (Hacc k p Hin) as (H1 & H2 & H3).
        split; [|tauto]. rewrite elem_of_app. tauto.
      - intros q k Hq Hk Hliq. rewrite elem_of_app, list_elem_of_singleton in Hq.
        destruct Hq as [Hq| ->]; [eapply Hmax; eauto|].
        destruct (Hskip k Hk Hliq). }
    unfold keepBestPerDex. unfold venueKey in Hkeep.
    destruct (exchange_name current) as [name|] eqn:Ename;
      [|apply Hkeep; discriminate].
    destruct (decide (name = EmptyString)) as [Hempty|Hname];
      [apply Hkeep; discriminate|].
    destruct (JS.Number_lt (liquidity_usd current) 1000) eqn:Elt.
    { apply Hkeep. intros k _ Hliq. unfold JS.Number_lt in Elt.
      apply negb_true_iff in Elt. apply Qle_bool_iff in Hliq. congruence. }
    apply Number_lt_false in Elt. clear Hkeep.
    assert (Hkey : venueKey current = Some (JS.toLowerCase name)).
    { unfold venueKey. rewrite Ename, decide_False by exact Hname. reflexivity. }
    set (key := JS.toLowerCase name) in *.
    assert (Hset :
              (forall e, (key, e) ∈ acc ->
                         (liquidity_usd e <= liquidity_usd current)%Q) ->
              NoDup (JS.assoc_set key current acc).*1
              /\ (forall k p, (k, p) ∈ JS.assoc_set key current acc ->
                              p ∈ seen ++ [current] /\ venueKey p = Some k
                              /\ (1000 <= liquidity_usd p)%Q)
              /\ (forall q k, q ∈ seen ++ [current] -> venueKey q = Some k ->
                              (1000 <= liquidity_usd q)%Q ->
                              exists p, (k, p) ∈ JS.assoc_set key current acc
                                        /\ (liquidity_usd q <= liquidity_usd p)%Q)).
    { intros Hless. split; [apply assoc_set_NoDup, Hnd|]. split.
      - intros k p Hin. apply (elem_of_assoc_set _ _ _ _ _ Hnd) in Hin.
        rewrite elem_of_app, list_elem_of_singleton.
        destruct Hin as [[-> ->]|[Hk Hin]]; [tauto|].
        destruct (Hacc k p Hin) as (H1 & H2 & H3). tauto.
      - intros q k Hq Hk Hliq. rewrite elem_of_app, list_elem_of_singleton in Hq.
        destruct Hq as [Hq| ->].
        + destruct (Hmax q k Hq Hk Hliq) as (p & Hp & Hle).
          destruct (decide (k = key)) as [->|Hne].
          * exists current. split.
            -- apply (elem_of_assoc_set _ _ _ _ _ Hnd). tauto.
            -- eapply Qle_trans; [exact Hle|]. apply Hless, Hp.
          * exists p. split; [|exact Hle].
            apply (elem_of_assoc_set _ _ _ _ _ Hnd). tauto.
        + exists current. split; [|apply Qle_refl].
          apply (elem_of_assoc_set _ _ _ _ _ Hnd). left.
          split; [congruence|reflexivity]. }
    destruct (JS.assoc_get key acc) as [existing|] eqn:Eget.
    + apply assoc_get_Some in Eget.
      destruct (JS.Number_gt _ _) eqn:Egt.
      * apply Number_gt_spec in Egt. apply Hset. intros e He.
        rewrite (NoDup_keys_value acc key e existing Hnd He Eget).
        apply Qlt_le_weak, Egt.
      * apply Number_gt_false in Egt. split; [exact Hnd|]. split.
        -- intros k p Hin. destruct (Hacc k p Hin) as (H1 & H2 & H3).
           split; [|tauto]. rewrite elem_of_app. tauto.
        -- intros q k Hq Hk Hliq.
           rewrite elem_of_app, list_elem_of_singleton in Hq.
           destruct Hq as [Hq| ->]; [eapply Hmax; eauto|].
           exists existing. split; [|exact Egt].
           assert (k = key) as -> by congruence. exact Eget.
    + apply assoc_get_None in Eget. apply Hset. intros e He.
      exfalso. apply Eget. apply (list_elem_of_fmap_2 fst) in He. exact He.
Qed.

(** X3.  [queryMoralisForPools] returns at most one pair per venue name
    (compared without letter case); every pair it returns is one of the
    reply, has a venue name and reaches the liquidity floor of 1000; and for
    each pair of the reply that has a venue name and reaches the floor, the
    pair returned for that venue is at least as liquid. *)
Theorem queryMoralisForPools_best_per_venue (fetch : string -> FetchOutcome)
    (tokenAddress : string) :
  let found := queryMoralisForPools fetch tokenAddress in
  NoDup (venueKey <$> found)
  /\ (forall p, p ∈ found ->
                p ∈ responsePairs (fetch tokenAddress)
                /\ is_Some (venueKey p)
                /\ (1000 <= liquidity_usd p)%Q)
  /\ (forall q k, q ∈ responsePairs (fetch tokenAddress) ->
                  venueKey q = Some k -> (1000 <= liquidity_usd q)%Q ->
                  exists p, p ∈ found /\ venueKey p = Some k
                            /\ (liquidity_usd q <= liquidity_usd p)%Q).
Proof.
  intros found.
  assert (Hnone : found = [] -> responsePairs (fetch tokenAddress) = [] ->
                  NoDup (venueKey <$> found)
                  /\ (forall p, p ∈ found ->
                                p ∈ responsePairs (fetch tokenAddress)
                                /\ is_Some (venueKey p)
                                /\ (1000 <= liquidity_usd p)%Q)
                  /\ (forall q k, q ∈ responsePairs (fetch tokenAddress) ->
                                  venueKey q = Some k ->
                                  (1000 <= liquidity_usd q)%Q ->
                                  exists p, p ∈ found /\ venueKey p = Some k
                                    /\ (liquidity_usd q <= liquidity_usd p)%Q)).
  { intros -> ->. split; [constructor|]. split.
    - intros p H. apply elem_of_nil in H. destruct H.
    - intros q k H. apply elem_of_nil in H. destruct H. }
  subst found. unfold queryMoralisForPools, responsePairs in *.
  destruct (fetch tokenAddress) as [|[|] [data|]];
    try (apply Hnone; reflexivity).
  clear Hnone. cbn [negb].
  destruct (keepBestPerDex_invariant (default [] (pairs data)))
    as (Hnd & Hacc & Hmax).
  set (acc := foldl keepBestPerDex [] (default [] (pairs data))) in *.
  assert (Hkeys : venueKey <$> acc.*2 = Some <$> acc.*1).
  { rewrite <- !list_fmap_compose. apply list_fmap_ext.
    intros i [k p] Hi. simpl. apply (Hacc k p).
    eapply list_elem_of_lookup_2, Hi. }
  split; [|split].
  - rewrite Hkeys. apply NoDup_fmap; [|exact Hnd]. intros a b [= ->]. reflexivity.
  - intros p Hp. apply list_elem_of_fmap in Hp. destruct Hp as ([k p'] & -> & Hin).
    destruct (Hacc k p' Hin) as (H1 & H2 & H3). simpl.
    split; [exact H1|]. split; [rewrite H2; eexists; reflexivity|exact H3].
  - intros q k Hq Hk Hliq. destruct (Hmax q k Hq Hk Hliq) as (p & Hp & Hle).
    exists p. split; [|split; [|exact Hle]].
    + apply list_elem_of_fmap. exists (k, p). split; [reflexivity|exact Hp].
    + apply (Hacc k p Hp).
Qed.

(** X3 on a reply with two Uniswap V3 pairs: the one with liquidity 9000 is
    the pair returned for the venue. *)
Lemma queryMoralisForPools_best_per_venue_witness :
  exists p,
    p ∈ queryMoralisForPools Fixtures.indexReply "0xT"
    /\ venueKey p = Some "uniswap v3"
    /\ pair_address p = "0xp2"
    /\ (5000 <= liquidity_usd p)%Q.
Proof.
  destruct (proj2 (proj2 (queryMoralisForPools_best_per_venue
                            Fixtures.indexReply "0xT"))
              (Fixtures.indexedPair (Some "Uniswap v3") "0xp1" 5000
                 WETH_ADDRESS "WETH") "uniswap v3")
    as (p & Hp & Hkey & Hle).
  - vm_compute. apply list_elem_of_here.
  - reflexivity.
  - vm_compute. discriminate.
  - exists p. split; [exact Hp|]. split; [exact Hkey|]. split; [|exact Hle].
    assert (Hfound :
              queryMoralisForPools Fixtures.indexReply "0xT"
              = [ Fixtures.indexedPair (Some "uniswap V3") "0xp2" 9000
                    WETH_ADDRESS "WETH";
                  Fixtures.indexedPair (Some "Curve") "0xp3" 7000
                    Fixtures.USDC "USDC" ]) by (vm_compute; reflexivity).
    rewrite Hfound in Hp. rewrite !elem_of_cons, elem_of_nil in Hp.
    destruct Hp as [->|[->|[]]]; [reflexivity|]. vm_compute in Hkey.
    discriminate Hkey.
Defined.


(** ** Indexed discovery *)

Lemma length_replace_first {A} (p : A -> bool) (y : A) (l : list A) :
  length (JS.replace_first p y l) = length l.
Proof.
  induction l as [|z l IH]; simpl; [reflexivity|].
  destruct (p z); simpl; [reflexivity|]. rewrite IH. reflexivity.
Qed.

Lemma length_deduplicateAndSort (parseFloat : string -> Q)
    (allResults : list PoolResult) :
  (length (deduplicateAndSort parseFloat allResults) <= length allResults)%nat.
Proof.
  unfold deduplicateAndSort. rewrite Array_sort_Permutation.
  etransitivity; [apply length_filter|].
  induction allResults as [|current seen IH] using rev_ind; [reflexivity|].
  rewrite foldl_app, length_app. cbn [foldl length].
  unfold dedupStep at 1. destruct (JS.find _ _).
  - destruct (JS.Number_gt _ _); [rewrite length_replace_first|]; lia.
  - rewrite length_app. simpl. lia.
Qed.

Lemma processPool_fold (Number_toString : Q -> string) (chain : Chain)
    (tokenAddress : string) (all pools : list MoralisPair) :
  (forall pool, pool ∈ pools -> pool ∈ all) ->
  forall st,
    Forall (indexedEntry chain tokenAddress all) st.2 ->
    let st' := foldl (processPool Number_toString chain tokenAddress) st pools in
    Forall (indexedEntry chain tokenAddress all) st'.2
    /\ (length st'.2 <= length st.2 + length pools)%nat.
Proof.
  induction pools as [|pool pools IH]; intros Hall st Hst; cbn [foldl].
  - split; [exact Hst|]. simpl. lia.
  - assert (Hstep :
              Forall (indexedEntry chain tokenAddress all)
                (processPool Number_toString chain tokenAddress st pool).2
              /\ (length (processPool Number_toString chain tokenAddress st pool).2
                  <= S (length st.2))%nat).
    { unfold processPool. destruct st as [processed results]. simpl in Hst.
      case_decide; [split; [exact Hst|simpl; lia]|].
      destruct (JS.find _ (pair pool)); [|split; [exact Hst|simpl; lia]].
      destruct (JS.find _ (pair pool)); [|split; [exact Hst|simpl; lia]].
      destruct (getTokenPriceFromPool _ _ _) as [priceResult|] eqn:Eprice;
        [|split; [exact Hst|simpl; lia]].
      cbn [snd]. split.
      - apply Forall_app. split; [exact Hst|]. apply Forall_singleton.
        split; [reflexivity|]. exists pool, priceResult. simpl.
        split; [apply Hall, list_elem_of_here|]. tauto.
      - rewrite length_app. simpl. lia. }
    destruct Hstep as [Hentries Hlen].
    destruct (IH (fun p Hp => Hall p (list_elem_of_further _ _ _ Hp)) _ Hentries)
      as [Hfinal Hlength].
    split; [exact Hfinal|]. etransitivity; [exact Hlength|]. simpl. lia.
Qed.

(** X4.  [getMoralisPools] prices at most ten pools; each entry it returns
    has no fee tier, carries the address of a supported pair that
    [queryMoralisForPools] returned, the venue identifier of that pair's
    venue, and the rate the resolver computed on that address. *)
Theorem getMoralisPools_entries (parseFloat : string -> Q)
    (Number_toString : Q -> string) (chain : Chain)
    (fetch : string -> FetchOutcome) (tokenAddress : string) :
  let found := getMoralisPools parseFloat Number_toString chain fetch tokenAddress in
  (length found <= 10)%nat
  /\ forall r, r ∈ found ->
               fee r = None
               /\ exists pool priceResult,
                   pool ∈ queryMoralisForPools fetch tokenAddress
                   /\ isSupported pool = true
                   /\ poolAddress r = pair_address pool
                   /\ dex r = mapMoralisDexId (exchange_name pool)
                   /\ getTokenPriceFromPool chain tokenAddress (pair_address pool)
                      = Some priceResult
                   /\ priceInWei r = pfp_priceInWei priceResult.
Proof.
  intros found. subst found. unfold getMoralisPools.
  case_decide.
  { split; [simpl; lia|]. intros r Hr. apply elem_of_nil in Hr. destruct Hr. }
  set (supported := List.filter isSupported (queryMoralisForPools fetch tokenAddress)).
  destruct (processPool_fold Number_toString chain tokenAddress
              supported (take 10 supported)) with (st := (∅ : gset string, @nil PoolResult))
    as [Hentries Hlen].
  { intros pool Hpool. apply elem_of_take in Hpool.
    destruct Hpool as (i & Hi & _). eapply list_elem_of_lookup_2, Hi. }
  { constructor. }
  destruct (foldl _ _ (take 10 supported)) as [processed allResults].
  simpl in Hentries, Hlen. split.
  - etransitivity; [apply length_deduplicateAndSort|].
    etransitivity; [exact Hlen|]. rewrite length_take. lia.
  - intros r Hr. apply PriceAggregator.deduplicateAndSort_subset in Hr.
    rewrite Forall_forall in Hentries.
    destruct (Hentries r Hr) as (Hfee & pool & priceResult & Hpool & Hrest).
    split; [exact Hfee|]. exists pool, priceResult.
    subst supported. apply list_elem_of_In, filter_In in Hpool.
    destruct Hpool as [Hin Hsup]. apply list_elem_of_In in Hin. tauto.
Qed.

(** X4 on the reply of the index for token [0xT]: the more liquid Uniswap V3
    pair is the one entry, priced by the resolver. *)
Lemma getMoralisPools_entries_witness :
  exists r,
    r ∈ getMoralisPools Fixtures.parseDecimal Fixtures.printInteger
          Fixtures.discoveryChain Fixtures.indexReply "0xT"
    /\ fee r = None /\ poolAddress r = "0xp2" /\ dex r = "uniswap_v3"
    /\ priceInWei r = "4".
Proof.
  set (r := {| dex := "uniswap_v3"; poolAddress := "0xp2"; liquidity := "9000";
               priceInWei := "4"; baseToken := WETH_ADDRESS;
               baseTokenSymbol := "WETH"; fee := None |}).
  assert (Hr : r ∈ getMoralisPools Fixtures.parseDecimal Fixtures.printInteger
                     Fixtures.discoveryChain Fixtures.indexReply "0xT").
  { vm_compute. apply list_elem_of_here. }
  exists r. split; [exact Hr|].
  destruct (proj2 (getMoralisPools_entries Fixtures.parseDecimal
                     Fixtures.printInteger Fixtures.discoveryChain
                     Fixtures.indexReply "0xT") r Hr)
    as (Hfee & _).
  split; [exact Hfee|]. repeat split; reflexivity.
Defined.

(** ** Direct discovery *)

Lemma probeFeeTier_entry (BigInt_Math_sqrt : Z -> option Z) (chain : Chain)
    (factoryAddress tokenA tokenB dexName : string) (tier : Z) :
  (length (probeFeeTier BigInt_Math_sqrt chain factoryAddress tokenA tokenB
             dexName tier) <= 1)%nat
  /\ forall r,
      r ∈ probeFeeTier BigInt_Math_sqrt chain factoryAddress tokenA tokenB
            dexName tier ->
      discoveredEntry BigInt_Math_sqrt chain tokenA dexName true r
      /\ fee r = Some tier
      /\ factory_getPool chain factoryAddress tokenA tokenB tier
         = Some (poolAddress r).
Proof.
  unfold probeFeeTier.
  assert (Hnil : (length (@nil PoolResult) <= 1)%nat
                 /\ forall r, r ∈ @nil PoolResult ->
                      discoveredEntry BigInt_Math_sqrt chain tokenA dexName true r
                      /\ fee r = Some tier
                      /\ factory_getPool chain factoryAddress tokenA tokenB tier
                         = Some (poolAddress r)).
  { split; [simpl; lia|]. intros r Hr. apply elem_of_nil in Hr. destruct Hr. }
  destruct (factory_getPool chain factoryAddress tokenA tokenB tier)
    as [pool|] eqn:Epool; [|exact Hnil].
  destruct (decide (pool <> ZeroAddress)) as [Hpool|]; [|exact Hnil].
  destruct (decide (getPoolLiquidity BigInt_Math_sqrt chain pool true > 0))
    as [Hliq|]; [|exact Hnil].
  destruct (getTokenPriceFromPool chain tokenA pool) as [priceResult|] eqn:Eprice;
    [|exact Hnil].
  split; [simpl; lia|]. intros r Hr. apply list_elem_of_singleton in Hr. subst r.
  unfold discoveredEntry. simpl. repeat split; try assumption; try lia.
  exists priceResult. tauto.
Qed.

Lemma probeFeeTier_fees (BigInt_Math_sqrt : Z -> option Z) (chain : Chain)
    (factoryAddress tokenA tokenB dexName : string) (tiers : list Z) :
  fee <$> (tier ← tiers;
           probeFeeTier BigInt_Math_sqrt chain factoryAddress tokenA tokenB
             dexName tier)
  `sublist_of` Some <$> tiers.
Proof.
  induction tiers as [|tier tiers IH]; [constructor|].
  change (fee <$> (probeFeeTier BigInt_Math_sqrt chain factoryAddress tokenA
                     tokenB dexName tier
                   ++ (tier ← tiers;
                       probeFeeTier BigInt_Math_sqrt chain factoryAddress
                         tokenA tokenB dexName tier))
          `sublist_of` Some tier :: (Some <$> tiers)).
  rewrite fmap_app.
  destruct (probeFeeTier_entry BigInt_Math_sqrt chain factoryAddress tokenA
              tokenB dexName tier) as [Hlen Hentry].
  destruct (probeFeeTier BigInt_Math_sqrt chain factoryAddress tokenA tokenB
              dexName tier) as [|r [|r' rest]].
  - apply sublist_cons, IH.
  - destruct (Hentry r (list_elem_of_here _ _)) as (_ & Hfee & _).
    change (fee r :: (fee <$> (tier ← tiers;
                               probeFeeTier BigInt_Math_sqrt chain
                                 factoryAddress tokenA tokenB dexName tier))
            `sublist_of` Some tier :: (Some <$> tiers)).
    rewrite Hfee. apply sublist_skip, IH.
  - simpl in Hlen. lia.
Qed.

Lemma getDexPrices_constantProduct (BigInt_Math_sqrt : Z -> option Z)
    (chain : Chain) (tokenA tokenB dexName : string) :
  ~ (dexName = "uniswap_v3" \/ dexName = "pancakeswap_v3") ->
  let found := getDexPrices BigInt_Math_sqrt chain tokenA tokenB dexName in
  (length found <= 1)%nat
  /\ (dexName ∉ venueIds -> found = [])
  /\ forall r, r ∈ found ->
      exists factoryAddress,
        fee r = None
        /\ discoveredEntry BigInt_Math_sqrt chain tokenA dexName false r
        /\ v2FactoryAddress dexName = Some factoryAddress
        /\ factory_getPair chain factoryAddress tokenA tokenB
           = Some (poolAddress r).
Proof.
  intros Hv2 found. subst found. unfold getDexPrices.
  rewrite decide_False by exact Hv2.
  assert (Hnil : (length (@nil PoolResult) <= 1)%nat
                 /\ (dexName ∉ venueIds -> @nil PoolResult = [])
                 /\ forall r, r ∈ @nil PoolResult ->
                      exists factoryAddress,
                        fee r = None
                        /\ discoveredEntry BigInt_Math_sqrt chain tokenA
                             dexName false r
                        /\ v2FactoryAddress dexName = Some factoryAddress
                        /\ factory_getPair chain factoryAddress tokenA
                             tokenB = Some (poolAddress r)).
  { split; [simpl; lia|]. split; [reflexivity|].
    intros r Hr. apply elem_of_nil in Hr. destruct Hr. }
  destruct (v2FactoryAddress dexName) as [factoryAddress|] eqn:Efactory;
    [|exact Hnil].
  destruct (factory_getPair chain factoryAddress tokenA tokenB)
    as [pairAddress|] eqn:Epair; [|exact Hnil].
  destruct (decide (pairAddress <> ZeroAddress)) as [Hpair|]; [|exact Hnil].
  destruct (decide (getPoolLiquidity BigInt_Math_sqrt chain pairAddress false > 0))
    as [Hliq|]; [|exact Hnil].
  destruct (getTokenPriceFromPool chain tokenA pairAddress)
    as [priceResult|] eqn:Eprice; [|exact Hnil].
  split; [simpl; lia|]. split.
  - intros Hnot. exfalso. apply Hnot. unfold v2FactoryAddress in Efactory.
    unfold venueIds. repeat case_decide; try discriminate; subst;
      repeat first [apply list_elem_of_here | apply list_elem_of_further].
  - intros r Hr. apply list_elem_of_singleton in Hr. subst r.
    exists factoryAddress. unfold discoveredEntry. simpl.
    repeat split; try assumption; try lia. exists priceResult. tauto.
Qed.

(** X5.  [getDexPrices] lists only pools that the factory of the venue
    names for the pair, at an address other than the zero address, whose
    liquidity is positive and which the resolver prices.  On a
    concentrated-liquidity venue the factory is the V3 factory of Uniswap or
    of PancakeSwap according to the venue, each entry carries the fee tier
    its pool was asked for, and the fees of the entries follow the list of
    the four tiers without repetition, so that there is at most one entry
    per tier; on a constant-product venue the factory is the one the table
    gives for the venue and there is at most one entry, without fee; for any
    other venue name the list is empty. *)
Theorem getDexPrices_entries (BigInt_Math_sqrt : Z -> option Z) (chain : Chain)
    (tokenA tokenB dexName : string) :
  let found := getDexPrices BigInt_Math_sqrt chain tokenA tokenB dexName in
  (length found <= 4)%nat
  /\ (dexName <> "uniswap_v3" -> dexName <> "pancakeswap_v3" ->
      (length found <= 1)%nat)
  /\ (dexName = "uniswap_v3" \/ dexName = "pancakeswap_v3" ->
      fee <$> found `sublist_of` Some <$> V3_FEE_TIERS)
  /\ (dexName ∉ venueIds -> found = [])
  /\ forall r, r ∈ found ->
      (exists tier,
          tier ∈ V3_FEE_TIERS /\ fee r = Some tier
          /\ discoveredEntry BigInt_Math_sqrt chain tokenA dexName true r
          /\ ((dexName = "uniswap_v3"
               /\ factory_getPool chain UNISWAP_V3_FACTORY tokenA tokenB tier
                  = Some (poolAddress r))
              \/ (dexName = "pancakeswap_v3"
                  /\ factory_getPool chain PANCAKESWAP_V3_FACTORY tokenA
                       tokenB tier = Some (poolAddress r))))
      \/ (exists factoryAddress,
             fee r = None
             /\ discoveredEntry BigInt_Math_sqrt chain tokenA dexName false r
             /\ v2FactoryAddress dexName = Some factoryAddress
             /\ factory_getPair chain factoryAddress tokenA tokenB
                = Some (poolAddress r)).
Proof.
  intros found.
  destruct (decide (dexName = "uniswap_v3" \/ dexName = "pancakeswap_v3"))
    as [Hv3|Hv2].
  - set (factoryAddress := if decide (dexName = "uniswap_v3")
                           then UNISWAP_V3_FACTORY else PANCAKESWAP_V3_FACTORY).
    assert (Hfound : found
                     = (tier ← V3_FEE_TIERS;
                        probeFeeTier BigInt_Math_sqrt chain factoryAddress
                          tokenA tokenB dexName tier)).
    { subst found. unfold getDexPrices. rewrite decide_True by exact Hv3.
      reflexivity. }
    assert (Hfees : fee <$> found `sublist_of` Some <$> V3_FEE_TIERS)
      by (rewrite Hfound; apply probeFeeTier_fees).
    split; [|split; [|split; [|split]]].
    + apply sublist_length in Hfees. rewrite !length_fmap in Hfees.
      exact Hfees.
    + tauto.
    + intros _. exact Hfees.
    + intros Hnot. exfalso. apply Hnot. unfold venueIds.
      destruct Hv3 as [-> | ->];
        repeat first [apply list_elem_of_here | apply list_elem_of_further].
    + intros r Hr. rewrite Hfound in Hr.
      apply list_elem_of_bind in Hr. destruct Hr as (tier & Hr & Htier).
      apply (probeFeeTier_entry BigInt_Math_sqrt chain factoryAddress tokenA
               tokenB dexName tier) in Hr.
      destruct Hr as (Hentry & Hfee & Hpool).
      left. exists tier. split; [exact Htier|]. split; [exact Hfee|].
      split; [exact Hentry|]. subst factoryAddress.
      destruct Hv3 as [Hu|Hp].
      * left. split; [exact Hu|]. rewrite decide_True in Hpool by exact Hu.
        exact Hpool.
      * right. split; [exact Hp|].
        rewrite decide_False in Hpool by (rewrite Hp; discriminate).
        exact Hpool.
  - destruct (getDexPrices_constantProduct BigInt_Math_sqrt chain tokenA
                tokenB dexName Hv2) as (Hlen & Hother & Hentries).
    fold found in Hlen, Hother, Hentries.
    split; [lia|]. split; [intros _ _; exact Hlen|].
    split; [tauto|]. split; [exact Hother|].
    intros r Hr. right. apply Hentries, Hr.
Qed.

(** X5 on the Uniswap V3 pools of token [0xT] against WETH: the tier 500
    has the pool [0xp2], which the Uniswap V3 factory names, and the two
    entries come in the order of their tiers. *)
Lemma getDexPrices_entries_witness :
  exists r,
    r ∈ getDexPrices Fixtures.noSquareRoot Fixtures.discoveryChain
          "0xT" WETH_ADDRESS "uniswap_v3"
    /\ fee r = Some 500 /\ poolAddress r = "0xp2" /\ liquidity r = "900"
    /\ factory_getPool Fixtures.discoveryChain UNISWAP_V3_FACTORY "0xT"
         WETH_ADDRESS 500 = Some "0xp2"
    /\ fee <$> getDexPrices Fixtures.noSquareRoot Fixtures.discoveryChain
                 "0xT" WETH_ADDRESS "uniswap_v3"
       = [Some 500; Some 3000].
Proof.
  set (r := {| dex := "uniswap_v3"; poolAddress := "0xp2"; liquidity := "900";
               priceInWei := "4"; baseToken := WETH_ADDRESS;
               baseTokenSymbol := "WETH"; fee := Some 500 |}).
  assert (Hr : r ∈ getDexPrices Fixtures.noSquareRoot Fixtures.discoveryChain
                     "0xT" WETH_ADDRESS "uniswap_v3").
  { vm_compute. apply list_elem_of_here. }
  exists r. split; [exact Hr|].
  destruct (proj2 (proj2 (proj2 (proj2
              (getDexPrices_entries Fixtures.noSquareRoot
                 Fixtures.discoveryChain "0xT" WETH_ADDRESS
                 "uniswap_v3")))) r Hr)
    as [(tier & Htier & Hfee & Hentry & [[_ Hpool]|[Hname _]])
       |(factoryAddress & Hfee & _)].
  - injection Hfee as <-.
    split; [reflexivity|]. split; [reflexivity|]. split; [reflexivity|].
    split; [exact Hpool|]. vm_compute. reflexivity.
  - discriminate Hname.
  - discriminate Hfee.
Defined.

(** ** Best price *)

(** A [reduce] that keeps the current element when it weighs more than the
    best so far returns an element of greatest weight. *)
Lemma foldl_max {A} (w : A -> Q) (f : A -> A -> A) :
  (forall best current,
      f best current = if JS.Number_gt (w current) (w best) then current else best) ->
  forall l b,
    foldl f b l ∈ b :: l
    /\ forall x, x ∈ b :: l -> (w x <= w (foldl f b l))%Q.
Proof.
  intros Hf. induction l as [|y l IH]; intros b; cbn [foldl].
  - split; [apply list_elem_of_here|]. intros x Hx.
    apply list_elem_of_singleton in Hx. subst. apply Qle_refl.
  - destruct (IH (f b y)) as [Hin Hmax].
    assert (Hstep : f b y ∈ [b; y] /\ (w b <= w (f b y))%Q /\ (w y <= w (f b y))%Q).
    { rewrite Hf. destruct (JS.Number_gt (w y) (w b)) eqn:E.
      - apply Number_gt_spec in E. split; [set_solver|].
        split; [apply Qlt_le_weak, E|apply Qle_refl].
      - apply Number_gt_false in E. split; [set_solver|].
        split; [apply Qle_refl|exact E]. }
    destruct Hstep as (Hb & Hwb & Hwy). split.
    + apply elem_of_cons in Hin. destruct Hin as [->|Hin]; [|set_solver].
      set_solver.
    + intros x Hx. rewrite !elem_of_cons in Hx.
      destruct Hx as [->|[->|Hx]].
      * eapply Qle_trans; [exact Hwb|]. apply Hmax, list_elem_of_here.
      * eapply Qle_trans; [exact Hwy|]. apply Hmax, list_elem_of_here.
      * apply Hmax, list_elem_of_further, Hx.
Qed.

Lemma reduce_max {A} (w : A -> Q) (f : A -> A -> A) (l : list A) (r : A) :
  (forall best current,
      f best current = if JS.Number_gt (w current) (w best) then current else best) ->
  JS.reduce f l = Some r ->
  r ∈ l /\ forall x, x ∈ l -> (w x <= w r)%Q.
Proof.
  intros Hf. destruct l as [|b l]; [discriminate|]. intros [= <-].
  apply (foldl_max w f Hf).
Qed.

Section Best.

Variable parseFloat : string -> Q.
Variable Number_toString : Q -> string.
Variable BigInt_Math_sqrt : Z -> option Z.
Variable chain : Chain.
Variable fetch : string -> FetchOutcome.

(** X6.  [getTokenPriceWithBestLiquidity] returns nothing exactly when none
    of the three venues it asks lists a pool for the pair; otherwise it
    returns one of the listed pools, and no pool listed by any of the three
    venues is more liquid. *)
Theorem getTokenPriceWithBestLiquidity_greatest (tokenA tokenB : string) :
  let best :=
    getTokenPriceWithBestLiquidity parseFloat BigInt_Math_sqrt chain
      tokenA tokenB in
  (best = None <->
   forall dexName, dexName ∈ prioritizedDexes ->
                   getDexPrices BigInt_Math_sqrt chain tokenA tokenB dexName = [])
  /\ forall r, best = Some r ->
       (exists dexName,
           dexName ∈ prioritizedDexes
           /\ r ∈ getDexPrices BigInt_Math_sqrt chain tokenA tokenB dexName)
       /\ forall dexName r',
           dexName ∈ prioritizedDexes ->
           r' ∈ getDexPrices BigInt_Math_sqrt chain tokenA tokenB dexName ->
           (parseFloat (liquidity r') <= parseFloat (liquidity r))%Q.
Proof.
  intros best. subst best. unfold getTokenPriceWithBestLiquidity.
  set (perDex := fun dexName : string =>
         let prices := getDexPrices BigInt_Math_sqrt chain tokenA tokenB dexName in
         if decide (0 < length prices)%nat then
           match JS.reduce (moreLiquid parseFloat) prices with
           | Some bestFromDex => [bestFromDex]
           | None => []
           end
         else []).
  set (weight := fun r : PoolResult => parseFloat (liquidity r)).
  assert (Hf : forall best current,
             moreLiquid parseFloat best current
             = if JS.Number_gt (weight current) (weight best)
               then current else best) by reflexivity.
  assert (HperDex : forall dexName,
             (getDexPrices BigInt_Math_sqrt chain tokenA tokenB dexName = []
              /\ perDex dexName = [])
             \/ exists b,
                 perDex dexName = [b]
                 /\ b ∈ getDexPrices BigInt_Math_sqrt chain tokenA tokenB dexName
                 /\ forall x,
                     x ∈ getDexPrices BigInt_Math_sqrt chain tokenA tokenB dexName ->
                     (weight x <= weight b)%Q).
  { intros dexName. unfold perDex. cbv zeta.
    destruct (getDexPrices BigInt_Math_sqrt chain tokenA tokenB dexName)
      as [|x rest] eqn:E.
    - left. split; reflexivity.
    - right. rewrite decide_True by (simpl; lia).
      destruct (JS.reduce (moreLiquid parseFloat) (x :: rest)) as [b|] eqn:Er;
        [|discriminate].
      exists b. split; [reflexivity|].
      apply (reduce_max weight (moreLiquid parseFloat) _ _ Hf Er). }
  set (allPrices := prioritizedDexes ≫= perDex).
  assert (Hall : forall x, x ∈ allPrices <->
                           exists dexName, dexName ∈ prioritizedDexes
                                           /\ perDex dexName = [x]).
  { intros x. subst allPrices. rewrite list_elem_of_bind. split.
    - intros (dexName & Hx & Hdex). exists dexName. split; [exact Hdex|].
      destruct (HperDex dexName) as [[_ Hnil]|(b & Hb & _)].
      + rewrite Hnil in Hx. apply elem_of_nil in Hx. destruct Hx.
      + rewrite Hb in Hx. apply list_elem_of_singleton in Hx. congruence.
    - intros (dexName & Hdex & Hx). exists dexName. split; [|exact Hdex].
      rewrite Hx. apply list_elem_of_here. }
  split.
  - split.
    + intros Hnone dexName Hdex.
      destruct (HperDex dexName) as [[Hnil _]|(b & Hb & _)]; [exact Hnil|].
      assert (Hin : b ∈ allPrices) by (apply Hall; eauto).
      destruct allPrices as [|y rest]; [apply elem_of_nil in Hin; destruct Hin|].
      rewrite decide_False in Hnone by (simpl; lia). discriminate.
    + intros Hnone. case_decide; [reflexivity|].
      destruct allPrices as [|y rest]; [simpl in *; lia|].
      assert (Hin : y ∈ y :: rest) by apply list_elem_of_here.
      apply Hall in Hin. destruct Hin as (dexName & Hdex & Hy).
      destruct (HperDex dexName) as [[_ Hnil]|(b & Hb & Hmem & _)];
        [congruence|].
      rewrite (Hnone dexName Hdex) in Hmem. apply elem_of_nil in Hmem.
      destruct Hmem.
  - intros r Hr. case_decide; [discriminate|].
    apply (reduce_max weight (moreLiquid parseFloat) _ _ Hf) in Hr.
    destruct Hr as [Hin Hmax]. split.
    + apply Hall in Hin. destruct Hin as (dexName & Hdex & Hx).
      exists dexName. split; [exact Hdex|].
      destruct (HperDex dexName) as [[_ Hnil]|(b & Hb & Hmem & _)];
        [congruence|].
      assert (b = r) as <- by congruence. exact Hmem.
    + intros dexName r' Hdex Hr'.
      destruct (HperDex dexName) as [[Hnil _]|(b & Hb & _ & Hbmax)].
      * rewrite Hnil in Hr'. apply elem_of_nil in Hr'. destruct Hr'.
      * eapply Qle_trans; [apply Hbmax, Hr'|].
        apply Hmax, Hall. eauto.
Qed.

(** X7.  [getAbsoluteBestPrice] returns nothing exactly when
    [getAllAvailablePrices] is empty; what it returns is an entry of that
    list with a rate other than zero; its reference symbol is the text WETH
    whenever that of some entry is, and no entry that agrees with it on
    having that reference symbol or not is more liquid. *)
Theorem getAbsoluteBestPrice_first (tokenAddress : string) :
  let prices :=
    getAllAvailablePrices parseFloat Number_toString BigInt_Math_sqrt
      chain fetch tokenAddress in
  let best :=
    getAbsoluteBestPrice parseFloat Number_toString BigInt_Math_sqrt
      chain fetch tokenAddress in
  (best = None <-> prices = [])
  /\ forall r, best = Some r ->
       r ∈ prices
       /\ priceInWei r <> "0"
       /\ forall r', r' ∈ prices ->
            (isWETH r' = true -> isWETH r = true)
            /\ (isWETH r = isWETH r' ->
                (parseFloat (liquidity r') <= parseFloat (liquidity r))%Q).
Proof.
  intros prices best. subst best. unfold getAbsoluteBestPrice. fold prices.
  pose proof (PriceAggregator.getAllAvailablePrices_sorted parseFloat
                Number_toString BigInt_Math_sqrt chain fetch tokenAddress)
    as Hsorted.
  fold prices in Hsorted.
  assert (Hzero : forall r, r ∈ prices -> priceInWei r <> "0").
  { intros r. subst prices. unfold getAllAvailablePrices. case_decide.
    - apply PriceResolver.deduplicateAndSort_no_zero.
    - unfold getMoralisPools. case_decide.
      + intros Hr. apply elem_of_nil in Hr. destruct Hr.
      + destruct (foldl _ _ _) as [processed allResults].
        apply PriceResolver.deduplicateAndSort_no_zero. }
  destruct prices as [|first rest] eqn:E.
  - split; [split; reflexivity|]. intros r. simpl. discriminate.
  - rewrite decide_True by (simpl; lia). cbn [lookup list_lookup]. split.
    + split; discriminate.
    + intros r [= <-]. split; [apply list_elem_of_here|].
      split; [apply Hzero, list_elem_of_here|].
      intros r' Hr'. apply elem_of_cons in Hr'. destruct Hr' as [->|Hr'].
      * split; [tauto|]. intros _. apply Qle_refl.
      * apply list_elem_of_lookup_1 in Hr'. destruct Hr' as [j Hj].
        pose proof (PriceAggregator.StronglySorted_lookup _ _ Hsorted
                      0%nat (S j) first r' eq_refl Hj ltac:(lia)) as H.
        apply PriceAggregator.before_spec in H.
        destruct H as [[Ha Hb]|[Hab Hle]]; split; intros; congruence.
Qed.

(** X8.  For WETH itself, in any letter case, [getTokenPriceInETHWei] returns
    one whole WETH without reading the chain or the index.  For another
    token for which direct discovery against WETH finds no pool, whatever it
    returns is priced against WETH, carries no fee tier, and is the pair of
    greatest liquidity among the pairs of the index that hold WETH, on which
    the resolver reported WETH as the reference token. *)
Theorem getTokenPriceInETHWei_quote (tokenAddress : string) :
  let quote :=
    getTokenPriceInETHWei parseFloat Number_toString BigInt_Math_sqrt
      chain fetch tokenAddress in
  (JS.toLowerCase tokenAddress = JS.toLowerCase WETH_ADDRESS ->
   quote = Some {| dex := "native"; poolAddress := WETH_ADDRESS;
                   liquidity := "0"; priceInWei := "1000000000000000000";
                   baseToken := WETH_ADDRESS; baseTokenSymbol := "WETH";
                   fee := Some 0 |})
  /\ (JS.toLowerCase tokenAddress <> JS.toLowerCase WETH_ADDRESS ->
      getTokenPriceWithBestLiquidity parseFloat BigInt_Math_sqrt chain
        tokenAddress WETH_ADDRESS = None ->
      forall r, quote = Some r ->
        baseToken r = WETH_ADDRESS /\ baseTokenSymbol r = "WETH"
        /\ fee r = None
        /\ exists pool priceResult,
            pool ∈ queryMoralisForPools fetch tokenAddress
            /\ hasWETH pool = true
            /\ poolAddress r = pair_address pool
            /\ getTokenPriceFromPool chain tokenAddress (pair_address pool)
               = Some priceResult
            /\ pfp_baseTokenSymbol priceResult = "WETH"
            /\ priceInWei r = pfp_priceInWei priceResult
            /\ forall other,
                other ∈ queryMoralisForPools fetch tokenAddress ->
                hasWETH other = true ->
                (liquidity_usd other <= liquidity_usd pool)%Q).
Proof.
  intros quote. subst quote. unfold getTokenPriceInETHWei. split.
  - intros Hweth. rewrite decide_True by exact Hweth. reflexivity.
  - intros Hother Hdirect r. rewrite decide_False by exact Hother.
    rewrite Hdirect. cbv zeta. case_decide; [discriminate|].
    destruct (JS.reduce moreLiquidPair _) as [pool|] eqn:Ereduce;
      [|discriminate].
    cbn [mbind option_bind].
    apply (reduce_max liquidity_usd moreLiquidPair) in Ereduce;
      [|reflexivity].
    destruct Ereduce as [Hin Hmax].
    apply list_elem_of_In, filter_In in Hin. destruct Hin as [Hin Hweth].
    destruct (getTokenPriceFromPool chain tokenAddress (pair_address pool))
      as [priceResult|] eqn:Eprice; [|discriminate].
    case_decide as Hsymbol; [|discriminate]. intros [= <-]. simpl.
    repeat split. exists pool, priceResult.
    split; [apply list_elem_of_In, Hin|]. repeat split; try assumption.
    intros other Hin' Hweth'. apply Hmax.
    apply list_elem_of_In, filter_In. split; [apply list_elem_of_In, Hin'|exact Hweth'].
Qed.

(** X11.  Every entry of [getAllAvailablePrices] carries one of the five
    venue identifiers and a rate other than the literal zero. *)
Theorem getAllAvailablePrices_entries (tokenAddress : string) (r : PoolResult) :
  r ∈ getAllAvailablePrices parseFloat Number_toString BigInt_Math_sqrt
        chain fetch tokenAddress ->
  dex r ∈ venueIds /\ priceInWei r <> "0".
Proof.
  intros Hr. split.
  - eapply PriceAggregator.getAllAvailablePrices_venues, Hr.
  - revert Hr. unfold getAllAvailablePrices. case_decide.
    + apply PriceResolver.deduplicateAndSort_no_zero.
    + unfold getMoralisPools. case_decide.
      * intros Hr. apply elem_of_nil in Hr. destruct Hr.
      * destruct (foldl _ _ _) as [processed allResults].
        apply PriceResolver.deduplicateAndSort_no_zero.
Qed.

End Best.

(** X6 on token [0xT] against WETH: of the two Uniswap V3 pools the one
    with liquidity 900 is returned. *)
Lemma getTokenPriceWithBestLiquidity_greatest_witness :
  exists r,
    getTokenPriceWithBestLiquidity Fixtures.parseDecimal Fixtures.noSquareRoot
      Fixtures.discoveryChain "0xT" WETH_ADDRESS = Some r
    /\ poolAddress r = "0xp2"
    /\ exists dexName,
        dexName ∈ prioritizedDexes
        /\ r ∈ getDexPrices Fixtures.noSquareRoot Fixtures.discoveryChain
                 "0xT" WETH_ADDRESS dexName.
Proof.
  eexists. split; [vm_compute; reflexivity|]. split; [reflexivity|].
  apply (proj2 (getTokenPriceWithBestLiquidity_greatest Fixtures.parseDecimal
                  Fixtures.noSquareRoot Fixtures.discoveryChain
                  "0xT" WETH_ADDRESS)).
  vm_compute. reflexivity.
Defined.

(** X7 on token [0xT] with the index down: the best price is the pool
    with reference symbol WETH and liquidity 900, although the pool with
    reference symbol USDC has liquidity 5000. *)
Lemma getAbsoluteBestPrice_first_witness :
  exists r,
    getAbsoluteBestPrice Fixtures.parseDecimal Fixtures.printInteger
      Fixtures.noSquareRoot Fixtures.discoveryChain Fixtures.indexDown "0xT"
    = Some r
    /\ poolAddress r = "0xp2" /\ isWETH r = true /\ priceInWei r <> "0".
Proof.
  eexists. split; [vm_compute; reflexivity|]. split; [reflexivity|].
  split; [reflexivity|].
  apply (proj2 (getAbsoluteBestPrice_first Fixtures.parseDecimal
                  Fixtures.printInteger Fixtures.noSquareRoot
                  Fixtures.discoveryChain Fixtures.indexDown "0xT")).
  vm_compute. reflexivity.
Defined.

(** X8 on the WETH address written in lower case. *)
Lemma getTokenPriceInETHWei_quote_witness :
  priceInWei <$>
    getTokenPriceInETHWei Fixtures.parseDecimal Fixtures.printInteger
      Fixtures.noSquareRoot Fixtures.discoveryChain Fixtures.indexDown
      "0xc02aaa39b223fe8d0a0e5c4f27ead9083c756cc2"
  = Some "1000000000000000000".
Proof.
  rewrite (proj1 (getTokenPriceInETHWei_quote Fixtures.parseDecimal
                    Fixtures.printInteger Fixtures.noSquareRoot
                    Fixtures.discoveryChain Fixtures.indexDown
                    "0xc02aaa39b223fe8d0a0e5c4f27ead9083c756cc2")).
  - reflexivity.
  - vm_compute. reflexivity.
Defined.

(** X11 on the first entry found for token [0xT]. *)
Lemma getAllAvailablePrices_entries_witness :
  exists r,
    r ∈ getAllAvailablePrices Fixtures.parseDecimal Fixtures.printInteger
          Fixtures.noSquareRoot Fixtures.discoveryChain Fixtures.indexDown "0xT"
    /\ dex r ∈ venueIds /\ priceInWei r <> "0".
Proof.
  set (r := {| dex := "uniswap_v3"; poolAddress := "0xp2"; liquidity := "900";
               priceInWei := "4"; baseToken := WETH_ADDRESS;
               baseTokenSymbol := "WETH"; fee := Some 500 |}).
  assert (Hr : r ∈ getAllAvailablePrices Fixtures.parseDecimal
                     Fixtures.printInteger Fixtures.noSquareRoot
                     Fixtures.discoveryChain Fixtures.indexDown "0xT").
  { vm_compute. apply list_elem_of_here. }
  exists r. split; [exact Hr|].
  apply (getAllAvailablePrices_entries Fixtures.parseDecimal
           Fixtures.printInteger Fixtures.noSquareRoot Fixtures.discoveryChain
           Fixtures.indexDown "0xT" r Hr).
Defined.

(** ** The resolver at its edges *)

(** X9.  The resolver looks at the target token only to see whether it is
    token0 of the pool, comparing addresses without letter case: two targets
    that agree on that are priced alike, so that a token held by neither side
    of the pool is priced as if it were token1. *)
Theorem resolve_depends_on_side_only (chain : Chain)
    (poolAddress target target' : string) :
  (forall token0, pool_token0 chain poolAddress = Some token0 ->
                  (JS.toLowerCase token0 = JS.toLowerCase target
                   <-> JS.toLowerCase token0 = JS.toLowerCase target')) ->
  getTokenPriceFromPool chain target poolAddress
  = getTokenPriceFromPool chain target' poolAddress.
Proof.
  intros Hside.
  assert (H : forall isV3,
             priceAttempt chain target poolAddress isV3
             = priceAttempt chain target' poolAddress isV3).
  { intros isV3. unfold priceAttempt.
    destruct (pool_token0 chain poolAddress) as [token0|]; [|reflexivity].
    cbn [mbind option_bind].
    rewrite (bool_decide_ext _ _ (Hside token0 eq_refl)). reflexivity. }
  unfold getTokenPriceFromPool. rewrite !H. reflexivity.
Qed.

(** X9 on the pair of AAA and WETH: the foreign token [0xCCC] gets the
    price of token1. *)
Lemma resolve_depends_on_side_only_witness :
  getTokenPriceFromPool (Fixtures.pairChain 18 18 (1000 * 10 ^ 18) (3 * 10 ^ 18))
    "0xCCC" "0xpool"
  = getTokenPriceFromPool (Fixtures.pairChain 18 18 (1000 * 10 ^ 18) (3 * 10 ^ 18))
      "0xBBB" "0xpool"
  /\ hasRate (getTokenPriceFromPool
                (Fixtures.pairChain 18 18 (1000 * 10 ^ 18) (3 * 10 ^ 18))
                "0xCCC" "0xpool") 333.
Proof.
  split; [|vm_compute; reflexivity].
  apply resolve_depends_on_side_only.
  intros token0 [= <-]. split; vm_compute; discriminate.
Defined.

Lemma priceAttempt_no_reserves (chain : Chain) (tokenAddress poolAddress : string) :
  pool_getReserves chain poolAddress = None ->
  priceAttempt chain tokenAddress poolAddress false = None.
Proof.
  intros Hres. unfold priceAttempt. rewrite Hres.
  repeat (match goal with
          | |- context [mbind _ (?read chain ?a)] =>
              destruct (read chain a); cbn [mbind option_bind]
          end; try reflexivity).
Qed.

(** X10.  On a concentrated-liquidity pool whose square-root price is still
    zero, token0 is priced at the rate 0, while for the other side the
    division by zero is caught and the pool is tried as a constant-product
    pair, which makes it not found when it has no reserves to read. *)
Theorem zero_sqrt_price (chain : Chain)
    (tokenAddress poolAddress token0 token1 symbol0 symbol1 : string)
    (decimal0 decimal1 : Z) :
  poolMetadata chain poolAddress token0 token1 decimal0 decimal1 symbol0 symbol1 ->
  0 <= decimal0 -> 0 <= decimal1 ->
  pool_slot0_sqrtPriceX96 chain poolAddress = Some 0 ->
  (JS.toLowerCase token0 = JS.toLowerCase tokenAddress ->
   getTokenPriceFromPool chain tokenAddress poolAddress
   = Some {| pfp_priceInWei := "0"; pfp_baseToken := token1;
             pfp_baseTokenSymbol := symbol1 |})
  /\ (JS.toLowerCase token0 <> JS.toLowerCase tokenAddress ->
      getTokenPriceFromPool chain tokenAddress poolAddress
      = priceAttempt chain tokenAddress poolAddress false)
  /\ (JS.toLowerCase token0 <> JS.toLowerCase tokenAddress ->
      pool_getReserves chain poolAddress = None ->
      getTokenPriceFromPool chain tokenAddress poolAddress = None).
Proof.
  intros Hmeta Hd0 Hd1 Hslot.
  pose proof (PriceResolver.priceAttempt_concentrated chain tokenAddress
                poolAddress token0 token1 symbol0 symbol1 decimal0 decimal1
                Hmeta Hd0 Hd1 0 Hslot) as Hattempt.
  cbv zeta in Hattempt. unfold getTokenPriceFromPool. rewrite Hattempt.
  split; [|split].
  - intros Htarget. rewrite bool_decide_true by exact Htarget.
    rewrite Z.mul_0_l, Z.quot_0_l; [reflexivity|].
    pose proof (PriceResolver.pow10_pos _ Hd0).
    assert (0 < 2 ^ 96) by (apply Z.pow_pos_nonneg; lia). nia.
  - intros Htarget. rewrite bool_decide_false by exact Htarget.
    rewrite decide_True by reflexivity. reflexivity.
  - intros Htarget Hres. rewrite bool_decide_false by exact Htarget.
    rewrite decide_True by reflexivity.
    apply priceAttempt_no_reserves, Hres.
Qed.

(** X10 on the pool of AAA and WETH before its price is set. *)
Lemma zero_sqrt_price_witness :
  hasRate (getTokenPriceFromPool (Fixtures.poolChain 18 18 0 0) "0xAAA" "0xpool") 0
  /\ getTokenPriceFromPool (Fixtures.poolChain 18 18 0 0) "0xBBB" "0xpool" = None.
Proof.
  destruct (zero_sqrt_price (Fixtures.poolChain 18 18 0 0) "0xAAA" "0xpool"
              "0xAAA" "0xBBB" "AAA" "WETH" 18 18) as (H0 & _ & _).
  { repeat split; reflexivity. }
  { lia. } { lia. } { reflexivity. }
  destruct (zero_sqrt_price (Fixtures.poolChain 18 18 0 0) "0xBBB" "0xpool"
              "0xAAA" "0xBBB" "AAA" "WETH" 18 18) as (_ & _ & H1).
  { repeat split; reflexivity. }
  { lia. } { lia. } { reflexivity. }
  split.
  - unfold hasRate. rewrite H0 by reflexivity. reflexivity.
  - apply H1; [vm_compute; discriminate|reflexivity].
Defined.

End Discovery.

(** ** Connections, messages and what every event preserves *)

Module Sessions.

Import PricingDurableObject Registry SubscriptionRegistry UpdateScheduler.

(** *** A property that the operations keep is kept by every event *)

Section Closure.

Variable P : State -> Prop.

Hypothesis P_open : forall clientId webSocket now st,
  sessions st !! clientId = None -> P st ->
  P (openSession clientId webSocket now st).
Hypothesis P_subscribe : forall clientId tokenAddress st,
  P st -> P (subscribeClientToToken clientId tokenAddress st).
Hypothesis P_unsubscribe : forall clientId tokenAddress st,
  P st -> P (unsubscribeClientFromToken clientId tokenAddress st).
Hypothesis P_remove : forall clientId st,
  P st -> P (removeClient clientId st).
Hypothesis P_touch : forall clientId now st,
  P st -> P (touch clientId now st).
Hypothesis P_update : forall priceService now tokenAddress st,
  P st -> P (updateSingleTokenPrice priceService now tokenAddress st).1.

Lemma settleAll_closed priceService now (tokenAddresses : list string) :
  forall st results,
    P st ->
    P (foldl (fun '(st, results) tokenAddress =>
                let '(st, changed) :=
                  updateSingleTokenPrice priceService (now tokenAddress)
                    tokenAddress st in
                (st, results ++ [(tokenAddress, changed)]))
             (st, results) tokenAddresses).1.
Proof.
  induction tokenAddresses as [|t rest IH]; intros st results HP;
    cbn [foldl]; [exact HP|].
  pose proof (P_update priceService (now t) t st HP) as HP'.
  destruct (updateSingleTokenPrice priceService (now t) t st) as [st1 changed].
  apply IH, HP'.
Qed.

Lemma silent_closed priceService now st :
  P st -> P (updateAllActivePricesSilent priceService now st).
Proof. apply settleAll_closed. Qed.

Lemma notify_closed now (clientIds : list string) :
  forall st sent, P st -> P (foldl (notifyClient now) (st, sent) clientIds).1.
Proof.
  induction clientIds as [|c rest IH]; intros st sent HP; cbn [foldl];
    [exact HP|].
  assert (HP' : P (notifyClient now (st, sent) c).1).
  { unfold notifyClient. destruct (sessions st !! c) as [session|]; [|exact HP].
    case_decide; [|exact HP].
    destruct (sendThrows (webSocket session)); [apply P_remove, HP|exact HP]. }
  destruct (notifyClient now (st, sent) c) as [st1 sent1]. apply IH, HP'.
Qed.

Lemma refresh_closed priceService now notifyTime st :
  P st -> P (updateAllActivePrices priceService now notifyTime st).1.1.
Proof.
  intros HP. unfold updateAllActivePrices.
  pose proof (settleAll_closed priceService now (activeTokens st) st [] HP)
    as HP'.
  fold (settleAll priceService now (activeTokens st) st) in HP'.
  destruct (settleAll priceService now (activeTokens st) st) as [st1 results].
  destruct (existsb _ results); [|exact HP'].
  pose proof (notify_closed notifyTime (elements (allClientIds st1)) st1 []
                HP') as HP''.
  fold (notifyAllClients notifyTime st1) in HP''.
  destruct (notifyAllClients notifyTime st1) as [st2 sent]. exact HP''.
Qed.

Lemma subscribeAll_closed clientId (tokenAddresses : list string) :
  forall st,
    P st ->
    P (foldl (fun st tokenAddress =>
                subscribeClientToToken clientId tokenAddress st)
             st tokenAddresses).
Proof.
  induction tokenAddresses as [|t rest IH]; intros st HP; cbn [foldl];
    [exact HP|]. apply IH, P_subscribe, HP.
Qed.

Lemma subscribeEach_closed clientId (tokenAddresses : list JsonElement) :
  forall st, P st -> P (subscribeEach clientId tokenAddresses st).
Proof.
  unfold subscribeEach.
  induction tokenAddresses as [|t rest IH]; intros st HP; cbn [foldl];
    [exact HP|].
  apply IH. destruct (validAddress t); [apply P_subscribe, HP|exact HP].
Qed.

Lemma unsubscribeEach_closed clientId (tokenAddresses : list JsonElement) :
  forall st, P st -> P (unsubscribeEach clientId tokenAddresses st).
Proof.
  unfold unsubscribeEach.
  induction tokenAddresses as [|t rest IH]; intros st HP; cbn [foldl];
    [exact HP|].
  apply IH. destruct (validAddress t); [apply P_unsubscribe, HP|exact HP].
Qed.

Lemma send_state webSocket st sent message :
  (send webSocket st sent message).1.1 = st.
Proof. unfold send. destruct (sendThrows webSocket); reflexivity. Qed.

Lemma messageListenerBody_closed priceService now nowFor later clientId
    webSocket message st :
  P st ->
  P (messageListenerBody priceService now nowFor later clientId webSocket
       message st).1.1.
Proof.
  intros HP. unfold messageListenerBody.
  destruct message as [|[|type tokenAddresses]]; cbn [fst];
    [exact HP|apply P_touch, HP|].
  pose proof (P_touch clientId now st HP) as HP'.
  repeat case_decide; try destruct tokenAddresses as [tokenAddresses|];
    rewrite ?send_state; try exact HP'.
  - destruct (sendThrows webSocket); cbn [fst].
    + apply subscribeEach_closed, HP'.
    + rewrite send_state. apply silent_closed, subscribeEach_closed, HP'.
  - apply unsubscribeEach_closed, HP'.
Qed.

Lemma messageListener_closed priceService now nowFor later clientId
    webSocket message st :
  P st ->
  P (messageListener priceService now nowFor later clientId webSocket
       message st).1.
Proof.
  intros HP. unfold messageListener.
  pose proof (messageListenerBody_closed priceService now nowFor later
                clientId webSocket message st HP) as HP'.
  destruct (messageListenerBody _ _ _ _ _ _ _ _) as [[st1 sent] completed].
  cbn [fst] in HP'. destruct completed; [exact HP'|].
  destruct (sendThrows webSocket); [apply P_remove, HP'|exact HP'].
Qed.

Lemma handleWebSocket_closed priceService now nowFor later clientId
    webSocket subscriptionHeader st :
  sessions st !! clientId = None ->
  P st ->
  P (handleWebSocket priceService now nowFor later clientId webSocket
       subscriptionHeader st).1.1.
Proof.
  intros Hfresh HP. unfold handleWebSocket. rewrite send_state.
  apply silent_closed, subscribeAll_closed, P_open; assumption.
Qed.

Lemma event_closed st st' : event st st' -> P st -> P st'.
Proof.
  intros Hevent HP. destruct Hevent.
  - apply handleWebSocket_closed; assumption.
  - apply messageListener_closed, HP.
  - apply P_remove, HP.
  - apply refresh_closed, HP.
Qed.

Lemma events_closed st st' : rtc event st st' -> P st -> P st'.
Proof.
  induction 1 as [|st st1 st' Hevent _ IH]; [tauto|].
  intros HP. apply IH. eapply event_closed; eassumption.
Qed.

End Closure.

(** *** The two invariants *)

Lemma touch_consistent clientId now st :
  consistent st -> consistent (touch clientId now st).
Proof.
  unfold touch. destruct (sessions st !! clientId) as [session|] eqn:E;
    [|tauto].
  intros Hc c t. rewrite <- (Hc c t). cbn [sessions tokenSubscribers].
  destruct (decide (c = clientId)) as [->|Hne].
  - rewrite lookup_insert_eq, E. split.
    + intros (s & [= <-] & Ht). eauto.
    + intros (s & [= <-] & Ht). eexists. split; [reflexivity|exact Ht].
  - rewrite lookup_insert_ne by congruence. reflexivity.
Qed.

Lemma update_consistent priceService now tokenAddress st :
  consistent st ->
  consistent (updateSingleTokenPrice priceService now tokenAddress st).1.
Proof.
  unfold consistent.
  rewrite updateSingleTokenPrice_sessions,
    updateSingleTokenPrice_tokenSubscribers. tauto.
Qed.

Lemma initialState_tracked : tracked initialState.
Proof.
  split.
  - unfold initialState, FEATURED_TOKENS. cbn.
    rewrite !dom_insert_L, !dom_empty_L. set_solver.
  - intros t info. unfold initialState, FEATURED_TOKENS. cbn.
    intros H.
    repeat (rewrite lookup_insert in H;
            destruct (decide _) as [<-|?] in H;
            [injection H as <-; reflexivity|]).
    rewrite lookup_empty in H. discriminate.
Qed.

Lemma openSession_tracked clientId webSocket now st :
  tracked st -> tracked (openSession clientId webSocket now st).
Proof. tauto. Qed.

Lemma touch_tracked clientId now st :
  tracked st -> tracked (touch clientId now st).
Proof. unfold touch. destruct (sessions st !! clientId); tauto. Qed.

Lemma subscribe_tracked clientId tokenAddress st :
  tracked st -> tracked (subscribeClientToToken clientId tokenAddress st).
Proof.
  intros [Hdom Haddr]. unfold subscribeClientToToken.
  destruct (sessions st !! clientId) as [session|]; [|split; assumption].
  split; cbn [tokenSubscribers tokenRegistry].
  - rewrite dom_insert_L.
    destruct (tokenSubscribers st !! tokenAddress) eqn:Es,
             (tokenRegistry st !! tokenAddress) eqn:Er;
      rewrite ?dom_insert_L;
      try (apply (elem_of_dom_2 (D := gset string)) in Es);
      try (apply (elem_of_dom_2 (D := gset string)) in Er);
      set_solver.
  - intros t info.
    destruct (tokenRegistry st !! tokenAddress) eqn:Er; [apply Haddr|].
    destruct (decide (t = tokenAddress)) as [->|Hne].
    + rewrite lookup_insert_eq. intros [= <-]. reflexivity.
    + rewrite lookup_insert_ne by congruence. apply Haddr.
Qed.

Lemma unsubscribe_tokenRegistry clientId tokenAddress st :
  tokenRegistry (unsubscribeClientFromToken clientId tokenAddress st)
  = tokenRegistry st.
Proof.
  unfold unsubscribeClientFromToken.
  destruct (sessions st !! clientId); reflexivity.
Qed.

Lemma unsubscribe_dom clientId tokenAddress st :
  dom (tokenSubscribers (unsubscribeClientFromToken clientId tokenAddress st))
  ⊆ dom (tokenSubscribers st).
Proof.
  unfold unsubscribeClientFromToken.
  destruct (sessions st !! clientId); [|reflexivity].
  cbn [tokenSubscribers].
  destruct (tokenSubscribers st !! tokenAddress) eqn:Es; [|reflexivity].
  apply (elem_of_dom_2 (D := gset string)) in Es.
  case_decide; rewrite ?dom_delete_L, ?dom_insert_L; set_solver.
Qed.

Lemma unsubscribe_tracked clientId tokenAddress st :
  tracked st -> tracked (unsubscribeClientFromToken clientId tokenAddress st).
Proof.
  intros [Hdom Haddr]. split.
  - rewrite unsubscribe_tokenRegistry.
    etrans; [apply unsubscribe_dom|exact Hdom].
  - rewrite unsubscribe_tokenRegistry. exact Haddr.
Qed.

Lemma removeClient_tracked clientId st :
  tracked st -> tracked (removeClient clientId st).
Proof.
  intros Ht. unfold removeClient.
  destruct (sessions st !! clientId) as [session|]; [|exact Ht].
  cut (tracked (foldl (fun st tokenAddress =>
                         unsubscribeClientFromToken clientId tokenAddress st)
                      st (elements (subscribedTokens session)))); [tauto|].
  revert st Ht. induction (elements (subscribedTokens session)) as [|t l IH];
    intros st Ht; cbn [foldl]; [exact Ht|].
  apply IH, unsubscribe_tracked, Ht.
Qed.

Lemma update_tokenRegistry priceService now tokenAddress st t tokenInfo :
  tokenRegistry st !! t = Some tokenInfo ->
  exists tokenInfo',
    tokenRegistry (updateSingleTokenPrice priceService now tokenAddress st).1
      !! t = Some tokenInfo'
    /\ identity tokenInfo' = identity tokenInfo.
Proof.
  intros Ht.
  destruct (decide (t = tokenAddress)) as [->|Hne].
  - unfold updateSingleTokenPrice. destruct priceService as [service|];
      [|eauto]. rewrite Ht.
    destruct (service tokenAddress).
    + destruct (initialized tokenInfo); [case_bool_decide|];
        cbn [fst setToken tokenRegistry]; rewrite lookup_insert_eq;
        eexists; (split; [reflexivity|reflexivity]).
    + cbn [fst setToken tokenRegistry]. rewrite lookup_insert_eq.
      eexists; (split; [reflexivity|reflexivity]).
  - rewrite updateSingleTokenPrice_other by exact Hne. eauto.
Qed.

Lemma update_tokenRegistry_inv priceService now tokenAddress st t tokenInfo' :
  tokenRegistry (updateSingleTokenPrice priceService now tokenAddress st).1
    !! t = Some tokenInfo' ->
  exists tokenInfo,
    tokenRegistry st !! t = Some tokenInfo
    /\ identity tokenInfo' = identity tokenInfo.
Proof.
  destruct (tokenRegistry st !! t) as [tokenInfo|] eqn:Ht.
  - destruct (update_tokenRegistry priceService now tokenAddress st t
                tokenInfo Ht) as (info & Hinfo & Hid).
    rewrite Hinfo. intros [= <-]. eauto.
  - destruct (decide (t = tokenAddress)) as [->|Hne].
    + unfold updateSingleTokenPrice. destruct priceService; rewrite ?Ht;
        cbn [fst]; rewrite Ht; discriminate.
    + rewrite updateSingleTokenPrice_other, Ht by exact Hne. discriminate.
Qed.

Lemma update_tracked priceService now tokenAddress st :
  tracked st ->
  tracked (updateSingleTokenPrice priceService now tokenAddress st).1.
Proof.
  intros [Hdom Haddr]. split.
  - rewrite updateSingleTokenPrice_tokenSubscribers.
    intros t Ht. apply Hdom in Ht. apply elem_of_dom in Ht.
    destruct Ht as [info Hinfo].
    destruct (update_tokenRegistry priceService now tokenAddress st t info
                Hinfo) as (info' & Hinfo' & _).
    apply elem_of_dom. eauto.
  - intros t info' Hinfo'.
    apply update_tokenRegistry_inv in Hinfo'.
    destruct Hinfo' as (info & Hinfo & Hid).
    apply Haddr in Hinfo. unfold identity in Hid. congruence.
Qed.

Lemma events_consistent st st' :
  rtc event st st' -> consistent st -> consistent st'.
Proof.
  apply (events_closed consistent); intros.
  - apply openSession_consistent; assumption.
  - apply subscribe_consistent; assumption.
  - apply unsubscribe_consistent; assumption.
  - apply removeClient_consistent; assumption.
  - apply touch_consistent; assumption.
  - apply update_consistent; assumption.
Qed.

Lemma events_tracked st st' :
  rtc event st st' -> tracked st -> tracked st'.
Proof.
  apply (events_closed tracked); intros.
  - apply openSession_tracked; assumption.
  - apply subscribe_tracked; assumption.
  - apply unsubscribe_tracked; assumption.
  - apply removeClient_tracked; assumption.
  - apply touch_tracked; assumption.
  - apply update_tracked; assumption.
Qed.

(** The payload of a session names its subscribed tokens one for one. *)
Lemma subscribedTokenData_address st session clientId :
  consistent st -> tracked st ->
  sessions st !! clientId = Some session ->
  address <$> subscribedTokenData st session
  = elements (subscribedTokens session).
Proof.
  intros Hc [Hdom Haddr] Hs. unfold subscribedTokenData.
  assert (Hall : forall t, t ∈ elements (subscribedTokens session) ->
                           exists info, tokenRegistry st !! t = Some info
                                        /\ address info = t).
  { intros t Ht. apply elem_of_elements in Ht.
    destruct (proj1 (Hc clientId t)) as (S & HS & _); [eauto|].
    apply (elem_of_dom_2 (D := gset string)) in HS. apply Hdom in HS.
    apply elem_of_dom in HS. destruct HS as [info Hinfo].
    exists info. split; [exact Hinfo|apply Haddr, Hinfo]. }
  induction (elements (subscribedTokens session)) as [|t l IH];
    [reflexivity|].
  cbn [omap list_omap].
  destruct (Hall t) as (info & Hinfo & Hkey); [apply list_elem_of_here|].
  rewrite Hinfo. cbn [fmap list_fmap]. rewrite Hkey. f_equal.
  apply IH. intros t' Ht'. apply Hall, list_elem_of_further, Ht'.
Qed.

(** X12.  In every state the events lead to, the two subscription maps
    agree, every monitored token has a record filed under its own address,
    and so the payload built for a session lists each token the session
    subscribes to exactly once, in the order of its set: the filter that
    drops tokens without a record never drops one. *)
Theorem served_payload_complete (st : State) :
  served st ->
  consistent st /\ tracked st
  /\ forall clientId session,
       sessions st !! clientId = Some session ->
       address <$> subscribedTokenData st session
       = elements (subscribedTokens session)
       /\ length (subscribedTokenData st session)
          = size (subscribedTokens session).
Proof.
  intros Hserved.
  assert (Hc : consistent st)
    by (eapply events_consistent; [exact Hserved|apply initialState_consistent]).
  assert (Ht : tracked st)
    by (eapply events_tracked; [exact Hserved|apply initialState_tracked]).
  split; [exact Hc|]. split; [exact Ht|].
  intros clientId session Hs.
  pose proof (subscribedTokenData_address st session clientId Hc Ht Hs) as Ha.
  split; [exact Ha|].
  rewrite <- (length_fmap address), Ha. reflexivity.
Qed.

(** X13.  No event makes the registry forget a token: a record stays
    under its address with the same symbol, address, decimals and name,
    also after its last subscriber is gone. *)
Theorem registry_never_forgets (st st' : State) (tokenAddress : string)
    (tokenInfo : TokenInfo) :
  rtc event st st' ->
  tokenRegistry st !! tokenAddress = Some tokenInfo ->
  exists tokenInfo',
    tokenRegistry st' !! tokenAddress = Some tokenInfo'
    /\ identity tokenInfo' = identity tokenInfo.
Proof.
  intros Hevents Hinfo.
  apply (events_closed
           (fun st' => exists tokenInfo',
                tokenRegistry st' !! tokenAddress = Some tokenInfo'
                /\ identity tokenInfo' = identity tokenInfo))
    with (st := st); [..|exact Hevents|eauto].
  - intros c ws now s _ H. exact H.
  - intros c t s (info & Hi & Hid). exists info. split; [|exact Hid].
    unfold subscribeClientToToken. destruct (sessions s !! c); [|exact Hi].
    cbn [tokenRegistry].
    destruct (tokenRegistry s !! t) eqn:Et; [exact Hi|].
    rewrite lookup_insert_ne by congruence. exact Hi.
  - intros c t s H. rewrite unsubscribe_tokenRegistry. exact H.
  - intros c s H. rewrite removeClient_tokenRegistry. exact H.
  - intros c now s H. unfold touch. destruct (sessions s !! c); exact H.
  - intros ps now t s (info & Hi & Hid).
    destruct (update_tokenRegistry ps now t s tokenAddress info Hi)
      as (info' & Hi' & Hid').
    exists info'. split; [exact Hi'|congruence].
Qed.

(** X12 on the state after a first connection: the payload of the new
    session has its two tokens. *)
Lemma served_payload_complete_witness :
  exists session,
    sessions Fixtures.welcomed !! "s1" = Some session
    /\ address <$> subscribedTokenData Fixtures.welcomed session
       = elements (subscribedTokens session)
    /\ length (subscribedTokenData Fixtures.welcomed session) = 2%nat.
Proof.
  assert (Hserved : served Fixtures.welcomed).
  { apply rtc_once. unfold Fixtures.welcomed. apply event_connect.
    reflexivity. }
  destruct (sessions Fixtures.welcomed !! "s1") as [session|] eqn:Hs;
    [|vm_compute in Hs; discriminate].
  exists session. split; [reflexivity|].
  destruct (served_payload_complete Fixtures.welcomed Hserved)
    as (_ & _ & Hpayload).
  destruct (Hpayload "s1" session Hs) as [Ha Hl].
  split; [exact Ha|]. rewrite Hl.
  vm_compute in Hs. injection Hs as <-. vm_compute. reflexivity.
Defined.

(** X13 on the disconnection of the only subscriber of [0xX]. *)
Lemma registry_never_forgets_witness :
  exists tokenInfo',
    tokenRegistry (removeClient "s1" Fixtures.twoSessions) !! "0xX"
    = Some tokenInfo'
    /\ identity tokenInfo' = ("UNKNOWN", "0xX", 18, Some "Unknown Token").
Proof.
  apply (registry_never_forgets Fixtures.twoSessions
           (removeClient "s1" Fixtures.twoSessions) "0xX"
           {| symbol := "UNKNOWN"; address := "0xX"; decimals := 18;
              name := Some "Unknown Token"; dexPrices := [];
              lastUpdate := 0; initialized := false |}).
  - apply rtc_once, event_close.
  - vm_compute. reflexivity.
Defined.

(** *** A refresh pass, token by token *)

Lemma settleAll_registry priceService now (tokenAddresses : list string) :
  NoDup tokenAddresses ->
  forall st results tokenAddress,
    tokenAddress ∈ tokenAddresses ->
    tokenRegistry
      (foldl (fun '(st, results) tokenAddress =>
                let '(st, changed) :=
                  updateSingleTokenPrice priceService (now tokenAddress)
                    tokenAddress st in
                (st, results ++ [(tokenAddress, changed)]))
             (st, results) tokenAddresses).1 !! tokenAddress
    = tokenRegistry
        (updateSingleTokenPrice priceService (now tokenAddress)
           tokenAddress st).1 !! tokenAddress.
Proof.
  induction 1 as [|a rest Hnotin Hnodup IH]; intros st results t Ht.
  - apply elem_of_nil in Ht. destruct Ht.
  - cbn [foldl].
    destruct (updateSingleTokenPrice priceService (now a) a st)
      as [st1 changed] eqn:E1.
    assert (Est1 : st1 = (updateSingleTokenPrice priceService (now a) a st).1)
      by (rewrite E1; reflexivity).
    apply elem_of_cons in Ht. destruct Ht as [->|Ht].
    + destruct (settleAll_spec priceService now rest Hnodup st1
                  (results ++ [(a, changed)])) as (_ & _ & _ & Hother).
      rewrite (Hother a Hnotin), Est1. reflexivity.
    + rewrite (IH st1 _ t Ht).
      apply updateSingleTokenPrice_local. rewrite Est1.
      apply updateSingleTokenPrice_other. intros ->. tauto.
Qed.

Lemma elem_of_activeTokens st tokenAddress :
  tokenAddress ∈ activeTokens st <->
  tokenAddress ∈ dom (tokenSubscribers st).
Proof. unfold activeTokens. apply elem_of_elements. Qed.

Lemma NoDup_activeTokens st : NoDup (activeTokens st).
Proof. unfold activeTokens. apply NoDup_elements. Qed.

Lemma silent_registry priceService now st tokenAddress :
  tokenRegistry (updateAllActivePricesSilent priceService now st)
    !! tokenAddress
  = if decide (tokenAddress ∈ dom (tokenSubscribers st))
    then tokenRegistry
           (updateSingleTokenPrice priceService (now tokenAddress)
              tokenAddress st).1 !! tokenAddress
    else tokenRegistry st !! tokenAddress.
Proof.
  unfold updateAllActivePricesSilent, settleAll. case_decide as Hin.
  - apply settleAll_registry; [apply NoDup_activeTokens|].
    apply elem_of_activeTokens, Hin.
  - destruct (settleAll_spec priceService now (activeTokens st)
                (NoDup_activeTokens st) st []) as (_ & _ & _ & Hother).
    apply Hother. rewrite elem_of_activeTokens. exact Hin.
Qed.

(** X14.  In a refresh pass each monitored token is updated as if it were
    updated alone on the state the pass started from, whatever happens to
    the other tokens, and a token that is not monitored keeps its record;
    the pass changes neither the sessions nor the subscriber sets. *)
Theorem refresh_pass_is_per_token (priceService : option PriceService)
    (now : string -> Z) (st : State) :
  let st' := updateAllActivePricesSilent priceService now st in
  sessions st' = sessions st
  /\ tokenSubscribers st' = tokenSubscribers st
  /\ forall tokenAddress,
       tokenRegistry st' !! tokenAddress
       = if decide (tokenAddress ∈ dom (tokenSubscribers st))
         then tokenRegistry
                (updateSingleTokenPrice priceService (now tokenAddress)
                   tokenAddress st).1 !! tokenAddress
         else tokenRegistry st !! tokenAddress.
Proof.
  cbv zeta. split; [apply settleAll_sessions|].
  split; [apply settleAll_tokenSubscribers|].
  apply silent_registry.
Qed.

Lemma update_initialized service now tokenAddress st tokenInfo :
  tokenRegistry st !! tokenAddress = Some tokenInfo ->
  exists tokenInfo',
    tokenRegistry (updateSingleTokenPrice (Some service) now tokenAddress st).1
      !! tokenAddress = Some tokenInfo'
    /\ initialized tokenInfo' = true
    /\ lastUpdate tokenInfo' = now.
Proof.
  intros Ht. unfold updateSingleTokenPrice. rewrite Ht.
  destruct (service tokenAddress).
  - destruct (initialized tokenInfo); [case_bool_decide|];
      cbn [fst setToken tokenRegistry]; rewrite lookup_insert_eq;
      eexists; repeat split.
  - cbn [fst setToken tokenRegistry]. rewrite lookup_insert_eq.
    eexists; repeat split.
Qed.

(** X15.  When the object has a price service, a refresh pass leaves every
    monitored token that has a record initialised and stamped with the
    instant its request settled at, whether the request succeeded or
    failed. *)
Theorem refresh_initializes (service : PriceService) (now : string -> Z)
    (st : State) (tokenAddress : string) :
  tracked st ->
  tokenAddress ∈ dom (tokenSubscribers st) ->
  exists tokenInfo,
    tokenRegistry (updateAllActivePricesSilent (Some service) now st)
      !! tokenAddress = Some tokenInfo
    /\ initialized tokenInfo = true
    /\ lastUpdate tokenInfo = now tokenAddress.
Proof.
  intros [Hdom _] Hin. rewrite silent_registry, decide_True by exact Hin.
  apply Hdom, elem_of_dom in Hin. destruct Hin as [info Hinfo].
  eapply update_initialized, Hinfo.
Qed.

(** X15 on the token [0xY], whose request fails. *)
Lemma refresh_initializes_witness :
  exists tokenInfo,
    tokenRegistry
      (updateAllActivePricesSilent (Some Fixtures.outage) (fun _ => 3000)
         Fixtures.twoSessions) !! "0xY" = Some tokenInfo
    /\ initialized tokenInfo = true
    /\ lastUpdate tokenInfo = 3000.
Proof.
  apply (refresh_initializes Fixtures.outage (fun _ => 3000)
           Fixtures.twoSessions "0xY").
  - unfold Fixtures.twoSessions.
    repeat apply subscribe_tracked. repeat apply openSession_tracked.
    apply initialState_tracked.
  - vm_compute. reflexivity.
Defined.

Lemma settleAll_no_service now (tokenAddresses : list string) :
  forall st results,
    foldl (fun '(st, results) tokenAddress =>
             let '(st, changed) :=
               updateSingleTokenPrice None (now tokenAddress) tokenAddress st in
             (st, results ++ [(tokenAddress, changed)]))
          (st, results) tokenAddresses
    = (st, results ++ ((fun tokenAddress => (tokenAddress, false))
                         <$> tokenAddresses)).
Proof.
  induction tokenAddresses as [|t rest IH]; intros st results; cbn [foldl].
  - rewrite app_nil_r. reflexivity.
  - cbn [updateSingleTokenPrice]. rewrite IH, <- app_assoc. reflexivity.
Qed.

Lemma silent_no_service now st :
  updateAllActivePricesSilent None now st = st.
Proof.
  unfold updateAllActivePricesSilent, settleAll.
  rewrite settleAll_no_service. reflexivity.
Qed.

(** X16.  An object that was created without a price service, as it is
    when no RPC endpoint is configured, changes nothing in a refresh pass:
    every token is reported unchanged, no record is touched and nothing is
    pushed. *)
Theorem refresh_without_price_service (now : string -> Z) (notifyTime : Z)
    (st : State) :
  updateAllActivePricesSilent None now st = st
  /\ updateAllActivePrices None now notifyTime st
     = (st, (fun tokenAddress => (tokenAddress, false)) <$> activeTokens st, []).
Proof.
  unfold updateAllActivePricesSilent, updateAllActivePrices, settleAll.
  rewrite settleAll_no_service. split; [reflexivity|].
  cbn [app].
  replace (existsb (fun result : string * bool => result.2)
             ((fun tokenAddress => (tokenAddress, false)) <$> activeTokens st))
    with false; [reflexivity|].
  induction (activeTokens st) as [|t l IH]; [reflexivity|exact IH].
Qed.

(** *** A connection *)

Lemma subscribeAll_session clientId (tokenAddresses : list string) :
  forall st session,
    sessions st !! clientId = Some session ->
    let st' := foldl (fun st tokenAddress =>
                        subscribeClientToToken clientId tokenAddress st)
                     st tokenAddresses in
    (exists session',
        sessions st' !! clientId = Some session'
        /\ subscribedTokens session'
           = subscribedTokens session ∪ list_to_set tokenAddresses
        /\ webSocket session' = webSocket session
        /\ lastActivity session' = lastActivity session)
    /\ forall c, c <> clientId -> sessions st' !! c = sessions st !! c.
Proof.
  induction tokenAddresses as [|t rest IH]; intros st session Hs;
    cbn [foldl].
  - split; [|reflexivity]. exists session. split; [exact Hs|].
    split; [set_solver|]. split; reflexivity.
  - set (st1 := subscribeClientToToken clientId t st).
    assert (Hs1 : sessions st1 !! clientId
                  = Some {| id := id session;
                            webSocket := webSocket session;
                            subscribedTokens := subscribedTokens session ∪ {[ t ]};
                            lastActivity := lastActivity session |}).
    { subst st1. unfold subscribeClientToToken. rewrite Hs.
      cbn [sessions]. apply lookup_insert_eq. }
    assert (Hother : forall c, c <> clientId ->
                               sessions st1 !! c = sessions st !! c).
    { intros c Hc. subst st1. unfold subscribeClientToToken. rewrite Hs.
      cbn [sessions]. apply lookup_insert_ne. congruence. }
    destruct (IH st1 _ Hs1) as ((session' & Hs' & Hset & Hws & Hact) & Hrest).
    split.
    + exists session'. split; [exact Hs'|]. cbn in Hset, Hws, Hact.
      split; [rewrite Hset; set_solver|]. split; assumption.
    + intros c Hc. rewrite Hrest by exact Hc. apply Hother, Hc.
Qed.

Lemma send_outcome webSocket st sent message :
  send webSocket st sent message
  = if sendThrows webSocket then (st, sent, false)
    else (st, sent ++ [message], true).
Proof. reflexivity. Qed.

(** X17.  A connection under a fresh identifier registers a session that
    subscribes to exactly the tokens its header asks for and leaves the
    other sessions alone: each of those tokens then has a record and the
    new client among its subscribers.  It refreshes before it answers, so
    that, when the object has a price service, each of those records is
    initialised and stamped; without one the records are left as they
    were.  If the socket takes the welcome, this is one message that lists
    each of the tokens once (all initialised when there is a price
    service); if sending throws, nothing is sent and the listeners for
    messages, close and error are not registered although the session and
    its subscriptions stay. *)
Theorem handleWebSocket_welcome (priceService : option PriceService) (now : Z)
    (nowFor : string -> Z) (later : Z) (clientId : string)
    (webSocket : WebSocket) (subscriptionHeader : option string) (st : State) :
  sessions st !! clientId = None ->
  consistent st -> tracked st ->
  let outcome :=
    handleWebSocket priceService now nowFor later clientId webSocket
      subscriptionHeader st in
  let initialTokens := parseSubscriptionFromHeaders subscriptionHeader st in
  (exists session,
      sessions outcome.1.1 !! clientId = Some session
      /\ subscribedTokens session = list_to_set initialTokens)
  /\ (forall c, c <> clientId ->
                sessions outcome.1.1 !! c = sessions st !! c)
  /\ (forall tokenAddress,
         tokenAddress ∈ initialTokens ->
         exists tokenInfo subscribers,
           tokenRegistry outcome.1.1 !! tokenAddress = Some tokenInfo
           /\ tokenSubscribers outcome.1.1 !! tokenAddress = Some subscribers
           /\ clientId ∈ subscribers
           /\ (is_Some priceService ->
               initialized tokenInfo = true
               /\ lastUpdate tokenInfo = nowFor tokenAddress))
  /\ (priceService = None ->
      forall tokenAddress tokenInfo,
        tokenRegistry st !! tokenAddress = Some tokenInfo ->
        tokenRegistry outcome.1.1 !! tokenAddress = Some tokenInfo)
  /\ if sendThrows webSocket
     then outcome.1.2 = [] /\ outcome.2 = false
     else outcome.2 = true
          /\ exists data,
              outcome.1.2 = [tokensReply data later clientId true]
              /\ address <$> data
                 = elements (list_to_set initialTokens : gset string)
              /\ (is_Some priceService ->
                  Forall (fun tokenInfo => initialized tokenInfo = true) data).
Proof.
  intros Hfresh Hc Ht outcome initialTokens.
  set (st1 := openSession clientId webSocket now st).
  set (st2 := foldl (fun st tokenAddress =>
                       subscribeClientToToken clientId tokenAddress st)
                    st1 initialTokens).
  set (st3 := updateAllActivePricesSilent priceService nowFor st2).
  assert (Houtcome : outcome
                     = send webSocket st3 []
                         (tokensReply (ownTokenData clientId st3) later
                            clientId true)) by reflexivity.
  assert (Hc2 : consistent st2).
  { apply (subscribeAll_closed consistent); [apply subscribe_consistent|].
    apply openSession_consistent; assumption. }
  assert (Ht2 : tracked st2).
  { apply (subscribeAll_closed tracked); [apply subscribe_tracked|].
    apply openSession_tracked, Ht. }
  assert (Hc3 : consistent st3)
    by (apply (silent_closed consistent); [apply update_consistent|exact Hc2]).
  assert (Ht3 : tracked st3)
    by (apply (silent_closed tracked); [apply update_tracked|exact Ht2]).
  destruct (subscribeAll_session clientId initialTokens st1
              {| id := clientId; webSocket := webSocket;
                 subscribedTokens := ∅; lastActivity := now |})
    as ((session & Hs & Hset & _ & _) & Hothers).
  { apply lookup_insert_eq. }
  fold st2 in Hs, Hothers. cbn [subscribedTokens] in Hset.
  rewrite (left_id_L ∅ (∪)) in Hset.
  assert (Hs3 : sessions st3 !! clientId = Some session)
    by (subst st3; unfold updateAllActivePricesSilent;
        rewrite settleAll_sessions; exact Hs).
  assert (Hstate : outcome.1.1 = st3) by (rewrite Houtcome; apply send_state).
  assert (Htokens : forall tokenAddress,
             tokenAddress ∈ initialTokens ->
             exists tokenInfo subscribers,
               tokenRegistry st3 !! tokenAddress = Some tokenInfo
               /\ tokenSubscribers st3 !! tokenAddress = Some subscribers
               /\ clientId ∈ subscribers
               /\ (is_Some priceService ->
                   initialized tokenInfo = true
                   /\ lastUpdate tokenInfo = nowFor tokenAddress)).
  { intros t Hin.
    destruct (proj1 (Hc2 clientId t)) as (S & HS & HcS).
    { exists session. split; [exact Hs|]. rewrite Hset.
      apply elem_of_list_to_set, Hin. }
    assert (Hactive : t ∈ dom (tokenSubscribers st2))
      by (eapply elem_of_dom_2, HS).
    assert (HS3 : tokenSubscribers st3 !! t = Some S)
      by (subst st3; unfold updateAllActivePricesSilent;
          rewrite settleAll_tokenSubscribers; exact HS).
    assert (Hrecord : is_Some (tokenRegistry st3 !! t)).
    { apply elem_of_dom, (proj1 Ht3). eapply elem_of_dom_2, HS3. }
    destruct Hrecord as [info Hinfo].
    exists info, S. split; [exact Hinfo|]. split; [exact HS3|].
    split; [exact HcS|].
    intros [service ->]. revert Hinfo. subst st3.
    rewrite silent_registry, decide_True by exact Hactive.
    apply (proj1 Ht2), elem_of_dom in Hactive.
    destruct Hactive as [info0 Hinfo0].
    destruct (update_initialized service (nowFor t) t st2 info0 Hinfo0)
      as (info' & Hinfo' & Hinit & Hstamp).
    rewrite Hinfo'. intros [= <-]. split; assumption. }
  rewrite Hstate. split; [eauto|]. split.
  { intros c Hne. subst st3. unfold updateAllActivePricesSilent.
    rewrite settleAll_sessions, Hothers by exact Hne.
    apply lookup_insert_ne. congruence. }
  split; [exact Htokens|]. split.
  { intros -> t info Hinfo. subst st3.
    rewrite (silent_no_service nowFor st2).
    assert (Hkeep : forall l s,
               tokenRegistry s !! t = Some info ->
               tokenRegistry
                 (foldl (fun st tokenAddress =>
                           subscribeClientToToken clientId tokenAddress st)
                        s l) !! t = Some info).
    { induction l as [|a l IH]; intros s Hs0; cbn [foldl]; [exact Hs0|].
      apply IH. unfold subscribeClientToToken.
      destruct (sessions s !! clientId); [|exact Hs0].
      cbn [tokenRegistry].
      destruct (tokenRegistry s !! a) eqn:Ea; [exact Hs0|].
      rewrite lookup_insert_ne by congruence. exact Hs0. }
    apply Hkeep. exact Hinfo. }
  rewrite Houtcome, send_outcome.
  destruct (sendThrows webSocket); [split; reflexivity|].
  split; [reflexivity|]. eexists. split; [reflexivity|].
  unfold ownTokenData. rewrite Hs3.
  split.
  - rewrite (subscribedTokenData_address st3 session clientId Hc3 Ht3 Hs3).
    rewrite Hset. reflexivity.
  - intros Hservice. apply Forall_forall. intros info Hinfo.
    unfold subscribedTokenData in Hinfo. apply list_elem_of_omap in Hinfo.
    destruct Hinfo as (t & Hin & Hlookup).
    rewrite Hset in Hin. apply elem_of_elements, elem_of_list_to_set in Hin.
    destruct (Htokens t Hin) as (info' & _ & Hinfo' & _ & _ & Hinit).
    destruct (Hinit Hservice) as [Hinitialized _]. congruence.
Qed.

(** X17 on a first connection whose socket throws: nothing is sent, no
    listener is registered, and the session stays with its two tokens. *)
Lemma handleWebSocket_welcome_witness :
  let outcome :=
    handleWebSocket (Some (Fixtures.quotes "100")) 0 (fun _ => 1000) 1001
      "s1" Fixtures.brokenSocket (Some "0xX, 0xY") initialState in
  outcome.1.2 = [] /\ outcome.2 = false
  /\ exists session,
      sessions outcome.1.1 !! "s1" = Some session
      /\ subscribedTokens session = {[ "0xX"; "0xY" ]}.
Proof.
  destruct (handleWebSocket_welcome (Some (Fixtures.quotes "100")) 0
              (fun _ => 1000) 1001 "s1" Fixtures.brokenSocket
              (Some "0xX, 0xY") initialState)
    as ((session & Hs & Hset) & _ & _ & _ & Hsent).
  - reflexivity.
  - apply initialState_consistent.
  - apply initialState_tracked.
  - cbv zeta. cbn [Fixtures.brokenSocket sendThrows] in Hsent.
    destruct Hsent as [Hsent Hlisten].
    split; [exact Hsent|]. split; [exact Hlisten|].
    exists session. split; [exact Hs|]. rewrite Hset.
    vm_compute. reflexivity.
Defined.

(** *** Messages *)

Lemma removeClient_gone clientId st :
  sessions (removeClient clientId st) !! clientId = None.
Proof.
  unfold removeClient. destruct (sessions st !! clientId) eqn:E; [|exact E].
  cbn [sessions]. apply lookup_delete_eq.
Qed.

Lemma subscribeEach_foldl clientId (tokenAddresses : list JsonElement) :
  forall st,
    subscribeEach clientId tokenAddresses st
    = foldl (fun st tokenAddress =>
               subscribeClientToToken clientId tokenAddress st)
            st (validAddresses tokenAddresses).
Proof.
  unfold subscribeEach, validAddresses.
  induction tokenAddresses as [|t rest IH]; intros st; [reflexivity|].
  cbn [foldl omap list_omap]. rewrite IH.
  destruct (validAddress t); reflexivity.
Qed.

Lemma unsubscribeEach_foldl clientId (tokenAddresses : list JsonElement) :
  forall st,
    unsubscribeEach clientId tokenAddresses st
    = foldl (fun st tokenAddress =>
               unsubscribeClientFromToken clientId tokenAddress st)
            st (validAddresses tokenAddresses).
Proof.
  unfold unsubscribeEach, validAddresses.
  induction tokenAddresses as [|t rest IH]; intros st; [reflexivity|].
  cbn [foldl omap list_omap]. rewrite IH.
  destruct (validAddress t); reflexivity.
Qed.

Lemma touch_session clientId now st session :
  sessions st !! clientId = Some session ->
  sessions (touch clientId now st) !! clientId
  = Some {| id := id session; webSocket := webSocket session;
            subscribedTokens := subscribedTokens session;
            lastActivity := now |}
  /\ (forall c, c <> clientId ->
                sessions (touch clientId now st) !! c = sessions st !! c)
  /\ tokenRegistry (touch clientId now st) = tokenRegistry st
  /\ tokenSubscribers (touch clientId now st) = tokenSubscribers st.
Proof.
  intros Hs. unfold touch. rewrite Hs. cbn [sessions].
  split; [apply lookup_insert_eq|].
  split; [|split; reflexivity].
  intros c Hc. apply lookup_insert_ne. congruence.
Qed.

Lemma body_on_throwing_socket priceService now nowFor later clientId webSocket
    message st :
  sendThrows webSocket = true ->
  let outcome :=
    messageListenerBody priceService now nowFor later clientId webSocket
      message st in
  outcome.1.2 = [] /\ outcome.2 = false.
Proof.
  intros Hthrows. unfold messageListenerBody.
  destruct message as [|[|type tokenAddresses]]; cbn; [tauto..|].
  repeat case_decide; try destruct tokenAddresses as [tokenAddresses|];
    rewrite ?send_outcome, ?Hthrows; cbn; tauto.
Qed.

(** X18.  On a socket on which [send] throws, whatever message arrives is
    answered by nothing and ends with the session removed: the client is
    gone from the sessions and from every subscriber set. *)
Theorem message_on_throwing_socket (priceService : option PriceService)
    (now : Z) (nowFor : string -> Z) (later : Z) (clientId : string)
    (webSocket : WebSocket) (message : MessageEvent) (st : State) :
  sendThrows webSocket = true ->
  consistent st ->
  let outcome :=
    messageListener priceService now nowFor later clientId webSocket
      message st in
  outcome.2 = []
  /\ sessions outcome.1 !! clientId = None
  /\ forall tokenAddress subscribers,
       tokenSubscribers outcome.1 !! tokenAddress = Some subscribers ->
       clientId ∉ subscribers.
Proof.
  intros Hthrows Hc outcome.
  assert (Hc' : consistent outcome.1).
  { apply (messageListener_closed consistent);
      auto using subscribe_consistent, unsubscribe_consistent,
        removeClient_consistent, touch_consistent, update_consistent. }
  subst outcome. revert Hc'. unfold messageListener.
  pose proof (body_on_throwing_socket priceService now nowFor later clientId
                webSocket message st Hthrows) as [Hsent Hcompleted].
  destruct (messageListenerBody _ _ _ _ _ _ _ _) as [[st1 sent] completed].
  cbn in Hsent, Hcompleted. subst sent completed. rewrite Hthrows.
  cbn [fst snd]. intros Hc'. split; [reflexivity|].
  split; [apply removeClient_gone|].
  intros t S HS Hin.
  destruct (proj2 (Hc' clientId t)) as (session & Hs & _); [eauto|].
  rewrite removeClient_gone in Hs. discriminate.
Qed.

(** X18 on a ping that arrives on the broken socket of a subscriber. *)
Lemma message_on_throwing_socket_witness :
  sessions
    (messageListener None 5 (fun _ => 5) 6 "s1" Fixtures.brokenSocket
       (Parsed (ParsedValue (TypeString "ping") None))
       Fixtures.twoSessions).1 !! "s1" = None.
Proof.
  apply (message_on_throwing_socket None 5 (fun _ => 5) 6 "s1"
           Fixtures.brokenSocket
           (Parsed (ParsedValue (TypeString "ping") None))
           Fixtures.twoSessions).
  - reflexivity.
  - unfold Fixtures.twoSessions.
    repeat apply subscribe_consistent.
    repeat (apply openSession_consistent; [reflexivity|]).
    apply initialState_consistent.
Defined.

(** X19.  On a socket that takes the answer, a message that is not a
    request to change subscriptions, be it text that does not parse, [null],
    a ping, a request for the tokens, a subscription request without an
    array or a message of a type the object does not know, changes nothing
    but the instant of the last activity of its session, and is answered by
    exactly one message to its client. *)
Theorem other_messages_change_nothing (priceService : option PriceService)
    (now : Z) (nowFor : string -> Z) (later : Z) (clientId : string)
    (webSocket : WebSocket) (message : MessageEvent) (st : State) :
  sendThrows webSocket = false ->
  changesSubscriptions message = false ->
  let outcome :=
    messageListener priceService now nowFor later clientId webSocket
      message st in
  (outcome.1 = st \/ outcome.1 = touch clientId now st)
  /\ exists reply,
      outcome.2 = [reply]
      /\ Reply.clientId reply = clientId
      /\ Reply.timestamp reply = now
      /\ Reply.tokenAddresses reply = None.
Proof.
  intros Hsend Hother. unfold messageListener, messageListenerBody.
  destruct message as [|[|type tokenAddresses]]; rewrite ?Hsend; cbn [fst snd].
  - split; [tauto|]. eexists. repeat split.
  - split; [tauto|]. eexists. repeat split.
  - destruct type as [type|printed];
      [destruct tokenAddresses as [tokenAddresses|]|].
    + cbn in Hother. apply bool_decide_eq_false in Hother.
      repeat case_decide;
        try (exfalso; simplify_eq; apply Hother; auto; fail);
        rewrite send_outcome, Hsend; cbn [fst snd];
        (split; [tauto|]); eexists; repeat split.
    + repeat case_decide; rewrite send_outcome, Hsend; cbn [fst snd];
        (split; [tauto|]); eexists; repeat split.
    + repeat case_decide; try discriminate.
      rewrite send_outcome, Hsend; cbn [fst snd].
      split; [tauto|]. eexists. repeat split.
Qed.

(** X19 on text that does not parse, on an open socket. *)
Lemma other_messages_change_nothing_witness :
  messageListener None 5 (fun _ => 5) 6 "s1" Fixtures.openSocket Unparsable
    Fixtures.twoSessions
  = (Fixtures.twoSessions,
     [notice error "Failed to parse WebSocket message" 5 "s1"]).
Proof.
  destruct (other_messages_change_nothing None 5 (fun _ => 5) 6 "s1"
              Fixtures.openSocket Unparsable Fixtures.twoSessions)
    as (_ & reply & Hreply & _); [reflexivity..|].
  reflexivity.
Defined.

(** X20.  A [subscribe] message with an array, on a socket that takes the
    answers, adds the non-empty strings of the array to the subscriptions
    of its session and is answered twice: by a notice that counts every
    element of the array, whether it was subscribed or not, and after a
    refresh by a message that lists each token of the session once.  The
    empty array is accepted like any other. *)
Theorem subscribe_message (priceService : option PriceService)
    (now : Z) (nowFor : string -> Z) (later : Z) (clientId : string)
    (webSocket : WebSocket) (tokenAddresses : list JsonElement)
    (st : State) (session : ClientSession) :
  sessions st !! clientId = Some session ->
  sendThrows webSocket = false ->
  consistent st -> tracked st ->
  let outcome :=
    messageListener priceService now nowFor later clientId webSocket
      (Parsed (ParsedValue (TypeString "subscribe") (Some tokenAddresses)))
      st in
  let subscribed :=
    subscribedTokens session ∪ list_to_set (validAddresses tokenAddresses) in
  (exists session',
      sessions outcome.1 !! clientId = Some session'
      /\ subscribedTokens session' = subscribed
      /\ lastActivity session' = now)
  /\ (forall c, c <> clientId -> sessions outcome.1 !! c = sessions st !! c)
  /\ exists data,
      outcome.2
      = [ acknowledgement subscribe
            ("Subscribed to " +:+ lengthText tokenAddresses +:+ " tokens")
            tokenAddresses now clientId;
          tokensReply data later clientId false ]
      /\ address <$> data = elements subscribed.
Proof.
  intros Hs Hsend Hc Ht outcome subscribed.
  set (st0 := touch clientId now st).
  set (st1 := subscribeEach clientId tokenAddresses st0).
  set (st2 := updateAllActivePricesSilent priceService nowFor st1).
  assert (Houtcome :
            outcome
            = (st2,
               [ acknowledgement subscribe
                   ("Subscribed to " +:+ lengthText tokenAddresses
                      +:+ " tokens")
                   tokenAddresses now clientId;
                 tokensReply (ownTokenData clientId st2) later clientId
                   false ])).
  { subst outcome. unfold messageListener, messageListenerBody.
    rewrite decide_False by discriminate.
    rewrite decide_True by reflexivity.
    rewrite Hsend, send_outcome, Hsend. reflexivity. }
  destruct (touch_session clientId now st session Hs)
    as (Hs0 & Hothers0 & _ & _).
  fold st0 in Hs0, Hothers0.
  destruct (subscribeAll_session clientId (validAddresses tokenAddresses)
              st0 _ Hs0) as ((session' & Hs1 & Hset & _ & Hact) & Hothers1).
  rewrite <- subscribeEach_foldl in Hs1, Hothers1. fold st1 in Hs1, Hothers1.
  cbn [subscribedTokens lastActivity] in Hset, Hact.
  assert (Hs2 : sessions st2 !! clientId = Some session')
    by (subst st2; unfold updateAllActivePricesSilent;
        rewrite settleAll_sessions; exact Hs1).
  assert (Hc2 : consistent st2).
  { apply (silent_closed consistent); [apply update_consistent|].
    apply (subscribeEach_closed consistent); [apply subscribe_consistent|].
    apply touch_consistent, Hc. }
  assert (Ht2 : tracked st2).
  { apply (silent_closed tracked); [apply update_tracked|].
    apply (subscribeEach_closed tracked); [apply subscribe_tracked|].
    apply touch_tracked, Ht. }
  rewrite Houtcome. cbn [fst snd]. split; [eauto|]. split.
  - intros c Hne. subst st2. unfold updateAllActivePricesSilent.
    rewrite settleAll_sessions, Hothers1, Hothers0 by exact Hne. reflexivity.
  - eexists. split; [reflexivity|]. unfold ownTokenData. rewrite Hs2.
    rewrite (subscribedTokenData_address st2 session' clientId Hc2 Ht2 Hs2).
    rewrite Hset. reflexivity.
Qed.

(** X20 on the empty array: the notice says zero tokens, and the answer
    lists the one subscription of the session. *)
Lemma subscribe_message_witness :
  exists data,
    (messageListener None 5 (fun _ => 5) 6 "s1" Fixtures.openSocket
       (Parsed (ParsedValue (TypeString "subscribe") (Some [])))
       Fixtures.twoSessions).2
    = [ acknowledgement subscribe "Subscribed to 0 tokens" [] 5 "s1";
        tokensReply data 6 "s1" false ]
    /\ address <$> data = ["0xX"].
Proof.
  destruct (subscribe_message None 5 (fun _ => 5) 6 "s1" Fixtures.openSocket
              [] Fixtures.twoSessions
              {| id := "s1"; webSocket := Fixtures.openSocket;
                 subscribedTokens := {[ "0xX" ]}; lastActivity := 0 |})
    as (_ & _ & data & Hsent & Hdata).
  - vm_compute. reflexivity.
  - reflexivity.
  - unfold Fixtures.twoSessions.
    repeat apply subscribe_consistent.
    repeat (apply openSession_consistent; [reflexivity|]).
    apply initialState_consistent.
  - unfold Fixtures.twoSessions.
    repeat apply subscribe_tracked. repeat apply openSession_tracked.
    apply initialState_tracked.
  - exists data. split; [exact Hsent|]. rewrite Hdata.
    vm_compute. reflexivity.
Defined.

(** *** Leaving *)

Lemma unsubscribe_session clientId tokenAddress st session :
  sessions st !! clientId = Some session ->
  sessions (unsubscribeClientFromToken clientId tokenAddress st) !! clientId
  = Some {| id := id session; webSocket := webSocket session;
            subscribedTokens := subscribedTokens session ∖ {[ tokenAddress ]};
            lastActivity := lastActivity session |}.
Proof.
  intros Hs. unfold unsubscribeClientFromToken. rewrite Hs. cbn [sessions].
  apply lookup_insert_eq.
Qed.

Lemma unsubscribe_key clientId tokenAddress st session :
  sessions st !! clientId = Some session ->
  tokenSubscribers (unsubscribeClientFromToken clientId tokenAddress st)
    !! tokenAddress
  = subscribers ← tokenSubscribers st !! tokenAddress;
    if decide (subscribers ∖ {[ clientId ]} = ∅) then None
    else Some (subscribers ∖ {[ clientId ]}).
Proof.
  intros Hs. unfold unsubscribeClientFromToken. rewrite Hs.
  cbn [tokenSubscribers].
  destruct (tokenSubscribers st !! tokenAddress) as [S|] eqn:ES;
    cbn [mbind option_bind]; [|exact ES].
  destruct (decide (size (S ∖ {[ clientId ]}) = 0%nat)) as [Hsize|Hsize].
  - rewrite lookup_delete_eq.
    rewrite decide_True by (apply size_empty_inv in Hsize; set_solver).
    reflexivity.
  - rewrite lookup_insert_eq.
    rewrite decide_False; [reflexivity|].
    intros Hempty. apply Hsize. rewrite Hempty. apply size_empty.
Qed.

Lemma unsubscribe_key_other clientId tokenAddress st other :
  other <> tokenAddress ->
  tokenSubscribers (unsubscribeClientFromToken clientId tokenAddress st)
    !! other
  = tokenSubscribers st !! other.
Proof.
  intros Hne. unfold unsubscribeClientFromToken.
  destruct (sessions st !! clientId); [|reflexivity].
  cbn [tokenSubscribers].
  destruct (tokenSubscribers st !! tokenAddress); [|reflexivity].
  case_decide.
  - apply lookup_delete_ne. congruence.
  - apply lookup_insert_ne. congruence.
Qed.

(** Unsubscribing a client from the tokens of a list, one by one: each of
    the tokens keeps the subscribers it had but for the client, and is no
    longer monitored when none is left; the other tokens keep theirs. *)
Lemma unsubscribeAll_subscribers clientId (tokenAddresses : list string) :
  forall st session,
    sessions st !! clientId = Some session ->
    forall tokenAddress,
      tokenSubscribers
        (foldl (fun st tokenAddress =>
                  unsubscribeClientFromToken clientId tokenAddress st)
               st tokenAddresses) !! tokenAddress
      = if decide (tokenAddress ∈ tokenAddresses)
        then subscribers ← tokenSubscribers st !! tokenAddress;
             if decide (subscribers ∖ {[ clientId ]} = ∅) then None
             else Some (subscribers ∖ {[ clientId ]})
        else tokenSubscribers st !! tokenAddress.
Proof.
  induction tokenAddresses as [|a rest IH]; intros st session Hs t;
    cbn [foldl].
  - rewrite decide_False by apply not_elem_of_nil. reflexivity.
  - rewrite (IH _ _ (unsubscribe_session clientId a st session Hs) t).
    destruct (decide (t = a)) as [->|Hne].
    + rewrite (decide_True (P := a ∈ a :: rest)) by apply list_elem_of_here.
      rewrite (unsubscribe_key clientId a st session Hs).
      destruct (tokenSubscribers st !! a) as [S|]; cbn [mbind option_bind];
        [|case_decide; reflexivity].
      destruct (decide (S ∖ {[ clientId ]} = ∅)) as [Hempty|Hne];
        cbn [mbind option_bind]; [case_decide; reflexivity|].
      case_decide; [|reflexivity].
      replace (S ∖ {[ clientId ]} ∖ {[ clientId ]}) with (S ∖ {[ clientId ]})
        by set_solver.
      rewrite decide_False by exact Hne. reflexivity.
    + rewrite (unsubscribe_key_other clientId a st t Hne).
      destruct (decide (t ∈ rest)) as [Hin|Hnotin].
      * rewrite decide_True by (apply list_elem_of_further, Hin). reflexivity.
      * rewrite decide_False; [reflexivity|].
        rewrite elem_of_cons. tauto.
Qed.

(** X21.  An [unsubscribe] message with an array, on a socket that takes
    the answer, removes the non-empty strings of the array from the
    subscriptions of its session and is answered by one notice.  A token
    named in it keeps its other subscribers and is no longer monitored when
    it has none; no record is touched and no refresh is run. *)
Theorem unsubscribe_message (priceService : option PriceService)
    (now : Z) (nowFor : string -> Z) (later : Z) (clientId : string)
    (webSocket : WebSocket) (tokenAddresses : list JsonElement)
    (st : State) (session : ClientSession) :
  sessions st !! clientId = Some session ->
  sendThrows webSocket = false ->
  let outcome :=
    messageListener priceService now nowFor later clientId webSocket
      (Parsed (ParsedValue (TypeString "unsubscribe") (Some tokenAddresses)))
      st in
  (exists session',
      sessions outcome.1 !! clientId = Some session'
      /\ subscribedTokens session'
         = subscribedTokens session ∖ list_to_set (validAddresses tokenAddresses)
      /\ lastActivity session' = now)
  /\ (forall c, c <> clientId -> sessions outcome.1 !! c = sessions st !! c)
  /\ tokenRegistry outcome.1 = tokenRegistry st
  /\ (forall tokenAddress,
         tokenSubscribers outcome.1 !! tokenAddress
         = if decide (tokenAddress ∈ validAddresses tokenAddresses)
           then subscribers ← tokenSubscribers st !! tokenAddress;
                if decide (subscribers ∖ {[ clientId ]} = ∅) then None
                else Some (subscribers ∖ {[ clientId ]})
           else tokenSubscribers st !! tokenAddress)
  /\ outcome.2
     = [ acknowledgement unsubscribe
           ("Unsubscribed from " +:+ lengthText tokenAddresses +:+ " tokens")
           tokenAddresses now clientId ].
Proof.
  intros Hs Hsend outcome.
  set (st0 := touch clientId now st).
  set (st1 := unsubscribeEach clientId tokenAddresses st0).
  assert (Houtcome :
            outcome
            = (st1,
               [ acknowledgement unsubscribe
                   ("Unsubscribed from " +:+ lengthText tokenAddresses
                      +:+ " tokens")
                   tokenAddresses now clientId ])).
  { subst outcome. unfold messageListener, messageListenerBody.
    rewrite decide_False by discriminate.
    rewrite decide_False by discriminate.
    rewrite decide_True by reflexivity.
    rewrite send_outcome, Hsend. reflexivity. }
  destruct (touch_session clientId now st session Hs)
    as (Hs0 & Hothers0 & Hreg0 & Hsubs0).
  fold st0 in Hs0, Hothers0, Hreg0, Hsubs0.
  destruct (unsubscribe_all clientId (validAddresses tokenAddresses) st0 _ Hs0)
    as ((session' & Hs1 & Hset) & Hothers1 & Hreg1 & _).
  pose proof (unsubscribeAll_subscribers clientId
                (validAddresses tokenAddresses) st0 _ Hs0) as Hsubs1.
  rewrite <- unsubscribeEach_foldl in Hs1, Hothers1, Hreg1, Hsubs1.
  fold st1 in Hs1, Hothers1, Hreg1, Hsubs1.
  cbn [subscribedTokens] in Hset.
  rewrite Houtcome. cbn [fst snd].
  split; [|split; [|split; [|split]]].
  - exists session'. split; [exact Hs1|]. split; [exact Hset|].
    clear - Hs0 Hs1.
    revert Hs1. unfold st1. rewrite unsubscribeEach_foldl.
    generalize (validAddresses tokenAddresses). intros l.
    assert (Hgen : forall s0 s,
               sessions s0 !! clientId = Some s -> lastActivity s = now ->
               forall s',
                 sessions (foldl (fun st tokenAddress =>
                                    unsubscribeClientFromToken clientId
                                      tokenAddress st) s0 l) !! clientId
                 = Some s' -> lastActivity s' = now).
    { induction l as [|a rest IH]; intros s0 s Hs Hact s'; cbn [foldl].
      - congruence.
      - apply (IH _ _ (unsubscribe_session clientId a s0 s Hs)). exact Hact. }
    apply (Hgen st0 _ Hs0). reflexivity.
  - intros c Hne. rewrite Hothers1, Hothers0 by exact Hne. reflexivity.
  - rewrite Hreg1, Hreg0. reflexivity.
  - intros t. rewrite Hsubs1, Hsubs0. reflexivity.
  - reflexivity.
Qed.

(** X21 on the only subscriber of [0xX] leaving it: the token is no longer
    monitored, and its record stays. *)
Lemma unsubscribe_message_witness :
  let outcome :=
    messageListener None 5 (fun _ => 5) 6 "s1" Fixtures.openSocket
      (Parsed (ParsedValue (TypeString "unsubscribe")
                 (Some [JsonText "0xX"; JsonOther])))
      Fixtures.twoSessions in
  tokenSubscribers outcome.1 !! "0xX" = None
  /\ tokenRegistry outcome.1 = tokenRegistry Fixtures.twoSessions
  /\ outcome.2
     = [ acknowledgement unsubscribe "Unsubscribed from 2 tokens"
           [JsonText "0xX"; JsonOther] 5 "s1" ].
Proof.
  destruct (unsubscribe_message None 5 (fun _ => 5) 6 "s1"
              Fixtures.openSocket [JsonText "0xX"; JsonOther]
              Fixtures.twoSessions
              {| id := "s1"; webSocket := Fixtures.openSocket;
                 subscribedTokens := {[ "0xX" ]}; lastActivity := 0 |})
    as (_ & _ & Hreg & Hsubs & Hsent).
  - vm_compute. reflexivity.
  - reflexivity.
  - cbv zeta. split; [|split; [exact Hreg|exact Hsent]].
    rewrite Hsubs. vm_compute. reflexivity.
Defined.

(** X22.  Removing a client deletes its session and takes it out of the
    subscribers of each token it subscribed to, which is no longer monitored
    when it was the only one; the other sessions, the other tokens and all
    records are left as they were, and no subscriber set names the client
    any more. *)
Theorem removeClient_cleans_up (clientId : string) (st : State)
    (session : ClientSession) :
  consistent st ->
  sessions st !! clientId = Some session ->
  let st' := removeClient clientId st in
  sessions st' !! clientId = None
  /\ (forall c, c <> clientId -> sessions st' !! c = sessions st !! c)
  /\ tokenRegistry st' = tokenRegistry st
  /\ (forall tokenAddress,
         tokenSubscribers st' !! tokenAddress
         = if decide (tokenAddress ∈ subscribedTokens session)
           then subscribers ← tokenSubscribers st !! tokenAddress;
                if decide (subscribers ∖ {[ clientId ]} = ∅) then None
                else Some (subscribers ∖ {[ clientId ]})
           else tokenSubscribers st !! tokenAddress)
  /\ forall tokenAddress subscribers,
       tokenSubscribers st' !! tokenAddress = Some subscribers ->
       (clientId ∉ subscribers)
       /\ (tokenAddress ∈ subscribedTokens session -> subscribers <> ∅).
Proof.
  intros Hc Hs st'.
  assert (Hsubs : forall tokenAddress,
             tokenSubscribers st' !! tokenAddress
             = if decide (tokenAddress ∈ subscribedTokens session)
               then subscribers ← tokenSubscribers st !! tokenAddress;
                    if decide (subscribers ∖ {[ clientId ]} = ∅) then None
                    else Some (subscribers ∖ {[ clientId ]})
               else tokenSubscribers st !! tokenAddress).
  { intros t. subst st'. unfold removeClient. rewrite Hs.
    cbn [tokenSubscribers].
    rewrite (unsubscribeAll_subscribers clientId _ st session Hs t).
    destruct (decide (t ∈ elements (subscribedTokens session))) as [Hin|Hin];
      rewrite elem_of_elements in Hin.
    - rewrite decide_True by exact Hin. reflexivity.
    - rewrite decide_False by exact Hin. reflexivity. }
  split; [apply removeClient_gone|].
  split; [intros c Hne; apply removeClient_sessions, Hne|].
  split; [apply removeClient_tokenRegistry|].
  split; [exact Hsubs|].
  intros t S HS. split.
  - intros Hin.
    destruct (proj2 (removeClient_consistent clientId st Hc clientId t))
      as (s & Hgone & _); [eauto|].
    fold st' in Hgone. unfold st' in Hgone.
    rewrite removeClient_gone in Hgone. discriminate.
  - intros Hin. rewrite Hsubs, decide_True in HS by exact Hin.
    destruct (tokenSubscribers st !! t) as [S0|]; [|discriminate].
    cbn [mbind option_bind] in HS. case_decide; [discriminate|]. congruence.
Qed.

(** X22 on the first of two sessions: its token is no longer monitored, the
    token of the other session still is. *)
Lemma removeClient_cleans_up_witness :
  let st' := removeClient "s1" Fixtures.twoSessions in
  sessions st' !! "s1" = None
  /\ tokenSubscribers st' !! "0xX" = None
  /\ tokenSubscribers st' !! "0xY" = Some {[ "s2" ]}.
Proof.
  destruct (removeClient_cleans_up "s1" Fixtures.twoSessions
              {| id := "s1"; webSocket := Fixtures.openSocket;
                 subscribedTokens := {[ "0xX" ]}; lastActivity := 0 |})
    as (Hgone & _ & _ & Hsubs & _).
  - unfold Fixtures.twoSessions.
    repeat apply subscribe_consistent.
    repeat (apply openSession_consistent; [reflexivity|]).
    apply initialState_consistent.
  - vm_compute. reflexivity.
  - cbv zeta. split; [exact Hgone|].
    rewrite !Hsubs. split; vm_compute; reflexivity.
Defined.

(** *** Pushes *)

Lemma notifyClient_sessions now st sent clientId c :
  sessions (notifyClient now (st, sent) clientId).1 !! c
  = if decide (c = clientId)
    then session ← sessions st !! c;
         if decide (readyState (webSocket session) = OPEN
                    /\ sendThrows (webSocket session) = true)
         then None else Some session
    else sessions st !! c.
Proof.
  unfold notifyClient. case_decide as Hc.
  - subst c. destruct (sessions st !! clientId) as [session|] eqn:Hs;
      cbn [mbind option_bind]; [|exact Hs].
    destruct (decide (readyState (webSocket session) = OPEN)) as [Hopen|Hopen].
    + destruct (sendThrows (webSocket session)) eqn:Hthrows; cbn [fst].
      * rewrite decide_True by tauto. apply removeClient_gone.
      * rewrite decide_False by (intros [_ ?]; discriminate). exact Hs.
    + rewrite decide_False by tauto. exact Hs.
  - destruct (sessions st !! clientId) as [session|]; [|reflexivity].
    case_decide; [|reflexivity].
    destruct (sendThrows (webSocket session)); [|reflexivity].
    apply removeClient_sessions, Hc.
Qed.

Lemma notifyClient_sent now st sent clientId :
  (notifyClient now (st, sent) clientId).2.*1 = sent.*1
  \/ (notifyClient now (st, sent) clientId).2.*1 = sent.*1 ++ [clientId].
Proof.
  unfold notifyClient. destruct (sessions st !! clientId) as [session|];
    [|tauto].
  case_decide; [|tauto].
  destruct (sendThrows (webSocket session)); [tauto|].
  right. cbn [snd]. rewrite fmap_app. reflexivity.
Qed.

Lemma notify_fold_once now (clientIds : list string) :
  NoDup clientIds ->
  forall st sent,
    let outcome := foldl (notifyClient now) (st, sent) clientIds in
    (exists recipients,
        outcome.2.*1 = sent.*1 ++ recipients
        /\ recipients `sublist_of` clientIds)
    /\ forall c,
        sessions outcome.1 !! c
        = if decide (c ∈ clientIds)
          then session ← sessions st !! c;
               if decide (readyState (webSocket session) = OPEN
                          /\ sendThrows (webSocket session) = true)
               then None else Some session
          else sessions st !! c.
Proof.
  induction 1 as [|a rest Hnotin Hnodup IH]; intros st sent; cbn [foldl].
  - split.
    + exists []. rewrite app_nil_r. split; [reflexivity|constructor].
    + intros c. rewrite decide_False by apply not_elem_of_nil. reflexivity.
  - pose proof (notifyClient_sessions now st sent a) as Hstep.
    pose proof (notifyClient_sent now st sent a) as Hsent.
    destruct (notifyClient now (st, sent) a) as [st1 sent1].
    cbn [fst snd] in Hstep, Hsent.
    destruct (IH st1 sent1) as ((recipients & Hrec & Hsub) & Hsessions).
    split.
    + destruct Hsent as [Hsent|Hsent]; rewrite Hsent in Hrec.
      * exists recipients. split; [exact Hrec|].
        apply sublist_cons, Hsub.
      * exists (a :: recipients). rewrite <- app_assoc in Hrec.
        split; [exact Hrec|]. apply sublist_skip, Hsub.
    + intros c. rewrite Hsessions, Hstep.
      destruct (decide (c = a)) as [->|Hne].
      * rewrite decide_False by exact Hnotin.
        rewrite decide_True by apply list_elem_of_here. reflexivity.
      * destruct (decide (c ∈ rest)) as [Hin|Hin].
        -- rewrite decide_True by (apply list_elem_of_further, Hin).
           reflexivity.
        -- rewrite decide_False; [reflexivity|].
           rewrite elem_of_cons. tauto.
Qed.

(** X23.  A push round writes at most one message to a client, and it
    drops exactly the sessions that are subscribers of some token and whose
    open socket throws on [send]; every other session is left as it
    was. *)
Theorem notifyAllClients_once_each (now : Z) (st : State) :
  let outcome := notifyAllClients now st in
  NoDup outcome.2.*1
  /\ forall c,
      sessions outcome.1 !! c
      = if decide (c ∈ allClientIds st)
        then session ← sessions st !! c;
             if decide (readyState (webSocket session) = OPEN
                        /\ sendThrows (webSocket session) = true)
             then None else Some session
        else sessions st !! c.
Proof.
  cbv zeta. unfold notifyAllClients.
  destruct (notify_fold_once now (elements (allClientIds st))
              (NoDup_elements _) st [])
    as ((recipients & Hrec & Hsub) & Hsessions).
  split.
  - rewrite Hrec. cbn [fmap list_fmap app].
    eapply sublist_NoDup; [|exact Hsub]. apply NoDup_elements.
  - intros c. rewrite Hsessions.
    destruct (decide (c ∈ elements (allClientIds st))) as [Hin|Hin];
      rewrite elem_of_elements in Hin.
    + rewrite decide_True by exact Hin. reflexivity.
    + rewrite decide_False by exact Hin. reflexivity.
Qed.

(** *** The subscription header *)








End Sessions.

(** ** The prices a record holds *)

Module Records.

Import PriceUtils PricingDurableObject Registry.

Lemma assoc_get_set_eq {V} (k : string) (v : V) (l : list (string * V)) :
  JS.assoc_get k (JS.assoc_set k v l) = Some v.
Proof.
  induction l as [|[k' v'] l IH]; cbn [JS.assoc_set JS.assoc_get].
  - rewrite decide_True by reflexivity. reflexivity.
  - destruct (decide (k' = k)) as [->|Hne]; cbn [JS.assoc_get].
    + rewrite decide_True by reflexivity. reflexivity.
    + rewrite decide_False by exact Hne. exact IH.
Qed.

Lemma assoc_get_set_ne {V} (k k0 : string) (v : V) (l : list (string * V)) :
  k0 <> k -> JS.assoc_get k0 (JS.assoc_set k v l) = JS.assoc_get k0 l.
Proof.
  intros Hne. induction l as [|[k' v'] l IH]; cbn [JS.assoc_set JS.assoc_get].
  - rewrite decide_False by congruence. reflexivity.
  - destruct (decide (k' = k)) as [->|Hne']; cbn [JS.assoc_get].
    + rewrite !decide_False by congruence. reflexivity.
    + rewrite IH. reflexivity.
Qed.

Lemma assoc_get_is_Some {V} (k : string) (l : list (string * V)) :
  k ∈ l.*1 <-> is_Some (JS.assoc_get k l).
Proof.
  induction l as [|[k' v'] l IH]; cbn [JS.assoc_get].
  - rewrite is_Some_alt. split; [intros H; apply elem_of_nil in H|]; tauto.
  - rewrite fmap_cons, elem_of_cons. cbn [fst]. case_decide.
    + split; [eauto|]. intros _. left. congruence.
    + rewrite IH. split; [|tauto]. intros [->|?]; [congruence|assumption].
Qed.

(** Writing the elements of a list into a map one after the other leaves
    under a key what the last element with that key wrote. *)
Lemma foldl_assoc_set_get {A V} (key : A -> string) (val : A -> V)
    (l : list A) (k : string) :
  forall acc,
    JS.assoc_get k (foldl (fun acc x => JS.assoc_set (key x) (val x) acc) acc l)
    = match last (filter (fun x => key x = k) l) with
      | Some x => Some (val x)
      | None => JS.assoc_get k acc
      end.
Proof.
  induction l as [|a l IH]; intros acc; cbn [foldl]; [reflexivity|].
  rewrite IH. rewrite filter_cons. case_decide as Hk.
  - rewrite last_cons.
    destruct (last (filter (fun x => key x = k) l)); [reflexivity|].
    rewrite <- Hk. apply assoc_get_set_eq.
  - destruct (last (filter (fun x => key x = k) l)); [reflexivity|].
    apply assoc_get_set_ne. congruence.
Qed.

Lemma foldl_assoc_set_NoDup {A V} (key : A -> string) (val : A -> V)
    (l : list A) :
  forall acc,
    NoDup acc.*1 ->
    NoDup (foldl (fun acc x => JS.assoc_set (key x) (val x) acc) acc l).*1.
Proof.
  induction l as [|a l IH]; intros acc Hnd; cbn [foldl]; [exact Hnd|].
  apply IH, Discovery.assoc_set_NoDup, Hnd.
Qed.

Lemma last_filter_split {A} (P : A -> Prop) `{!forall x, Decision (P x)}
    (l : list A) (x : A) :
  last (filter P l) = Some x ->
  exists l1 l2, l = l1 ++ x :: l2 /\ P x /\ Forall (fun y => ~ P y) l2.
Proof.
  induction l as [|a l IH]; [discriminate|].
  rewrite filter_cons.
  destruct (last (filter P l)) as [y|] eqn:Hlast.
  - intros Hx.
    assert (Hy : y = x).
    { destruct (decide (P a)); [rewrite last_cons, Hlast in Hx|];
        congruence. }
    subst y. destruct (IH eq_refl) as (l1 & l2 & -> & HP & Hrest).
    exists (a :: l1), l2. split; [reflexivity|]. split; assumption.
  - destruct (decide (P a)) as [HPa|HPa].
    + rewrite last_cons, Hlast. intros [= <-].
      exists [], l. split; [reflexivity|]. split; [exact HPa|].
      apply last_None in Hlast. apply Forall_forall. intros y Hy HPy.
      assert (Hin : y ∈ filter P l) by (apply list_elem_of_filter; tauto).
      rewrite Hlast in Hin. apply elem_of_nil in Hin. exact Hin.
    + rewrite Hlast. discriminate.
Qed.

(** What [populatePrices] leaves under a venue: the entry of the last
    result of that venue. *)
Lemma populatePrices_get (now : Z) (prices : list PoolResult) (venue : string) :
  JS.assoc_get venue (populatePrices now prices)
  = (fun r => {| DexPriceInfo.priceInWei := priceInWei r;
                 DexPriceInfo.poolAddress := poolAddress r;
                 DexPriceInfo.liquidity := liquidity r;
                 DexPriceInfo.fee := fee r;
                 DexPriceInfo.error := None;
                 DexPriceInfo.lastUpdate := now |})
    <$> last (filter (fun r => dex r = venue) prices).
Proof.
  unfold populatePrices.
  etrans; [exact (foldl_assoc_set_get dex _ prices venue [])|].
  destruct (last _); reflexivity.
Qed.

Lemma populatePrices_NoDup (now : Z) (prices : list PoolResult) :
  NoDup (populatePrices now prices).*1.
Proof. apply (foldl_assoc_set_NoDup dex _ prices []). constructor. Qed.

Lemma populatePrices_keys (now : Z) (prices : list PoolResult)
    (venue : string) :
  venue ∈ (populatePrices now prices).*1 <->
  exists r, r ∈ prices /\ dex r = venue.
Proof.
  rewrite assoc_get_is_Some, populatePrices_get, fmap_is_Some. split.
  - intros [r Hr]. apply last_filter_split in Hr.
    destruct Hr as (l1 & l2 & -> & Hvenue & _).
    exists r. split; [|exact Hvenue]. set_solver.
  - intros (r & Hin & Hvenue).
    destruct (last (filter (fun r => dex r = venue) prices)) eqn:Hlast;
      [eauto|].
    apply last_None in Hlast.
    assert (Hin' : r ∈ filter (fun r => dex r = venue) prices)
      by (apply list_elem_of_filter; tauto).
    rewrite Hlast in Hin'. apply elem_of_nil in Hin'. destruct Hin'.
Qed.

(** X24.  The prices written into a record have one entry for each venue
    among the results; an entry carries the rate, pool, liquidity and fee of
    the last result of its venue in the list, whatever came before it, and
    the instant of the update. *)
Theorem populatePrices_last_of_venue (now : Z) (prices : list PoolResult) :
  NoDup (populatePrices now prices).*1
  /\ (forall venue,
         venue ∈ (populatePrices now prices).*1 <->
         exists r, r ∈ prices /\ dex r = venue)
  /\ forall venue entry,
      JS.assoc_get venue (populatePrices now prices) = Some entry ->
      exists before r after,
        prices = before ++ r :: after
        /\ dex r = venue
        /\ Forall (fun r' => dex r' <> venue) after
        /\ entry = {| DexPriceInfo.priceInWei := priceInWei r;
                      DexPriceInfo.poolAddress := poolAddress r;
                      DexPriceInfo.liquidity := liquidity r;
                      DexPriceInfo.fee := fee r;
                      DexPriceInfo.error := None;
                      DexPriceInfo.lastUpdate := now |}.
Proof.
  split; [apply populatePrices_NoDup|].
  split; [apply populatePrices_keys|].
  intros venue entry. rewrite populatePrices_get.
  destruct (last (filter (fun r => dex r = venue) prices)) as [r|] eqn:Hlast;
    [|discriminate].
  intros [= <-]. apply last_filter_split in Hlast.
  destruct Hlast as (l1 & l2 & -> & Hvenue & Hrest).
  exists l1, r, l2. repeat split; assumption.
Qed.

(** X24 on two results of the same venue: the second is kept. *)
Lemma populatePrices_last_of_venue_witness :
  exists entry,
    JS.assoc_get "uniswap_v3"
      (populatePrices 7 [Fixtures.quote "100"; Fixtures.quote "200"])
    = Some entry
    /\ DexPriceInfo.priceInWei entry = "200".
Proof.
  destruct (JS.assoc_get "uniswap_v3"
              (populatePrices 7 [Fixtures.quote "100"; Fixtures.quote "200"]))
    as [entry|] eqn:Hentry; [|vm_compute in Hentry; discriminate].
  exists entry. split; [reflexivity|].
  destruct (proj2 (proj2 (populatePrices_last_of_venue 7
                            [Fixtures.quote "100"; Fixtures.quote "200"]))
              "uniswap_v3" entry Hentry)
    as (before & r & after & Hsplit & _ & Hafter & ->).
  cbn [DexPriceInfo.priceInWei].
  destruct before as [|b0 [|b1 before]]; cbn in Hsplit.
  - injection Hsplit as <- <-. apply Forall_cons in Hafter.
    destruct Hafter as [Hne _]. exfalso. apply Hne. reflexivity.
  - injection Hsplit as <- <- <-. reflexivity.
  - injection Hsplit as _ _ Hnil. destruct before; discriminate.
Defined.

Section Ranking.

Variable parseFloat : string -> Q.
Variable Number_toString : Q -> string.
Variable BigInt_Math_sqrt : Z -> option Z.
Variable chain : Chain.
Variable fetch : string -> FetchOutcome.

(** X25.  When the price service answers with the list of
    [getAllAvailablePrices], the record of the token afterwards holds at
    most one price for each of the five venues, and for a venue with several
    pools in the list it holds the pool the list ranks last: the pool held
    has the reference symbol WETH only if every pool of that venue in the
    list has it, and no pool of that venue that agrees with the pool held on
    having that reference symbol or not has less liquidity. *)
Theorem record_holds_last_ranked_pool (service : PriceService) (now : Z)
    (tokenAddress : string) (st : State) (tokenInfo : TokenInfo) :
  tokenRegistry st !! tokenAddress = Some tokenInfo ->
  service tokenAddress
  = Fulfilled (getAllAvailablePrices parseFloat Number_toString
                 BigInt_Math_sqrt chain fetch tokenAddress) ->
  exists tokenInfo',
    tokenRegistry
      (updateSingleTokenPrice (Some service) now tokenAddress st).1
      !! tokenAddress = Some tokenInfo'
    /\ NoDup (dexPrices tokenInfo').*1
    /\ (dexPrices tokenInfo').*1 ⊆ PoolState.venueIds
    /\ forall venue entry,
        JS.assoc_get venue (dexPrices tokenInfo') = Some entry ->
        exists r,
          r ∈ getAllAvailablePrices parseFloat Number_toString
                BigInt_Math_sqrt chain fetch tokenAddress
          /\ dex r = venue
          /\ DexPriceInfo.poolAddress entry = poolAddress r
          /\ DexPriceInfo.priceInWei entry = priceInWei r
          /\ forall r',
              r' ∈ getAllAvailablePrices parseFloat Number_toString
                     BigInt_Math_sqrt chain fetch tokenAddress ->
              dex r' = venue ->
              (isWETH r = true -> isWETH r' = true)
              /\ (isWETH r' = isWETH r ->
                  (parseFloat (liquidity r) <= parseFloat (liquidity r'))%Q).
Proof.
  intros Hinfo Hservice.
  set (prices := getAllAvailablePrices parseFloat Number_toString
                   BigInt_Math_sqrt chain fetch tokenAddress) in *.
  pose proof (populatePrices_NoDup now prices) as Hnodup.
  pose proof (populatePrices_keys now prices) as Hkeys.
  assert (Hentries : forall venue entry,
             JS.assoc_get venue (populatePrices now prices) = Some entry ->
             exists before r after,
               prices = before ++ r :: after
               /\ dex r = venue
               /\ Forall (fun r' => dex r' <> venue) after
               /\ DexPriceInfo.poolAddress entry = poolAddress r
               /\ DexPriceInfo.priceInWei entry = priceInWei r).
  { intros venue entry. rewrite populatePrices_get.
    destruct (last (filter (fun r => dex r = venue) prices)) as [r|] eqn:Hlast;
      [|discriminate].
    intros [= <-]. apply last_filter_split in Hlast.
    destruct Hlast as (l1 & l2 & -> & Hvenue & Hrest).
    exists l1, r, l2. repeat split; assumption. }
  assert (Hrecord : exists tokenInfo',
             tokenRegistry
               (updateSingleTokenPrice (Some service) now tokenAddress st).1
               !! tokenAddress = Some tokenInfo'
             /\ dexPrices tokenInfo' = populatePrices now prices).
  { unfold updateSingleTokenPrice. rewrite Hinfo, Hservice.
    destruct (initialized tokenInfo); [case_bool_decide|];
      cbn [fst setToken tokenRegistry]; rewrite lookup_insert_eq;
      eexists; (split; [reflexivity|reflexivity]). }
  destruct Hrecord as (tokenInfo' & Hinfo' & Hprices).
  exists tokenInfo'. rewrite Hprices. split; [exact Hinfo'|].
  split; [exact Hnodup|]. split.
  - intros venue Hvenue. apply Hkeys in Hvenue.
    destruct Hvenue as (r & Hr & <-).
    eapply PriceAggregator.getAllAvailablePrices_venues, Hr.
  - intros venue entry Hentry.
    destruct (Hentries venue entry Hentry)
      as (before & r & after & Hsplit & Hvenue & Hafter & Hpool & Hrate).
    exists r. split; [rewrite Hsplit; set_solver|].
    split; [exact Hvenue|]. split; [exact Hpool|]. split; [exact Hrate|].
    intros r' Hr' Hvenue'.
    pose proof (PriceAggregator.getAllAvailablePrices_sorted parseFloat
                  Number_toString BigInt_Math_sqrt chain fetch tokenAddress)
      as Hsorted.
    fold prices in Hsorted. rewrite Hsplit in Hr', Hsorted.
    rewrite elem_of_app, elem_of_cons in Hr'.
    destruct Hr' as [Hr'|[->|Hr']].
    + apply list_elem_of_lookup_1 in Hr'. destruct Hr' as [j Hj].
      pose proof (lookup_lt_Some _ _ _ Hj) as Hlt.
      pose proof (PriceAggregator.StronglySorted_lookup _ _ Hsorted
                    j (length before) r' r) as Hrank.
      rewrite lookup_app_l, list_lookup_middle in Hrank by (exact Hlt || reflexivity).
      specialize (Hrank Hj eq_refl Hlt).
      apply PriceAggregator.before_spec in Hrank.
      destruct Hrank as [[Ha Hb]|[Hab Hle]]; split; intros; congruence.
    + split; [tauto|]. intros _. apply Qle_refl.
    + rewrite Forall_forall in Hafter. exfalso.
      apply (Hafter r' Hr'), Hvenue'.
Qed.

End Ranking.

(** X25 on token [0xT], for which Uniswap V3 lists two pools with
    reference symbol WETH and a more liquid one with reference symbol USDC:
    the record holds the USDC pool. *)
Lemma record_holds_last_ranked_pool_witness :
  exists tokenInfo',
    tokenRegistry
      (updateSingleTokenPrice
         (Some (fun tokenAddress =>
                  Fulfilled (getAllAvailablePrices Fixtures.parseDecimal
                               Fixtures.printInteger Fixtures.noSquareRoot
                               Fixtures.discoveryChain Fixtures.indexDown
                               tokenAddress)))
         9 "0xT"
         (subscribeClientToToken "s1" "0xT"
            (openSession "s1" Fixtures.openSocket 0 initialState))).1
      !! "0xT" = Some tokenInfo'
    /\ NoDup (dexPrices tokenInfo').*1
    /\ DexPriceInfo.poolAddress
         <$> JS.assoc_get "uniswap_v3" (dexPrices tokenInfo')
       = Some "0xp3".
Proof.
  destruct (record_holds_last_ranked_pool Fixtures.parseDecimal
              Fixtures.printInteger Fixtures.noSquareRoot
              Fixtures.discoveryChain Fixtures.indexDown
              (fun tokenAddress =>
                 Fulfilled (getAllAvailablePrices Fixtures.parseDecimal
                              Fixtures.printInteger Fixtures.noSquareRoot
                              Fixtures.discoveryChain Fixtures.indexDown
                              tokenAddress))
              9 "0xT"
              (subscribeClientToToken "s1" "0xT"
                 (openSession "s1" Fixtures.openSocket 0 initialState))
              {| symbol := "UNKNOWN"; address := "0xT"; decimals := 18;
                 name := Some "Unknown Token"; dexPrices := [];
                 lastUpdate := 0; initialized := false |})
    as (tokenInfo' & Hinfo' & Hnodup & _).
  - vm_compute. reflexivity.
  - reflexivity.
  - exists tokenInfo'. split; [exact Hinfo'|]. split; [exact Hnodup|].
    vm_compute in Hinfo'. injection Hinfo' as <-. reflexivity.
Defined.

End Records.

(** ** What the token page shows *)

Module Page.

Import PricingDurableObject TokenPage.

Section Shown.

Variable Number : string -> Q.

Lemma elem_of_validPrices (token : TokenInfo) (v : ValidPrice) :
  v ∈ validPrices Number token <->
  exists dex priceInfo,
    (dex, priceInfo) ∈ dexPrices token
    /\ hasError priceInfo = false
    /\ DexPriceInfo.priceInWei priceInfo <> "0"
    /\ v = {| vp_dex := dex;
              vp_price := DexPriceInfo.priceInWei priceInfo;
              vp_numPrice := Number (DexPriceInfo.priceInWei priceInfo) |}.
Proof.
  unfold validPrices. rewrite list_elem_of_fmap. split.
  - intros ([dex priceInfo] & -> & Hin).
    apply list_elem_of_In, filter_In in Hin. destruct Hin as [Hin Hvalid].
    unfold isValid in Hvalid. cbn [snd] in Hvalid.
    apply andb_true_iff in Hvalid. destruct Hvalid as [Herr Hzero].
    apply negb_true_iff in Herr, Hzero.
    apply bool_decide_eq_false in Hzero.
    exists dex, priceInfo. split; [apply list_elem_of_In, Hin|].
    split; [exact Herr|]. split; [exact Hzero|reflexivity].
  - intros (dex & priceInfo & Hin & Herr & Hzero & ->).
    exists (dex, priceInfo). split; [reflexivity|].
    apply list_elem_of_In, filter_In. split; [apply list_elem_of_In, Hin|].
    unfold isValid. cbn [snd]. rewrite Herr.
    rewrite bool_decide_false by exact Hzero. reflexivity.
Qed.

(** X27.  The page finds no best price exactly when no venue of the token
    has a price that is free of an error and different from the literal
    zero; the best price it finds is such a price, under its venue, and no
    such price of the token has a greater number. *)
Theorem getBestPrice_greatest (token : TokenInfo) :
  (getBestPrice Number token = None <->
   forall dex priceInfo,
     (dex, priceInfo) ∈ dexPrices token ->
     hasError priceInfo = true \/ DexPriceInfo.priceInWei priceInfo = "0")
  /\ forall best,
      getBestPrice Number token = Some best ->
      (exists priceInfo,
          (bp_dex best, priceInfo) ∈ dexPrices token
          /\ hasError priceInfo = false
          /\ DexPriceInfo.priceInWei priceInfo = bp_price best
          /\ bp_price best <> "0")
      /\ forall dex priceInfo,
          (dex, priceInfo) ∈ dexPrices token ->
          hasError priceInfo = false ->
          DexPriceInfo.priceInWei priceInfo <> "0" ->
          (Number (DexPriceInfo.priceInWei priceInfo)
           <= Number (bp_price best))%Q.
Proof.
  unfold getBestPrice. cbv zeta. split.
  - split.
    + intros Hnone dex priceInfo Hin.
      destruct (hasError priceInfo) eqn:Herr; [tauto|]. right.
      destruct (decide (DexPriceInfo.priceInWei priceInfo = "0"))
        as [Hzero|Hzero]; [exact Hzero|exfalso].
      assert (Hv : {| vp_dex := dex;
                      vp_price := DexPriceInfo.priceInWei priceInfo;
                      vp_numPrice := Number (DexPriceInfo.priceInWei priceInfo) |}
                   ∈ validPrices Number token).
      { apply elem_of_validPrices. exists dex, priceInfo. tauto. }
      destruct (validPrices Number token) as [|v l];
        [apply elem_of_nil in Hv; exact Hv|].
      rewrite decide_False in Hnone by discriminate. discriminate.
    + intros Hall. rewrite decide_True; [reflexivity|].
      destruct (validPrices Number token) as [|v l] eqn:E; [reflexivity|].
      assert (Hv : v ∈ validPrices Number token)
        by (rewrite E; apply list_elem_of_here).
      apply elem_of_validPrices in Hv.
      destruct Hv as (dex & priceInfo & Hin & Herr & Hzero & _).
      destruct (Hall dex priceInfo Hin); congruence.
  - intros best. case_decide; [discriminate|].
    destruct (JS.reduce higher (validPrices Number token)) as [v|] eqn:Hreduce;
      [|discriminate].
    cbn [mbind option_bind]. intros [= <-]. cbn [bp_dex bp_price].
    apply (Discovery.reduce_max vp_numPrice higher) in Hreduce;
      [|reflexivity].
    destruct Hreduce as [Hin Hmax].
    apply elem_of_validPrices in Hin.
    destruct Hin as (dex & priceInfo & Hin & Herr & Hzero & ->).
    cbn [vp_dex vp_price vp_numPrice] in *. split.
    + exists priceInfo. repeat split; assumption.
    + intros dex' priceInfo' Hin' Herr' Hzero'.
      apply (Hmax {| vp_dex := dex';
                     vp_price := DexPriceInfo.priceInWei priceInfo';
                     vp_numPrice := Number (DexPriceInfo.priceInWei priceInfo') |}).
      apply elem_of_validPrices. exists dex', priceInfo'. tauto.
Qed.

(** X28.  After a failed refresh of a token that had no prices, the record
    holds the error marker alone: one entry under the key [error], with the
    rate zero and the text of the failure.  The page shows no price for
    such a token: it takes the marker neither for the price of a venue nor
    for the best price. *)
Theorem failed_first_refresh_shows_no_price (service : PriceService)
    (now : Z) (tokenAddress : string) (st : State) (tokenInfo : TokenInfo)
    (reason : string) :
  tokenRegistry st !! tokenAddress = Some tokenInfo ->
  dexPrices tokenInfo = [] ->
  service tokenAddress = Rejected reason ->
  exists tokenInfo',
    tokenRegistry (updateSingleTokenPrice (Some service) now tokenAddress st).1
      !! tokenAddress = Some tokenInfo'
    /\ dexPrices tokenInfo'
       = [ ("error",
            {| DexPriceInfo.priceInWei := "0";
               DexPriceInfo.poolAddress := EmptyString;
               DexPriceInfo.liquidity := "0";
               DexPriceInfo.fee := None;
               DexPriceInfo.error :=
                 Some ("Failed to fetch prices: " +:+ reason);
               DexPriceInfo.lastUpdate := now |}) ]
    /\ getBestPrice Number tokenInfo' = None
    /\ getV3Price tokenInfo' = None
    /\ getV2Price tokenInfo' = None
    /\ getSushiPrice tokenInfo' = None
    /\ forall dex, priceOn dex tokenInfo' = None.
Proof.
  intros Hinfo Hempty Hservice. unfold updateSingleTokenPrice.
  rewrite Hinfo, Hservice. cbn [fst setToken tokenRegistry].
  rewrite lookup_insert_eq. eexists. split; [reflexivity|].
  rewrite Hempty. cbn [length]. rewrite decide_True by reflexivity.
  split; [reflexivity|]. split; [reflexivity|].
  assert (Hnone : forall dex,
             priceOn dex
               {| symbol := symbol tokenInfo; address := address tokenInfo;
                  decimals := decimals tokenInfo; name := name tokenInfo;
                  dexPrices := errorPrices now reason; lastUpdate := now;
                  initialized := true |} = None).
  { intros dex. unfold priceOn, errorPrices. cbn [dexPrices JS.assoc_get].
    case_decide; reflexivity. }
  repeat split; apply Hnone.
Qed.

End Shown.

(** X27 on a record with a price on two venues and the error marker. *)
Lemma getBestPrice_greatest_witness :
  let token :=
    {| symbol := "TKN"; address := "0xT"; decimals := 18; name := None;
       dexPrices :=
         [ ("uniswap_v3",
            {| DexPriceInfo.priceInWei := "120";
               DexPriceInfo.poolAddress := "0xp1";
               DexPriceInfo.liquidity := "5";
               DexPriceInfo.fee := Some 3000;
               DexPriceInfo.error := None;
               DexPriceInfo.lastUpdate := 1 |});
           ("sushiswap",
            {| DexPriceInfo.priceInWei := "130";
               DexPriceInfo.poolAddress := "0xp2";
               DexPriceInfo.liquidity := "7";
               DexPriceInfo.fee := None;
               DexPriceInfo.error := None;
               DexPriceInfo.lastUpdate := 1 |}) ]
         ++ errorPrices 1 "timeout";
       lastUpdate := 1; initialized := true |} in
  exists best,
    getBestPrice Fixtures.parseDecimal token = Some best
    /\ bp_dex best = "sushiswap"
    /\ bp_price best <> "0".
Proof.
  intros token.
  destruct (getBestPrice Fixtures.parseDecimal token) as [best|] eqn:Hbest;
    [|vm_compute in Hbest; discriminate].
  exists best. split; [reflexivity|].
  destruct (proj2 (getBestPrice_greatest Fixtures.parseDecimal token)
              best Hbest) as ((priceInfo & _ & _ & _ & Hzero) & _).
  split; [|exact Hzero].
  vm_compute in Hbest. injection Hbest as <-. reflexivity.
Defined.

(** X28 on the token [0xY] during an outage. *)
Lemma failed_first_refresh_shows_no_price_witness :
  exists tokenInfo',
    tokenRegistry
      (updateSingleTokenPrice (Some Fixtures.outage) 3000 "0xY"
         Fixtures.twoSessions).1 !! "0xY" = Some tokenInfo'
    /\ (dexPrices tokenInfo').*1 = ["error"]
    /\ getBestPrice Fixtures.parseDecimal tokenInfo' = None
    /\ getV3Price tokenInfo' = None.
Proof.
  destruct (failed_first_refresh_shows_no_price Fixtures.parseDecimal
              Fixtures.outage 3000 "0xY" Fixtures.twoSessions
              {| symbol := "UNKNOWN"; address := "0xY"; decimals := 18;
                 name := Some "Unknown Token"; dexPrices := [];
                 lastUpdate := 0; initialized := false |} "timeout")
    as (tokenInfo' & Hinfo' & Hmarker & Hbest & Hv3 & _).
  - vm_compute. reflexivity.
  - reflexivity.
  - reflexivity.
  - exists tokenInfo'. split; [exact Hinfo'|].
    split; [rewrite Hmarker; reflexivity|]. split; assumption.
Defined.

End Page.
